(** * WebRTC to RTSP bridge: [createRTCPeerConnectionSource]

    A shallow embedding of plugins/webrtc/src/wrtc-to-rtsp.ts.

    The bridge is one closure: three [Deferred] coordination values, the
    [cleanup] routine, the [start] chain with the signaling session and the
    intercom object, and the handlers attached to promises and sockets.  The
    embedding keeps the closure's variables as record fields, writes every
    function of the source as a computation in a small monad that threads
    the variables, records every call made on a collaborator (socket, peer
    connection, session control, sink, console, forwarder process) as an
    [effect] in arrival order, and lets the environment drive the bridge
    through events (a client connects, the socket closes, a packet arrives,
    the interval timer fires, ...). *)

From Stdlib Require Import List String Bool Arith NArith Lia.
Import ListNotations.
Open Scope string_scope.
Open Scope list_scope.

(** ** Errors, outcomes and effects *)

Inductive error : Type :=
| Error (msg : string)          (* throw new Error(msg) *)
| TypeError (msg : string)      (* property read on undefined *)
| Failure (code : nat).         (* a rejection produced by a collaborator *)

(** What an async call amounts to once the caller awaits it. *)
Inductive outcome (A : Type) : Type :=
| Returned (a : A)              (* the promise fulfils *)
| Thrown (e : error)            (* the promise rejects *)
| Blocked.                      (* suspended at an await still pending; followed no further *)
Arguments Returned {A} a.
Arguments Thrown {A} e.
Arguments Blocked {A}.

Inductive media_kind : Type := Audio | Video.

Inductive sdp_type : Type := Offer | Answer | Pranswer | Rollback.

Record description : Type := mkDescription {
  dtype : sdp_type;
  dsdp : string
}.

Definition pid := nat.           (* a forwarder process (intercom pipeline) *)
Definition pcid := nat.          (* an RTCPeerConnection object *)
Definition tid := nat.           (* a transceiver of the peer connection *)
Definition trackid := nat.       (* a received media track (its ssrc) *)
Definition media := nat.         (* a MediaObject handle *)
Definition ffmpeg := nat.        (* an FFmpegInput description *)
Definition bytes := list Byte.byte.

(** Calls the bridge makes on its collaborators. *)
Inductive effect : Type :=
| ConsoleLog (msg : string)
| ConsoleError (msg : string)
(* sink transport socket, session control, peer connection *)
| ClientDestroy                              (* client.destroy() *)
| CloseUdp                                   (* closeQuiet(udp) *)
| EndSession                                 (* sc.endSession() *)
| PcClose (pc : pcid)                        (* pc.close() *)
| SetPlayback (audio video : bool)           (* sc.setPlayback({audio, video}) *)
(* intercom *)
| ConvertMediaObject (m : media)             (* mediaManager.convertMediaObjectToJSON *)
| StartRtpForwarder (p : pid) (i : ffmpeg)   (* startRtpForwarderProcess, process p runs *)
| Kill (p : pid)                             (* the kill handle of process p *)
(* signaling *)
| NewPeerConnection (pc : pcid)              (* new RTCPeerConnection(...) *)
| AddTransceiver (pc : pcid) (k : media_kind) (t : tid)
| CreateDataChannel (pc : pcid)
| SubscribeGathering (pc : pcid)             (* pc.iceGatheringStateChange.subscribe *)
| SetOnIceCandidate (pc : pcid)              (* pc.onicecandidate = ... *)
| CreateAnswer (pc : pcid)
| CreateOffer (pc : pcid)
| SetLocalDescription (pc : pcid) (d : description)
| SetRemoteDescription (pc : pcid) (d : description)
| AddIceCandidate (pc : pcid)
| StartSignalingSession                      (* channel.startRTCSignalingSession(session) *)
| WaitConnected (pc : pcid)
| WaitClosed (pc : pcid)
(* sink *)
| SetSdp (sdp : string)                      (* rtspServer.sdp = ... *)
| HandlePlayback                             (* rtspServer.handlePlayback() *)
| SendTrack (control : option string) (data : bytes) (isFeedback : bool)
(* keyframe requests *)
| SetInterval (tr : trackid) (ms : nat)
| ClearInterval (tr : trackid)
| SendRtcpFir (tr : trackid) (sequenceNumber : N)   (* dtlsTransport.sendRtcp([psfb(fir)]) *)
| SendRtcpPLI (tr : trackid).                       (* receiver.sendRtcpPLI(track.ssrc) *)

Definition trace := list effect.

(** ** The monad of the closure: state, effect trace, exceptions *)

Definition M (S A : Type) : Type := S -> outcome A * S * trace.

Definition ret {S A} (a : A) : M S A := fun s => (Returned a, s, []).

Definition bind {S A B} (m : M S A) (k : A -> M S B) : M S B :=
  fun s =>
    match m s with
    | (Returned a, s1, t1) =>
        match k a s1 with
        | (o, s2, t2) => (o, s2, t1 ++ t2)
        end
    | (Thrown e, s1, t1) => (Thrown e, s1, t1)
    | (Blocked, s1, t1) => (Blocked, s1, t1)
    end.

Declare Scope bridge_scope.
Delimit Scope bridge_scope with bridge.
Notation "x <- m ;; k" := (bind m (fun x => k))
  (at level 61, m at next level, right associativity) : bridge_scope.
Notation "m ;; k" := (bind m (fun _ => k))
  (at level 61, right associativity) : bridge_scope.
Open Scope bridge_scope.

Definition emit {S} (e : effect) : M S unit := fun s => (Returned tt, s, [e]).
Definition emits {S} (t : trace) : M S unit := fun s => (Returned tt, s, t).
Definition throw {S A} (e : error) : M S A := fun s => (Thrown e, s, []).
Definition get {S} : M S S := fun s => (Returned s, s, []).
Definition modify {S} (f : S -> S) : M S unit := fun s => (Returned tt, f s, []).

(** [await o]: the caller suspends on a collaborator's promise whose
    settlement is [o]. *)
Definition await {S A} (o : outcome A) : M S A := fun s => (o, s, []).

(** A call whose promise nobody awaits: its effects and mutations happen,
    its rejection goes unobserved by the caller. *)
Definition detached {S A} (m : M S A) : M S unit :=
  fun s => match m s with (_, s1, t1) => (Returned tt, s1, t1) end.

(** Run a computation inside a component of a larger state. *)
Definition zoom {S T A} (proj : S -> T) (inj : T -> S -> S) (m : M T A) : M S A :=
  fun s => match m (proj s) with (o, t1, tr) => (o, inj t1 s, tr) end.

Definition result_of {S A} (r : outcome A * S * trace) : outcome A := fst (fst r).
Definition state_of {S A} (r : outcome A * S * trace) : S := snd (fst r).
Definition trace_of {S A} (r : outcome A * S * trace) : trace := snd r.

(** [post m v Q]: [Q] holds of the outcome, the final state and the trace
    of running [m] from [v]. *)
Definition post {S A} (m : M S A) (v : S) (Q : outcome A -> S -> trace -> Prop) : Prop :=
  Q (result_of (m v)) (state_of (m v)) (trace_of (m v)).

(** ** Deferred *)

Module Deferred.

(** Modelled from the spec: the class [Deferred] of
    @scrypted/common/src/deferred is not among the sources.  A Deferred
    holds state pending, resolved(T) or rejected(error); it transitions
    exactly once and a settlement after settlement is a no-op.  [finished]
    is the flag the bridge reads in [ensurePeerConnection]. *)
Inductive t (T : Type) : Type :=
| Pending
| Resolved (v : T)
| Rejected (e : error).
Arguments Pending {T}.
Arguments Resolved {T} v.
Arguments Rejected {T} e.

Definition finished {T} (d : t T) : bool :=
  match d with Pending => false | _ => true end.

Definition resolve {T} (v : T) (d : t T) : t T :=
  match d with Pending => Resolved v | _ => d end.

Definition reject {T} (e : error) (d : t T) : t T :=
  match d with Pending => Rejected e | _ => d end.

Definition is_pending {T} (d : t T) : bool := negb (finished d).

Definition is_rejected {T} (d : t T) : bool :=
  match d with Rejected _ => true | _ => false end.

End Deferred.

(** ** Intercom bridge (the object [ic] built at the end of [start]) *)

Module Intercom.

(** Variables the two methods close over, and the forwarder processes
    the host has handed out so far. *)
Record vars : Type := mkVars {
  destroyProcess : option pid;   (* let destroyProcess: () => void *)
  track : bool;                  (* const track = audioTransceiver.sender.sendRtp, truthy? *)
  spawned : nat                  (* processes started so far; the next one is number [spawned] *)
}.

Definition set_destroyProcess (d : option pid) (v : vars) : vars :=
  mkVars d (track v) (spawned v).

Definition set_spawned (n : nat) (v : vars) : vars :=
  mkVars (destroyProcess v) (track v) n.

(** What the collaborators answer during one [startIntercom] call. *)
Record world : Type := mkWorld {
  alive : bool;                  (* isPeerConnectionAlive(pc) *)
  converted : outcome ffmpeg;    (* mediaManager.convertMediaObjectToJSON(media, FFmpegInput) *)
  forwarder : outcome unit       (* startRtpForwarderProcess(...): started, or failed to start *)
}.

Definition init (two_way_audio : bool) : vars := mkVars None two_way_audio 0.

(** [destroyProcess?.(); sc.setPlayback({audio: false, video: false})] *)
Definition stopIntercom : M vars unit :=
  v <- get ;;
  match destroyProcess v with
  | Some p => emit (Kill p)
  | None => ret tt
  end ;;
  emit (SetPlayback false false).

(** [await startRtpForwarderProcess(console, ffmpegInput, {...})]: on
    success a fresh process runs and its kill handle is returned. *)
Definition startRtpForwarderProcess (w : world) (input : ffmpeg) : M vars pid :=
  await (forwarder w) ;;
  v <- get ;;
  let p := spawned v in
  modify (set_spawned (S p)) ;;
  emit (StartRtpForwarder p input) ;;
  ret p.

Definition startIntercom (w : world) (m : media) : M vars unit :=
  if negb (alive w) then throw (Error "peer connection is closed") else
  v <- get ;;
  if negb (track v) then throw (Error "peer connection does not support two way audio") else
  emit (ConvertMediaObject m) ;;
  ffmpegInput <- await (converted w) ;;
  destroy <- startRtpForwarderProcess w ffmpegInput ;;
  detached stopIntercom ;;
  modify (set_destroyProcess (Some destroy)) ;;
  (* const sc = await sessionControl.promise: resolved before ic exists *)
  emit (SetPlayback true false).

(** The pipelines running after a trace, given those running before it. *)
Fixpoint alive_after (running : list pid) (tr : trace) : list pid :=
  match tr with
  | [] => running
  | StartRtpForwarder p _ :: tr' => alive_after (running ++ [p]) tr'
  | Kill p :: tr' => alive_after (remove Nat.eq_dec p running) tr'
  | _ :: tr' => alive_after running tr'
  end.

(** The playback states signalled to session control by a trace. *)
Fixpoint playback_signals (tr : trace) : list (bool * bool) :=
  match tr with
  | [] => []
  | SetPlayback a v :: tr' => (a, v) :: playback_signals tr'
  | _ :: tr' => playback_signals tr'
  end.

(** Calls a holder of the intercom capability can make. *)
Inductive op : Type :=
| StartIntercom (w : world) (m : media)
| StopIntercom.

Definition run_op (o : op) : M vars unit :=
  match o with
  | StartIntercom w m => startIntercom w m
  | StopIntercom => stopIntercom
  end.

(** A history of calls made one after the other, each left to settle
    (whatever its outcome) before the next. *)
Fixpoint run_ops (ops : list op) (v : vars) : vars * trace :=
  match ops with
  | [] => (v, [])
  | o :: ops' =>
      match run_op o v with
      | (_, v1, t1) =>
          match run_ops ops' v1 with
          | (v2, t2) => (v2, t1 ++ t2)
          end
      end
  end.

(** Position of the first occurrence of an effect satisfying [f]. *)
Fixpoint index_of (f : effect -> bool) (tr : trace) : option nat :=
  match tr with
  | [] => None
  | e :: tr' => if f e then Some 0 else option_map S (index_of f tr')
  end.

Definition is_start (p : pid) (e : effect) : bool :=
  match e with StartRtpForwarder q _ => Nat.eqb p q | _ => false end.

Definition is_kill (p : pid) (e : effect) : bool :=
  match e with Kill q => Nat.eqb p q | _ => false end.

(** "[p] is stopped before [q] is started" in a trace. *)
Definition stopped_before_started (p q : pid) (tr : trace) : Prop :=
  exists i j, index_of (is_kill p) tr = Some i /\
              index_of (is_start q) tr = Some j /\ i < j.

Definition ok_world (i : ffmpeg) : world := mkWorld true (Returned i) (Returned tt).

(** The forwarder processes alive are at most the one whose kill handle
    [destroyProcess] holds, and process numbers are handed out in order. *)
Definition consistent (v : vars) (running : list pid) : Prop :=
  match destroyProcess v with
  | Some p => p < spawned v /\ (running = [] \/ running = [p])
  | None => running = []
  end.

End Intercom.


(** ** Signaling session, sink setup, media relay and keyframe requests
       (the closures of [start]) *)

Module Session.

(** One media section of a parsed session description. *)
Record msection : Type := mkMsection {
  mtype : string;              (* msection.type *)
  control : option string      (* msection.control, undefined without a=control *)
}.

(** RTCAVSignalingSetup, as far as the bridge reads it. *)
Record setup : Type := mkSetup {
  configuration : nat;         (* bundle policy and ice servers, passed through *)
  datachannel : bool           (* setup.datachannel present *)
}.

(** A transceiver added by [doSetup], with the onTrack subscription made
    right after; [of_setup] is the [doSetup] call whose [gotAudio] and
    [gotVideo] flags the subscriber closes over. *)
Record transceiver : Type := mkTransceiver {
  t_id : tid;
  t_pc : pcid;
  t_kind : media_kind;
  of_setup : nat
}.

(** A track delivered through onTrack, with its onReceiveRtp and
    onReceiveRtcp subscriptions. *)
Record subscription : Type := mkSubscription {
  s_track : trackid;
  s_kind : media_kind;
  s_setup : nat
}.

(** The interval created by [track.onReceiveRtp.once] for a video track. *)
Record timer : Type := mkTimer {
  k_track : trackid;
  firSequenceNumber : N;       (* let firSequenceNumber = 0 *)
  cleared : bool               (* clearInterval(pictureLossInterval) has run *)
}.

Record flags : Type := mkFlags {
  gotAudio : bool;
  gotVideo : bool
}.

Record vars : Type := mkVars {
  peerConnection : Deferred.t pcid;    (* new Deferred<RTCPeerConnection>() *)
  created : nat;                       (* peer connections constructed so far *)
  audioTrack : option string;          (* let audioTrack: string *)
  videoTrack : option string;          (* let videoTrack: string *)
  sdp : option string;                 (* rtspServer.sdp *)
  audioTransceiver : option tid;       (* let audioTransceiver *)
  transceivers : list transceiver;
  setups : list flags;                 (* one pair of flags per doSetup call *)
  tracks : list subscription;
  timers : list timer;                 (* in the order they were armed *)
  closed : bool                        (* the peer session has closed *)
}.

Definition init : vars :=
  mkVars Deferred.Pending 0 None None None None [] [] [] [] false.

Definition set_peerConnection (d : Deferred.t pcid) (v : vars) : vars :=
  mkVars d (created v) (audioTrack v) (videoTrack v) (sdp v) (audioTransceiver v)
         (transceivers v) (setups v) (tracks v) (timers v) (closed v).
Definition set_created (n : nat) (v : vars) : vars :=
  mkVars (peerConnection v) n (audioTrack v) (videoTrack v) (sdp v) (audioTransceiver v)
         (transceivers v) (setups v) (tracks v) (timers v) (closed v).
Definition set_audioTrack (c : option string) (v : vars) : vars :=
  mkVars (peerConnection v) (created v) c (videoTrack v) (sdp v) (audioTransceiver v)
         (transceivers v) (setups v) (tracks v) (timers v) (closed v).
Definition set_videoTrack (c : option string) (v : vars) : vars :=
  mkVars (peerConnection v) (created v) (audioTrack v) c (sdp v) (audioTransceiver v)
         (transceivers v) (setups v) (tracks v) (timers v) (closed v).
Definition set_sdp (c : option string) (v : vars) : vars :=
  mkVars (peerConnection v) (created v) (audioTrack v) (videoTrack v) c (audioTransceiver v)
         (transceivers v) (setups v) (tracks v) (timers v) (closed v).
Definition set_audioTransceiver (t : option tid) (v : vars) : vars :=
  mkVars (peerConnection v) (created v) (audioTrack v) (videoTrack v) (sdp v) t
         (transceivers v) (setups v) (tracks v) (timers v) (closed v).
Definition set_transceivers (l : list transceiver) (v : vars) : vars :=
  mkVars (peerConnection v) (created v) (audioTrack v) (videoTrack v) (sdp v) (audioTransceiver v)
         l (setups v) (tracks v) (timers v) (closed v).
Definition set_setups (l : list flags) (v : vars) : vars :=
  mkVars (peerConnection v) (created v) (audioTrack v) (videoTrack v) (sdp v) (audioTransceiver v)
         (transceivers v) l (tracks v) (timers v) (closed v).
Definition set_tracks (l : list subscription) (v : vars) : vars :=
  mkVars (peerConnection v) (created v) (audioTrack v) (videoTrack v) (sdp v) (audioTransceiver v)
         (transceivers v) (setups v) l (timers v) (closed v).
Definition set_timers (l : list timer) (v : vars) : vars :=
  mkVars (peerConnection v) (created v) (audioTrack v) (videoTrack v) (sdp v) (audioTransceiver v)
         (transceivers v) (setups v) (tracks v) l (closed v).
Definition set_closed (b : bool) (v : vars) : vars :=
  mkVars (peerConnection v) (created v) (audioTrack v) (videoTrack v) (sdp v) (audioTransceiver v)
         (transceivers v) (setups v) (tracks v) (timers v) b.

(** [await peerConnection.promise]: a call that finds the Deferred pending
    is suspended there; what it goes on to do once a later call has resolved
    the Deferred is not part of its outcome here. *)
Definition await_peerConnection : M vars pcid :=
  v <- get ;;
  match peerConnection v with
  | Deferred.Resolved pc => ret pc
  | Deferred.Rejected e => throw e
  | Deferred.Pending => await Blocked
  end.

Definition ensurePeerConnection (s : setup) : M vars unit :=
  v <- get ;;
  if Deferred.finished (peerConnection v) then ret tt else
  let pc := created v in
  emit (NewPeerConnection pc) ;;
  modify (set_created (S pc)) ;;
  modify (fun v => set_peerConnection (Deferred.resolve pc (peerConnection v)) v).

(** [pc.addTransceiver(kind, ...)] followed by [onTrack.subscribe(...)]. *)
Definition addTransceiver (pc : pcid) (k : media_kind) (closure : nat) : M vars tid :=
  v <- get ;;
  let t := List.length (transceivers v) in
  emit (AddTransceiver pc k t) ;;
  modify (set_transceivers (transceivers v ++ [mkTransceiver t pc k closure])) ;;
  ret t.

Definition doSetup (s : setup) : M vars unit :=
  ensurePeerConnection s ;;
  v <- get ;;
  let closure := List.length (setups v) in
  modify (set_setups (setups v ++ [mkFlags false false])) ;;
  pc <- await_peerConnection ;;
  a <- addTransceiver pc Audio closure ;;
  modify (set_audioTransceiver (Some a)) ;;
  _ <- addTransceiver pc Video closure ;;
  ret tt.

(** *** Media relay and keyframe requester: the subscribers *)

Definition find_track (tr : trackid) (v : vars) : option subscription :=
  find (fun s => Nat.eqb (s_track s) tr) (tracks v).

Definition find_timer (tr : trackid) (v : vars) : option timer :=
  find (fun k => Nat.eqb (k_track k) tr) (timers v).

Definition channel (k : media_kind) (v : vars) : option string :=
  match k with Audio => audioTrack v | Video => videoTrack v end.

Definition got (k : media_kind) (f : flags) : bool :=
  match k with Audio => gotAudio f | Video => gotVideo f end.

Definition set_got (k : media_kind) (f : flags) : flags :=
  match k with
  | Audio => mkFlags true (gotVideo f)
  | Video => mkFlags (gotAudio f) true
  end.

Fixpoint update_nth {A} (n : nat) (f : A -> A) (l : list A) : list A :=
  match l, n with
  | [], _ => []
  | x :: l', 0 => f x :: l'
  | x :: l', S n' => x :: update_nth n' f l'
  end.

(** [if (!gotX) { gotX = true; console.log(...) }] *)
Definition first_packet (s : subscription) : M vars unit :=
  v <- get ;;
  match nth_error (setups v) (s_setup s) with
  | Some f =>
      if got (s_kind s) f then ret tt else
      modify (set_setups (update_nth (s_setup s) (set_got (s_kind s)) (setups v))) ;;
      match s_kind s with
      | Audio => emit (ConsoleLog "first audio packet")
      | Video => emit (ConsoleLog "first video packet") ;;
                 emit (ConsoleLog "video packet types")
      end
  | None => ret tt
  end.

Definition interval_ms : nat := 4000.

(** The [once] subscriber of a video track: create the interval and
    arrange for it to be cleared when the peer session closes. *)
Definition arm (tr : trackid) : M vars unit :=
  v <- get ;;
  match find_timer tr v with
  | Some _ => ret tt                                   (* once: already consumed *)
  | None =>
      emit (SetInterval tr interval_ms) ;;
      modify (set_timers (timers v ++ [mkTimer tr 0%N false])) ;;
      match peerConnection v with
      | Deferred.Resolved pc => emit (WaitClosed pc)
      | _ => ret tt
      end
  end.

(** The callback of the interval; the timer wheel does not run it once
    the interval is cleared. *)
Definition pictureLossInterval (tr : trackid) : M vars unit :=
  v <- get ;;
  match find_timer tr v with
  | Some k =>
      if cleared k then ret tt else
      emit (SendRtcpFir tr (firSequenceNumber k)) ;;
      modify (set_timers (map (fun k' =>
        if Nat.eqb (k_track k') tr
        then mkTimer tr (N.succ (firSequenceNumber k')) (cleared k')
        else k') (timers v))) ;;
      emit (SendRtcpPLI tr)
  | None => ret tt
  end.

(** [waitClosed(pc).then(() => clearInterval(pictureLossInterval))], once
    for every interval, in the order the intervals were created. *)
Fixpoint clearIntervals (ks : list timer) : trace :=
  match ks with
  | [] => []
  | k :: ks' =>
      (if cleared k then [] else [ClearInterval (k_track k)]) ++ clearIntervals ks'
  end.

Definition peer_closed : M vars unit :=
  v <- get ;;
  modify (set_closed true) ;;
  modify (set_timers (map (fun k => mkTimer (k_track k) (firSequenceNumber k) true) (timers v))) ;;
  emits (clearIntervals (timers v)).

Section Relay.

(** Packets as the peer-session transport hands them over, and their
    [serialize()] methods (werift). *)
Variables (RtpPacket RtcpPacket : Type).
Variable serializeRtp : RtpPacket -> bytes.
Variable serializeRtcp : RtcpPacket -> bytes.

(** What the peer session and the timer wheel deliver to the subscribers. *)
Inductive inbound : Type :=
| OnTrack (t : tid) (tr : trackid)              (* transceiver t announces track tr *)
| ReceiveRtp (tr : trackid) (rtp : RtpPacket)   (* track.onReceiveRtp *)
| ReceiveRtcp (tr : trackid) (rtcp : RtcpPacket) (* track.onReceiveRtcp *)
| IntervalFires (tr : trackid)                  (* the interval of track tr elapses *)
| PeerClosed.                                   (* waitClosed(pc) resolves *)

(** [transceiver.onTrack.subscribe(track => ...)]: the track's packets are
    subscribed to, with the kind and the flags of the transceiver it arrived
    on.  Tracks are told apart by their id and are taken to be announced
    once: the announcement of a track already subscribed is outside the
    model and changes nothing. *)
Definition onTrack (t : tid) (tr : trackid) : M vars unit :=
  v <- get ;;
  match find (fun x => Nat.eqb (t_id x) t) (transceivers v), find_track tr v with
  | Some x, None =>
      modify (set_tracks (tracks v ++ [mkSubscription tr (t_kind x) (of_setup x)]))
  | _, _ => ret tt
  end.

Definition onReceiveRtp (tr : trackid) (rtp : RtpPacket) : M vars unit :=
  v <- get ;;
  match find_track tr v with
  | Some s =>
      first_packet s ;;
      v' <- get ;;
      emit (SendTrack (channel (s_kind s) v') (serializeRtp rtp) false) ;;
      match s_kind s with
      | Video => arm tr
      | Audio => ret tt
      end
  | None => ret tt
  end.

Definition onReceiveRtcp (tr : trackid) (rtcp : RtcpPacket) : M vars unit :=
  v <- get ;;
  match find_track tr v with
  | Some s => emit (SendTrack (channel (s_kind s) v) (serializeRtcp rtcp) true)
  | None => ret tt
  end.

(** One event handed to the subscribers.  The interval callback is run by
    the timer wheel, which skips a cleared interval (see
    [pictureLossInterval]); the promise of [waitClosed(pc)] settles once, so
    its callbacks run once. *)
Definition deliver (i : inbound) : M vars unit :=
  v <- get ;;
  match i with
  | OnTrack t tr => onTrack t tr
  | ReceiveRtp tr rtp => onReceiveRtp tr rtp
  | ReceiveRtcp tr rtcp => onReceiveRtcp tr rtcp
  | IntervalFires tr => pictureLossInterval tr
  | PeerClosed => if closed v then ret tt else peer_closed
  end.

Fixpoint deliver_all (l : list inbound) : M vars unit :=
  match l with
  | [] => ret tt
  | i :: l' => deliver i ;; deliver_all l'
  end.

(** What the sink is owed for one inbound event: for a packet on a track
    with subscribers, its serialized bytes on the channel of the track's
    kind, tagged as data (RTP) or as feedback (RTCP). *)
Definition forwarded (v : vars) (i : inbound) : list (option string * bytes * bool) :=
  match i with
  | ReceiveRtp tr rtp =>
      match find_track tr v with
      | Some s => [(channel (s_kind s) v, serializeRtp rtp, false)]
      | None => []
      end
  | ReceiveRtcp tr rtcp =>
      match find_track tr v with
      | Some s => [(channel (s_kind s) v, serializeRtcp rtcp, true)]
      | None => []
      end
  | _ => []
  end.

Definition is_packet (i : inbound) : bool :=
  match i with ReceiveRtp _ _ | ReceiveRtcp _ _ => true | _ => false end.

Definition is_close (i : inbound) : bool :=
  match i with PeerClosed => true | _ => false end.

(** Whether the event is a firing of the interval of track [tr]. *)
Definition fires (tr : trackid) (i : inbound) : bool :=
  match i with IntervalFires tr' => Nat.eqb tr' tr | _ => false end.

(** Whether the event announces track [tr], on whichever transceiver. *)
Definition announces (tr : trackid) (i : inbound) : bool :=
  match i with OnTrack _ tr' => Nat.eqb tr' tr | _ => false end.

End Relay.

Arguments OnTrack {RtpPacket RtcpPacket} t tr.
Arguments ReceiveRtp {RtpPacket RtcpPacket} tr rtp.
Arguments ReceiveRtcp {RtpPacket RtcpPacket} tr rtcp.
Arguments IntervalFires {RtpPacket RtcpPacket} tr.
Arguments PeerClosed {RtpPacket RtcpPacket}.
Arguments onReceiveRtp {RtpPacket} serializeRtp tr rtp.
Arguments onReceiveRtcp {RtcpPacket} serializeRtcp tr rtcp.
Arguments deliver {RtpPacket RtcpPacket} serializeRtp serializeRtcp i.
Arguments deliver_all {RtpPacket RtcpPacket} serializeRtp serializeRtcp l.
Arguments forwarded {RtpPacket RtcpPacket} serializeRtp serializeRtcp v i.
Arguments is_packet {RtpPacket RtcpPacket} i.
Arguments is_close {RtpPacket RtcpPacket} i.
Arguments fires {RtpPacket RtcpPacket} tr i.
Arguments announces {RtpPacket RtcpPacket} tr i.

(** The keyframe requests of [n] successive firings for track [tr], the
    first carrying sequence number [from]. *)
Fixpoint requests (tr : trackid) (from : N) (n : nat) : trace :=
  match n with
  | 0 => []
  | S n' => SendRtcpFir tr from :: SendRtcpPLI tr :: requests tr (N.succ from) n'
  end.

(** *** Sink setup and the signaling session *)

Inductive gathering_state : Type :=
| GatheringComplete       (* pc.iceGatheringState === 'complete' at the call *)
| GatheringCompletes      (* 'complete' is announced later *)
| GatheringNever.         (* 'complete' is never announced *)

(** What the peer connection and the sink answer during one call of a
    session method. *)
Record world : Type := mkWorld {
  gathering : gathering_state;
  answer : outcome description;            (* await pc.createAnswer() *)
  offer : outcome description;             (* await pc.createOffer(), first call *)
  final_offer : outcome description;       (* await pc.createOffer(), after gathering *)
  applied : outcome unit;                  (* await pc.setLocalDescription(...) *)
  localDescription : option description;   (* pc.localDescription after gathering *)
  playback : outcome unit;                 (* await rtspServer.handlePlayback() *)
  remote_applied : outcome unit;           (* await pc.setRemoteDescription(...) *)
  candidate_added : outcome unit           (* await pc.addIceCandidate(...) *)
}.

Definition is_answer (t : sdp_type) : bool :=
  match t with Answer => true | _ => false end.

Definition is_offer (t : sdp_type) : bool :=
  match t with Offer => true | _ => false end.

(** [await gatheringPromise] *)
Definition await_gathering (w : world) : M vars unit :=
  match gathering w with
  | GatheringNever => await Blocked
  | _ => ret tt
  end.

Section Signaling.

(** createSdpInput and parseSdp of @scrypted/common/src/sdp-utils and
    createRawResponse of ./werift-util are not among the sources. *)
Variable createSdpInput : nat -> nat -> string -> string.
Variable parseSdp : string -> list msection.
Variable createRawResponse : description -> description.

(** [msection.type === kind] *)
Definition of_kind (kind : string) (m : msection) : bool := String.eqb (mtype m) kind.

(** [msections.find(msection => msection.type === kind).control] *)
Definition control_of (kind : string) (msections : list msection) : M vars (option string) :=
  match find (of_kind kind) msections with
  | Some m => ret (control m)
  | None => throw (TypeError "Cannot read properties of undefined (reading 'control')")
  end.

Definition handleRtspSetup (w : world) (d : description) : M vars unit :=
  if negb (is_answer (dtype d)) then throw (Error "rtsp setup needs answer sdp") else
  let input := createSdpInput 0 0 (dsdp d) in
  modify (set_sdp (Some input)) ;;
  emit (SetSdp input) ;;
  let parsedSdp := parseSdp input in
  a <- control_of "audio" parsedSdp ;;
  modify (set_audioTrack a) ;;
  v <- control_of "video" parsedSdp ;;
  modify (set_videoTrack v) ;;
  emit HandlePlayback ;;
  await (playback w) ;;
  emit (ConsoleLog "rtsp server playback started").

Definition when {S} (b : bool) (m : M S unit) : M S unit :=
  if b then m else ret tt.

Definition createLocalDescription (w : world) (type : sdp_type) (s : setup)
    (sendIceCandidate : bool) : M vars description :=
  when (is_offer type) (detached (doSetup s)) ;;
  pc <- await_peerConnection ;;
  when (datachannel s) (emit (CreateDataChannel pc)) ;;
  (* const gatheringPromise = ... *)
  match gathering w with
  | GatheringComplete => ret tt
  | _ => emit (SubscribeGathering pc)
  end ;;
  when sendIceCandidate (emit (SetOnIceCandidate pc)) ;;
  if is_answer type then
    emit (CreateAnswer pc) ;;
    answer <- await (answer w) ;;
    emit (ConsoleLog "createLocalDescription") ;;
    let r := createRawResponse answer in
    handleRtspSetup w r ;;
    emit (SetLocalDescription pc answer) ;;
    if sendIceCandidate then ret r else
    await (applied w) ;;
    await_gathering w ;;
    let answer := match localDescription w with Some d => d | None => answer end in
    ret (createRawResponse answer)
  else
    emit (CreateOffer pc) ;;
    offer <- await (offer w) ;;
    emit (ConsoleLog "createLocalDescription") ;;
    emit (SetLocalDescription pc offer) ;;
    if sendIceCandidate then ret (createRawResponse offer) else
    await (applied w) ;;
    await_gathering w ;;
    emit (CreateOffer pc) ;;
    offer <- await (final_offer w) ;;
    ret (createRawResponse offer).

Definition setRemoteDescription (w : world) (d : description) (s : setup) : M vars unit :=
  emit (ConsoleLog "setRemoteDescription") ;;
  (if is_offer (dtype d) then detached (doSetup s) else handleRtspSetup w d) ;;
  pc <- await_peerConnection ;;
  emit (SetRemoteDescription pc d) ;;
  await (remote_applied w).

Definition addIceCandidate (w : world) : M vars unit :=
  emit (ConsoleLog "addIceCandidate") ;;
  pc <- await_peerConnection ;;
  emit (AddIceCandidate pc) ;;
  await (candidate_added w).

(** The calls the signaling channel makes on the session, one after the
    other. *)
Inductive call : Type :=
| CreateLocalDescription (w : world) (type : sdp_type) (s : setup) (sendIceCandidate : bool)
| SetRemoteDescriptionCall (w : world) (d : description) (s : setup)
| AddIceCandidateCall (w : world).

Definition run_call (c : call) : M vars unit :=
  match c with
  | CreateLocalDescription w type s cb => detached (createLocalDescription w type s cb)
  | SetRemoteDescriptionCall w d s => detached (setRemoteDescription w d s)
  | AddIceCandidateCall w => detached (addIceCandidate w)
  end.

Fixpoint run_calls (cs : list call) : M vars unit :=
  match cs with
  | [] => ret tt
  | c :: cs' => run_call c ;; run_calls cs'
  end.

End Signaling.

(** The peer connections a trace constructs, and the peer connections its
    calls are made on. *)
Definition constructed (e : effect) : list pcid :=
  match e with NewPeerConnection pc => [pc] | _ => [] end.

Definition target (e : effect) : list pcid :=
  match e with
  | AddTransceiver pc _ _ | CreateDataChannel pc | SubscribeGathering pc
  | SetOnIceCandidate pc | CreateAnswer pc | CreateOffer pc
  | SetLocalDescription pc _ | SetRemoteDescription pc _ | AddIceCandidate pc => [pc]
  | _ => []
  end.

(** The packets a trace hands to the sink. *)
Definition sent (e : effect) : list (option string * bytes * bool) :=
  match e with SendTrack c d f => [(c, d, f)] | _ => [] end.

(** The keyframe requests a trace sends for track [tr]. *)
Definition feedback (tr : trackid) (e : effect) : list effect :=
  match e with
  | SendRtcpFir tr' _ | SendRtcpPLI tr' => if Nat.eqb tr' tr then [e] else []
  | _ => []
  end.

(** The calls [createLocalDescription] makes on peer connection [pc]
    for an answer before it hands the answer to sink setup. *)
Definition answer_prelude (w : world) (s : setup) (sendIceCandidate : bool) (pc : pcid) : trace :=
  (if datachannel s then [CreateDataChannel pc] else [])
  ++ match gathering w with
     | GatheringComplete => []
     | _ => [SubscribeGathering pc]
     end
  ++ (if sendIceCandidate then [SetOnIceCandidate pc] else [])
  ++ [CreateAnswer pc; ConsoleLog "createLocalDescription"].

(** Nothing for the sink, no keyframe request. *)
Definition quiet (t : trace) : Prop :=
  flat_map sent t = [] /\ forall x, flat_map (feedback x) t = [].

(** Between [v] and [v'], along trace [t]: every call on a peer connection
    is made on the one the Deferred holds at the end; a settled Deferred is
    left alone and no peer connection is constructed; a pending Deferred is
    either still pending, or resolved with the only peer connection
    constructed. *)
Definition same_instance (v : vars) (t : trace) (v' : vars) : Prop :=
  (forall pc, In pc (flat_map target t) -> peerConnection v' = Deferred.Resolved pc) /\
  (Deferred.finished (peerConnection v) = true ->
     peerConnection v' = peerConnection v /\ flat_map constructed t = []) /\
  (peerConnection v = Deferred.Pending ->
     (peerConnection v' = Deferred.Pending /\ flat_map constructed t = []) \/
     (exists pc, peerConnection v' = Deferred.Resolved pc /\ flat_map constructed t = [pc])).

(** The calls [createLocalDescription] makes on peer connection [pc]
    for an offer, after [doSetup], up to the first [createOffer]. *)
Definition offer_prelude (w : world) (s : setup) (sendIceCandidate : bool) (pc : pcid) : trace :=
  (if datachannel s then [CreateDataChannel pc] else [])
  ++ match gathering w with
     | GatheringComplete => []
     | _ => [SubscribeGathering pc]
     end
  ++ (if sendIceCandidate then [SetOnIceCandidate pc] else [])
  ++ [CreateOffer pc; ConsoleLog "createLocalDescription"].

(** What [doSetup] does on a session whose Deferred is pending or holds
    a peer connection: the peer connection it works on, its calls, and the
    state it leaves. *)
Definition setup_pc (v : vars) : pcid :=
  match peerConnection v with
  | Deferred.Resolved pc => pc
  | _ => created v
  end.

Definition setup_trace (v : vars) : trace :=
  (match peerConnection v with
   | Deferred.Pending => [NewPeerConnection (created v)]
   | _ => []
   end)
  ++ [AddTransceiver (setup_pc v) Audio (List.length (transceivers v));
      AddTransceiver (setup_pc v) Video (S (List.length (transceivers v)))].

Definition setup_state (v : vars) : vars :=
  mkVars (Deferred.Resolved (setup_pc v))
         (match peerConnection v with Deferred.Pending => S (created v) | _ => created v end)
         (audioTrack v) (videoTrack v) (sdp v)
         (Some (List.length (transceivers v)))
         (transceivers v
          ++ [mkTransceiver (List.length (transceivers v)) (setup_pc v) Audio
                            (List.length (setups v));
              mkTransceiver (S (List.length (transceivers v))) (setup_pc v) Video
                            (List.length (setups v))])
         (setups v ++ [mkFlags false false])
         (tracks v) (timers v) (closed v).

(** The subscriptions made for track [tr] so far. *)
Definition subscriptions (tr : trackid) (v : vars) : list subscription :=
  filter (fun s => Nat.eqb (s_track s) tr) (tracks v).

(** Whether the [once] subscriber of the track has already run. *)
Definition timer_exists (tr : trackid) (v : vars) : bool :=
  match find_timer tr v with Some _ => true | None => false end.

(** The intervals a trace creates for track [tr]. *)
Definition interval_created (tr : trackid) (e : effect) : bool :=
  match e with SetInterval tr' _ => Nat.eqb tr' tr | _ => false end.

Definition intervals_created (tr : trackid) (t : trace) : nat :=
  List.length (filter (interval_created tr) t).

(** The calls a trace makes on the sink. *)
Definition on_sink (e : effect) : bool :=
  match e with SetSdp _ | HandlePlayback | SendTrack _ _ _ => true | _ => false end.

End Session.

(** ** The bridge: promises, teardown and the start chain *)

Module Lifecycle.

(** Where the async function [start] is suspended. *)
Inductive start_point : Type :=
| AwaitClient            (* const client = await clientPromise *)
| AwaitSignaling         (* await channel.startRTCSignalingSession(session) *)
| AwaitPeerConnection    (* const pc = await peerConnection.promise *)
| AwaitConnected         (* await waitConnected(pc) *)
| Done                   (* intercom.resolve(ic) has run *)
| Failed.                (* the promise of start is rejected *)

(** Callbacks attached with [then] after the bridge was set up. *)
Inductive reaction : Type :=
| Destroy                (* clientPromise.then(client => client.destroy()) *)
| EndTheSession          (* sessionControl.promise.then(sc => sc.endSession()) *)
| ClosePeer              (* peerConnection.promise.then(pc => pc.close()) *)
| StopTheIntercom        (* intercom.promise.then(intercom => intercom.stopIntercom()) *)
| ResumeStart.           (* the rest of start after await peerConnection.promise *)

Inductive promise : Type :=
| ClientPromise | SessionControlPromise | PeerConnectionPromise | IntercomPromise.

Definition awaited (r : reaction) : promise :=
  match r with
  | Destroy => ClientPromise
  | EndTheSession => SessionControlPromise
  | ClosePeer | ResumeStart => PeerConnectionPromise
  | StopTheIntercom => IntercomPromise
  end.

Definition same_promise (p q : promise) : bool :=
  match p, q with
  | ClientPromise, ClientPromise | SessionControlPromise, SessionControlPromise
  | PeerConnectionPromise, PeerConnectionPromise | IntercomPromise, IntercomPromise => true
  | _, _ => false
  end.

Record vars : Type := mkVars {
  clientPromise : Deferred.t unit;     (* of listenZeroSingleClient() *)
  sessionControl : Deferred.t unit;    (* new Deferred<RTCSessionControl>() *)
  session : Session.vars;              (* peerConnection and the closures of start *)
  intercom : Deferred.t unit;          (* new Deferred<Intercom>() *)
  pcClose : Deferred.t unit;           (* peerConnection.promise.then(pc => waitClosed(pc)) *)
  start : start_point;
  registered : list reaction;          (* waiting on promises still pending, oldest first *)
  microtasks : list reaction;          (* queued to run, oldest first *)
  socket_closed : bool;                (* the sink socket has emitted 'close' *)
  ic : Intercom.vars                   (* the variables of the intercom object *)
}.

Definition init : vars :=
  mkVars Deferred.Pending Deferred.Pending Session.init Deferred.Pending Deferred.Pending
         AwaitClient [] [] false (Intercom.init false).

Definition set_clientPromise (x : Deferred.t unit) (v : vars) : vars :=
  mkVars x (sessionControl v) (session v) (intercom v) (pcClose v) (start v) (registered v) (microtasks v) (socket_closed v) (ic v).
Definition set_sessionControl (x : Deferred.t unit) (v : vars) : vars :=
  mkVars (clientPromise v) x (session v) (intercom v) (pcClose v) (start v) (registered v) (microtasks v) (socket_closed v) (ic v).
Definition set_session (x : Session.vars) (v : vars) : vars :=
  mkVars (clientPromise v) (sessionControl v) x (intercom v) (pcClose v) (start v) (registered v) (microtasks v) (socket_closed v) (ic v).
Definition set_intercom (x : Deferred.t unit) (v : vars) : vars :=
  mkVars (clientPromise v) (sessionControl v) (session v) x (pcClose v) (start v) (registered v) (microtasks v) (socket_closed v) (ic v).
Definition set_pcClose (x : Deferred.t unit) (v : vars) : vars :=
  mkVars (clientPromise v) (sessionControl v) (session v) (intercom v) x (start v) (registered v) (microtasks v) (socket_closed v) (ic v).
Definition set_start (x : start_point) (v : vars) : vars :=
  mkVars (clientPromise v) (sessionControl v) (session v) (intercom v) (pcClose v) x (registered v) (microtasks v) (socket_closed v) (ic v).
Definition set_registered (x : list reaction) (v : vars) : vars :=
  mkVars (clientPromise v) (sessionControl v) (session v) (intercom v) (pcClose v) (start v) x (microtasks v) (socket_closed v) (ic v).
Definition set_microtasks (x : list reaction) (v : vars) : vars :=
  mkVars (clientPromise v) (sessionControl v) (session v) (intercom v) (pcClose v) (start v) (registered v) x (socket_closed v) (ic v).
Definition set_socket_closed (x : bool) (v : vars) : vars :=
  mkVars (clientPromise v) (sessionControl v) (session v) (intercom v) (pcClose v) (start v) (registered v) (microtasks v) x (ic v).
Definition set_ic (x : Intercom.vars) (v : vars) : vars :=
  mkVars (clientPromise v) (sessionControl v) (session v) (intercom v) (pcClose v) (start v) (registered v) (microtasks v) (socket_closed v) x.

Definition peerConnection (v : vars) : Deferred.t pcid :=
  Session.peerConnection (session v).

Definition set_peerConnection (d : Deferred.t pcid) (v : vars) : vars :=
  set_session (Session.set_peerConnection d (session v)) v.

Inductive status : Type := StillPending | Fulfilled | HasRejected.

Definition status_of {T} (d : Deferred.t T) : status :=
  match d with
  | Deferred.Pending => StillPending
  | Deferred.Resolved _ => Fulfilled
  | Deferred.Rejected _ => HasRejected
  end.

Definition promise_status (p : promise) (v : vars) : status :=
  match p with
  | ClientPromise => status_of (clientPromise v)
  | SessionControlPromise => status_of (sessionControl v)
  | PeerConnectionPromise => status_of (peerConnection v)
  | IntercomPromise => status_of (intercom v)
  end.

(** [promise.then(callback)]: queued at once when the promise is
    fulfilled, kept until settlement when it is pending, skipped when it
    is rejected. *)
Definition then_ (r : reaction) : M vars unit :=
  v <- get ;;
  match promise_status (awaited r) v with
  | Fulfilled => modify (set_microtasks (microtasks v ++ [r]))
  | StillPending => modify (set_registered (registered v ++ [r]))
  | HasRejected => ret tt
  end.

Definition cleanup : M vars unit :=
  emit (ConsoleLog "webrtc/rtsp cleaning up") ;;
  then_ Destroy ;;
  then_ EndTheSession ;;
  then_ ClosePeer ;;
  then_ StopTheIntercom.

Definition run_reaction (r : reaction) : M vars unit :=
  v <- get ;;
  match r with
  | Destroy => emit ClientDestroy
  | EndTheSession => emit EndSession
  | ClosePeer =>
      match peerConnection v with
      | Deferred.Resolved pc => emit (PcClose pc)
      | _ => ret tt
      end
  | StopTheIntercom => zoom ic set_ic (detached Intercom.stopIntercom)
  | ResumeStart =>
      match start v, peerConnection v with
      | AwaitPeerConnection, Deferred.Resolved pc =>
          emit (WaitConnected pc) ;;
          modify (set_start AwaitConnected)
      | _, _ => ret tt
      end
  end.

Fixpoint run_reactions (rs : list reaction) : M vars unit :=
  match rs with
  | [] => ret tt
  | r :: rs' => run_reaction r ;; run_reactions rs'
  end.

(** Run the microtask queue; no reaction queues another. *)
Definition flush : M vars unit :=
  v <- get ;;
  modify (set_microtasks []) ;;
  run_reactions (microtasks v).

Definition waits_on (p : promise) (r : reaction) : bool := same_promise (awaited r) p.

(** Settlement of [p]: the callbacks registered on it are queued (when it
    is fulfilled) or skipped (when it is rejected). *)
Definition settled (p : promise) : M vars unit :=
  v <- get ;;
  modify (set_registered (filter (fun r => negb (waits_on p r)) (registered v))) ;;
  match promise_status p v with
  | Fulfilled => modify (fun v' => set_microtasks (microtasks v' ++ filter (waits_on p) (registered v)) v')
  | _ => ret tt
  end.

(** The callback of [start.catch]. *)
Definition start_catch (e : error) : M vars unit :=
  emit (ConsoleError "session start failed") ;;
  modify (fun v => set_sessionControl (Deferred.reject e (sessionControl v)) v) ;;
  modify (fun v => set_peerConnection (Deferred.reject e (peerConnection v)) v) ;;
  modify (fun v => set_intercom (Deferred.reject e (intercom v)) v).

(** The callback of [peerConnection.promise.catch]. *)
Definition peerConnection_catch (e : error) : M vars unit :=
  emit (ConsoleError "failed to create webrtc signaling session") ;;
  cleanup.

(** [start] rejects with [e]: its catch callback runs, then the
    callbacks of the promises that callback has just rejected, in the order
    they were attached: on peerConnection.promise first the [then] that
    feeds pcClose (which passes the rejection on, so that
    [pcClose.finally(cleanup)] is queued), then the catch callback. *)
Definition start_rejects (e : error) : M vars unit :=
  v <- get ;;
  modify (set_start Failed) ;;
  start_catch e ;;
  settled SessionControlPromise ;;
  settled PeerConnectionPromise ;;
  settled IntercomPromise ;;
  (if Deferred.is_pending (peerConnection v) then
     modify (fun v' => set_pcClose (Deferred.reject e (pcClose v')) v') ;;
     peerConnection_catch e ;;
     (if Deferred.is_pending (pcClose v) then cleanup else ret tt)
   else ret tt) ;;
  flush.

(** What the environment does to the bridge. *)
Inductive event : Type :=
| ClientConnects                       (* clientPromise fulfils *)
| ClientFails (e : error)              (* clientPromise rejects *)
| SocketCloses                         (* the sink socket emits 'close' *)
| SignalingStarts                      (* startRTCSignalingSession fulfils *)
| SignalingFails (e : error)           (* startRTCSignalingSession rejects *)
| SetupRequested (s : Session.setup)   (* a session method reaches ensurePeerConnection *)
| Connects (two_way_audio : bool)      (* waitConnected(pc) fulfils *)
| ConnectFails (e : error)             (* waitConnected(pc) rejects *)
| PeerCloses                           (* waitClosed(pc) fulfils *)
| IntercomCall (o : Intercom.op).      (* a holder of the intercom calls it *)

(** The callbacks on clientPromise in the order attached: the one that
    attaches [cleanup] to the socket's 'close', then the rest of [start]. *)
Definition client_connects : M vars unit :=
  modify (set_clientPromise (Deferred.Resolved tt)) ;;
  (* socket.on('close', cleanup) is attached; start goes on to
     client.on('close', () => closeQuiet(udp)) and hands the session to the channel *)
  modify (set_start AwaitSignaling) ;;
  emit StartSignalingSession ;;
  settled ClientPromise ;;
  flush.

(** [await clientPromise] throws inside [start]. *)
Definition client_fails (e : error) : M vars unit :=
  modify (set_clientPromise (Deferred.Rejected e)) ;;
  settled ClientPromise ;;
  start_rejects e.

(** The listeners of 'close' on the sink socket, in the order attached. *)
Definition socket_closes : M vars unit :=
  modify (set_socket_closed true) ;;
  cleanup ;;
  emit CloseUdp ;;
  flush.

(** [start] resumes: [sessionControl.resolve(sc)] queues the callbacks
    waiting on session control, then [await peerConnection.promise] queues
    (or registers) the rest of [start] behind them. *)
Definition signaling_starts : M vars unit :=
  modify (fun v => set_sessionControl (Deferred.resolve tt (sessionControl v)) v) ;;
  settled SessionControlPromise ;;
  modify (set_start AwaitPeerConnection) ;;
  v <- get ;;
  match peerConnection v with
  | Deferred.Rejected e => start_rejects e
  | _ => then_ ResumeStart ;; flush
  end.

(** [ensurePeerConnection] resolves the Deferred: first the [then] that
    feeds pcClose runs (the catch callback is skipped), then the callbacks
    registered since, oldest first. *)
Definition setup_requested (s : Session.setup) : M vars unit :=
  v <- get ;;
  zoom session set_session (Session.ensurePeerConnection s) ;;
  v' <- get ;;
  match peerConnection v, peerConnection v' with
  | Deferred.Pending, Deferred.Resolved pc =>
      emit (WaitClosed pc) ;;           (* pc => waitClosed(pc), feeding pcClose *)
      settled PeerConnectionPromise ;;
      flush
  | _, _ => ret tt
  end.

(** [start] resumes after [waitConnected]: it builds [ic] and resolves
    the intercom Deferred. *)
Definition connects (two_way_audio : bool) : M vars unit :=
  modify (set_ic (Intercom.init two_way_audio)) ;;
  modify (fun v => set_intercom (Deferred.resolve tt (intercom v)) v) ;;
  modify (set_start Done) ;;
  settled IntercomPromise ;;
  flush.

(** [pcClose.finally(cleanup)] *)
Definition peer_closes : M vars unit :=
  modify (set_pcClose (Deferred.Resolved tt)) ;;
  cleanup ;;
  flush.

Definition is_start (p : start_point) (v : vars) : bool :=
  match p, start v with
  | AwaitClient, AwaitClient | AwaitSignaling, AwaitSignaling
  | AwaitPeerConnection, AwaitPeerConnection | AwaitConnected, AwaitConnected
  | Done, Done | Failed, Failed => true
  | _, _ => false
  end.

Definition is_fulfilled {T} (d : Deferred.t T) : bool :=
  match d with Deferred.Resolved _ => true | _ => false end.

(** An event the bridge is in no state to receive changes nothing. *)
Definition step (ev : event) : M vars unit :=
  v <- get ;;
  match ev with
  | ClientConnects =>
      if Deferred.is_pending (clientPromise v) then client_connects else ret tt
  | ClientFails e =>
      if Deferred.is_pending (clientPromise v) then client_fails e else ret tt
  | SocketCloses =>
      if is_fulfilled (clientPromise v) && negb (socket_closed v)
      then socket_closes else ret tt
  | SignalingStarts =>
      if is_start AwaitSignaling v then signaling_starts else ret tt
  | SignalingFails e =>
      if is_start AwaitSignaling v then start_rejects e else ret tt
  | SetupRequested s =>
      if is_start AwaitClient v then ret tt else setup_requested s
  | Connects two_way_audio =>
      if is_start AwaitConnected v then connects two_way_audio else ret tt
  | ConnectFails e =>
      if is_start AwaitConnected v then start_rejects e else ret tt
  | PeerCloses =>
      if is_fulfilled (peerConnection v) && Deferred.is_pending (pcClose v)
      then peer_closes else ret tt
  | IntercomCall o =>
      if is_fulfilled (intercom v)
      then zoom ic set_ic (detached (Intercom.run_op o)) else ret tt
  end.

Fixpoint run (evs : list event) : M vars unit :=
  match evs with
  | [] => ret tt
  | ev :: evs' => step ev ;; run evs'
  end.

(** How often the body of [cleanup] has run in a trace. *)
Definition is_cleanup (e : effect) : bool :=
  match e with
  | ConsoleLog m => String.eqb m "webrtc/rtsp cleaning up"
  | _ => false
  end.

Definition cleanup_runs (tr : trace) : nat := List.length (filter is_cleanup tr).

(** The triggers of [cleanup] that have gone off: the 'close' listener of
    the socket, [pcClose.finally] and the catch callback of
    peerConnection.promise. *)
Definition triggers (v : vars) : nat :=
  Nat.b2n (socket_closed v) + Nat.b2n (Deferred.finished (pcClose v))
  + Nat.b2n (Deferred.is_rejected (peerConnection v)).

(** The promises of the bridge and the state of the sink socket. *)
Definition promises (v : vars) :=
  (clientPromise v, sessionControl v, peerConnection v, intercom v, pcClose v,
   socket_closed v).

(** The three Deferred coordination values. *)
Definition coordination (v : vars) :=
  (sessionControl v, peerConnection v, intercom v).

Definition all_pending (v : vars) : bool :=
  Deferred.is_pending (sessionControl v) && Deferred.is_pending (peerConnection v)
  && Deferred.is_pending (intercom v).

Definition is_effect (e : effect) (x : effect) : bool :=
  match e, x with
  | ClientDestroy, ClientDestroy | EndSession, EndSession => true
  | PcClose p, PcClose q => Nat.eqb p q
  | _, _ => false
  end.

Definition occurrences (e : effect) (tr : trace) : nat :=
  List.length (filter (is_effect e) tr).

(** From [v] to [v']: no promise settled, the session and the intercom
    variables untouched, no registered or queued callback lost. *)
Definition keeps (v v' : vars) : Prop :=
  promises v' = promises v /\ session v' = session v /\ ic v' = ic v /\
  incl (registered v) (registered v') /\ incl (microtasks v) (microtasks v').

(** The call a callback makes when it runs. *)
Definition release (r : reaction) (v : vars) : list effect :=
  match r with
  | Destroy => [ClientDestroy]
  | EndTheSession => [EndSession]
  | ClosePeer =>
      match peerConnection v with
      | Deferred.Resolved pc => [PcClose pc]
      | _ => []
      end
  | StopTheIntercom => [SetPlayback false false]
  | ResumeStart => []
  end.

(** The callbacks [cleanup] attaches, and the four values they wait on. *)
Definition callbacks : list reaction := [Destroy; EndTheSession; ClosePeer; StopTheIntercom].

Definition awaitables (v : vars) :=
  (clientPromise v, sessionControl v, peerConnection v, intercom v).

(** Callback [r] is accounted for in state [v] after trace [t]: it is
    registered on its promise while that is pending; once the promise is
    fulfilled it is queued or has made its call in [t]; it is dropped when
    the promise is rejected. *)
Definition accounted (r : reaction) (v : vars) (t : trace) : Prop :=
  match promise_status (awaited r) v with
  | StillPending => In r (registered v)
  | Fulfilled => In r (microtasks v) \/ incl (release r v) t
  | HasRejected => True
  end.

(** The trace from the first run of [cleanup] on. *)
Fixpoint since_cleanup (tr : trace) : trace :=
  match tr with
  | [] => []
  | e :: tr' => if is_cleanup e then e :: tr' else since_cleanup tr'
  end.

(** Between the events of the environment the microtask queue is empty;
    once [cleanup] has run, each of its callbacks is accounted for in what
    the bridge has done since. *)
Definition tidy (v : vars) (t : trace) : Prop :=
  microtasks v = [] /\
  (0 < cleanup_runs t -> forall r, In r callbacks -> accounted r v (since_cleanup t)).

(** What one event does to the callbacks of [cleanup], from state [v]:
    the handler returns with the queue empty; a callback accounted for
    before is accounted for after; and when the handler ran [cleanup], every
    callback is accounted for in what it did from then on. *)
Definition carries (v : vars) (o : outcome unit) (v' : vars) (t : trace) : Prop :=
  o = Returned tt /\ microtasks v' = [] /\
  (forall r s, In r callbacks -> accounted r v s -> accounted r v' (s ++ t)) /\
  (0 < cleanup_runs t -> forall r, In r callbacks -> accounted r v' (since_cleanup t)).

End Lifecycle.


(** ** Sample collaborators and inputs, for the examples below *)

Module Sample.

(** Stand-ins for the functions of sdp-utils and werift-util: the sink
    input is the description unchanged, a description is parsed by name,
    the raw response copies type and text. *)
Definition createSdpInput (audioPort videoPort : nat) (sdp : string) : string := sdp.

Definition parseSdp (sdp : string) : list Session.msection :=
  if String.eqb sdp "audio+video" then
    [Session.mkMsection "audio" (Some "trackID=0");
     Session.mkMsection "video" (Some "trackID=1")]
  else if String.eqb sdp "audio" then
    [Session.mkMsection "audio" (Some "trackID=0")]
  else [].

Definition createRawResponse (d : description) : description :=
  mkDescription (dtype d) (dsdp d).

(** Packets given by their bytes. *)
Definition serialize (packet : bytes) : bytes := packet.

Definition setup : Session.setup := Session.mkSetup 0 false.

Definition answer : description := mkDescription Answer "audio+video".
Definition final_answer : description := mkDescription Answer "audio+video, candidates".
Definition audio_only : description := mkDescription Answer "audio".
Definition remote_offer : description := mkDescription Offer "audio+video".

Definition world : Session.world :=
  Session.mkWorld Session.GatheringCompletes (Returned answer) (Returned remote_offer)
    (Returned remote_offer) (Returned tt) (Some final_answer) (Returned tt) (Returned tt)
    (Returned tt).

(** The session after [doSetup], with sink setup done on [answer] and one
    audio track (10) and one video track (20) announced. *)
Definition offered : Session.vars := state_of (Session.doSetup setup Session.init).

Definition negotiated : Session.vars :=
  state_of (Session.handleRtspSetup createSdpInput parseSdp world answer offered).

Definition streaming : Session.vars :=
  state_of (Session.deliver_all serialize serialize
              [Session.OnTrack 0 10; Session.OnTrack 1 20] negotiated).

Definition packet (n : nat) : bytes := repeat Byte.x00 n.

Definition pranswer : description := mkDescription Pranswer "audio+video".

(** A session whose start chain has failed: the Deferred is rejected. *)
Definition failed : Session.vars :=
  Session.set_peerConnection (Deferred.Rejected (Failure 1)) Session.init.

(** The bridge right after the sink client connected, and the bridge
    fully up with the intercom in use. *)
Definition client_connected : Lifecycle.vars :=
  state_of (Lifecycle.run [Lifecycle.ClientConnects] Lifecycle.init).

Definition connecting : Lifecycle.vars :=
  state_of (Lifecycle.run
    [Lifecycle.ClientConnects; Lifecycle.SignalingStarts; Lifecycle.SetupRequested setup]
    Lifecycle.init).

Definition talking : Lifecycle.vars :=
  state_of (Lifecycle.run
    [Lifecycle.ClientConnects; Lifecycle.SignalingStarts;
     Lifecycle.SetupRequested setup; Lifecycle.Connects true;
     Lifecycle.IntercomCall
       (Intercom.StartIntercom (Intercom.mkWorld true (Returned 7) (Returned tt)) 3)]
    Lifecycle.init).

End Sample.

(** * Properties *)

(** ** General facts about traces *)

Lemma filter_length_app {A} (f : A -> bool) (l1 l2 : list A) :
  List.length (filter f (l1 ++ l2)) = List.length (filter f l1) + List.length (filter f l2).
Proof.
  rewrite filter_app, length_app. reflexivity.
Qed.

(** ** Reasoning about computations *)

Lemma post_bind {S A B} (m : M S A) (k : A -> M S B) (v : S)
    (Q : outcome B -> S -> trace -> Prop) :
  post m v (fun o v1 t1 =>
    match o with
    | Returned a => post (k a) v1 (fun o2 v2 t2 => Q o2 v2 (t1 ++ t2))
    | Thrown e => Q (Thrown e) v1 t1
    | Blocked => Q Blocked v1 t1
    end) ->
  post (bind m k) v Q.
Proof.
  unfold post, bind, result_of, state_of, trace_of.
  destruct (m v) as [[o v1] t1]; simpl.
  destruct o as [a|e|]; simpl; auto.
  destruct (k a v1) as [[o2 v2] t2]; simpl. auto.
Qed.

Lemma post_ret {S A} (a : A) (v : S) (Q : outcome A -> S -> trace -> Prop) :
  Q (Returned a) v [] -> post (ret a) v Q.
Proof. auto. Qed.

Lemma post_emit {S} (e : effect) (v : S) (Q : outcome unit -> S -> trace -> Prop) :
  Q (Returned tt) v [e] -> post (emit e) v Q.
Proof. auto. Qed.

Lemma post_emits {S} (t : trace) (v : S) (Q : outcome unit -> S -> trace -> Prop) :
  Q (Returned tt) v t -> post (emits t) v Q.
Proof. auto. Qed.

Lemma post_get {S} (v : S) (Q : outcome S -> S -> trace -> Prop) :
  Q (Returned v) v [] -> post get v Q.
Proof. auto. Qed.

Lemma post_modify {S} (f : S -> S) (v : S) (Q : outcome unit -> S -> trace -> Prop) :
  Q (Returned tt) (f v) [] -> post (modify f) v Q.
Proof. auto. Qed.

Lemma post_throw {S A} (e : error) (v : S) (Q : outcome A -> S -> trace -> Prop) :
  Q (Thrown e) v [] -> post (throw e) v Q.
Proof. auto. Qed.

Lemma post_await {S A} (o : outcome A) (v : S) (Q : outcome A -> S -> trace -> Prop) :
  Q o v [] -> post (await o) v Q.
Proof. auto. Qed.

Lemma post_detached {S A} (m : M S A) (v : S) (Q : outcome unit -> S -> trace -> Prop) :
  post m v (fun _ v1 t1 => Q (Returned tt) v1 t1) -> post (detached m) v Q.
Proof.
  unfold post, detached, result_of, state_of, trace_of.
  destruct (m v) as [[o v1] t1]; simpl. auto.
Qed.

Lemma post_zoom {S T A} (proj : S -> T) (inj : T -> S -> S) (m : M T A) (v : S)
    (Q : outcome A -> S -> trace -> Prop) :
  post m (proj v) (fun o t1 tr => Q o (inj t1 v) tr) -> post (zoom proj inj m) v Q.
Proof.
  unfold post, zoom, result_of, state_of, trace_of.
  destruct (m (proj v)) as [[o t1] tr]; simpl. auto.
Qed.

Lemma post_weaken {S A} (m : M S A) (v : S) (Q Q' : outcome A -> S -> trace -> Prop) :
  post m v Q -> (forall o v' t, Q o v' t -> Q' o v' t) -> post m v Q'.
Proof. unfold post. auto. Qed.

Lemma post_run {S A} (m : M S A) (v : S) (Q : outcome A -> S -> trace -> Prop)
    (o : outcome A) (v' : S) (t : trace) :
  post m v Q -> m v = (o, v', t) -> Q o v' t.
Proof. unfold post. intros H E. rewrite E in H. exact H. Qed.

(** One step of symbolic execution of a computation under [post]. *)
Ltac run_step :=
  lazymatch goal with
  | |- post (bind _ _) _ _ => apply post_bind
  | |- post (ret _) _ _ => apply post_ret
  | |- post (emit _) _ _ => apply post_emit
  | |- post (emits _) _ _ => apply post_emits
  | |- post get _ _ => apply post_get
  | |- post (modify _) _ _ => apply post_modify
  | |- post (throw _) _ _ => apply post_throw
  | |- post (await _) _ _ => apply post_await
  | |- post (detached _) _ _ => apply post_detached
  | |- post (zoom _ _ _) _ _ => apply post_zoom
  end;
  cbn beta iota; cbn [app].

Ltac run_all := repeat run_step.

(** Use a proved fact [H] about a sub-computation. *)
Ltac run_with H :=
  eapply post_weaken; [apply H | cbn beta; intros].

(** ** Intercom *)

Section IntercomFacts.

Import Intercom.

Lemma alive_after_app (t1 t2 : trace) : forall running,
  alive_after running (t1 ++ t2) = alive_after (alive_after running t1) t2.
Proof.
  induction t1 as [|e t1 IH]; intros running; simpl.
  - reflexivity.
  - destruct e; simpl; apply IH.
Qed.

Lemma remove_singleton (p : pid) : remove Nat.eq_dec p [p] = [].
Proof.
  simpl. destruct (Nat.eq_dec p p); [reflexivity | contradiction].
Qed.

Lemma remove_other (p q : pid) : p <> q -> remove Nat.eq_dec p [q] = [q].
Proof.
  intros H. simpl. destruct (Nat.eq_dec p q); [contradiction | reflexivity].
Qed.

Lemma stopIntercom_run (v : vars) :
  stopIntercom v =
  (Returned tt, v,
   match destroyProcess v with Some p => [Kill p] | None => [] end
   ++ [SetPlayback false false]).
Proof.
  unfold stopIntercom, bind, get. simpl.
  destruct (destroyProcess v); reflexivity.
Qed.

(** The shape of a [startIntercom] call that fulfils. *)
Lemma startIntercom_returns (w : world) (m : media) (v v' : vars) (tr : trace) :
  startIntercom w m v = (Returned tt, v', tr) ->
  exists i,
    v' = set_destroyProcess (Some (spawned v)) (set_spawned (S (spawned v)) v) /\
    tr = [ConvertMediaObject m; StartRtpForwarder (spawned v) i]
         ++ match destroyProcess v with Some p => [Kill p] | None => [] end
         ++ [SetPlayback false false; SetPlayback true false].
Proof.
  unfold startIntercom.
  destruct (alive w); simpl; [|discriminate].
  unfold bind at 1. simpl.
  destruct (track v) eqn:Ht; simpl; [|discriminate].
  unfold bind, emit, await, startRtpForwarderProcess, detached, modify, get, ret.
  simpl.
  destruct (converted w) as [i| |]; simpl; try discriminate.
  destruct (forwarder w) as [[]| |]; simpl; try discriminate.
  rewrite stopIntercom_run. simpl.
  intros H. inversion H; subst; clear H.
  exists i. split; [reflexivity|].
  destruct (destroyProcess v); reflexivity.
Qed.

(** A [startIntercom] call that does not fulfil starts no process and
    leaves the variables alone. *)
Lemma startIntercom_fails (w : world) (m : media) (v v' : vars) (tr : trace) (o : outcome unit) :
  startIntercom w m v = (o, v', tr) -> o <> Returned tt ->
  v' = v /\ alive_after [] tr = [] /\ forall running, alive_after running tr = running.
Proof.
  unfold startIntercom.
  destruct (alive w); simpl.
  2:{ unfold throw. intros H _. inversion H; subst. auto. }
  unfold bind at 1. simpl.
  destruct (track v) eqn:Ht; simpl.
  2:{ unfold throw. intros H _. inversion H; subst. auto. }
  unfold bind, emit, await, startRtpForwarderProcess, detached, modify, get, ret.
  simpl.
  destruct (converted w) as [i| |]; simpl.
  2,3: intros H _; inversion H; subst; auto.
  destruct (forwarder w) as [[]| |]; simpl.
  2,3: intros H _; inversion H; subst; auto.
  rewrite stopIntercom_run. simpl.
  intros H Hne. inversion H; subst. contradiction.
Qed.

Lemma consistent_start (w : world) (m : media) (v v' : vars) (tr : trace) (running : list pid) :
  consistent v running ->
  startIntercom w m v = (Returned tt, v', tr) ->
  alive_after running tr = [spawned v] /\ consistent v' [spawned v].
Proof.
  intros Hc H. apply startIntercom_returns in H. destruct H as [i [Hv Htr]].
  subst v' tr. unfold consistent in *. simpl.
  split.
  - destruct (destroyProcess v) as [p|]; simpl.
    + destruct Hc as [Hlt [Hr|Hr]]; subst running; simpl.
      * destruct (Nat.eq_dec p (spawned v)); [lia | reflexivity].
      * destruct (Nat.eq_dec p p); [|contradiction]. simpl.
        destruct (Nat.eq_dec p (spawned v)); [lia | reflexivity].
    + subst running. reflexivity.
  - split; [lia | right; reflexivity].
Qed.

Lemma consistent_op (o : op) (v : vars) (running : list pid) :
  consistent v running ->
  consistent (state_of (run_op o v)) (alive_after running (trace_of (run_op o v))).
Proof.
  intros Hc. destruct o as [w m|]; simpl.
  - destruct (startIntercom w m v) as [[r v'] tr] eqn:E.
    unfold state_of, trace_of. simpl.
    destruct r as [[]|e|].
    + destruct (consistent_start _ _ _ _ _ _ Hc E) as [Ha Hc']. rewrite Ha. exact Hc'.
    + apply startIntercom_fails in E; [|discriminate].
      destruct E as [-> [_ Hr]]. rewrite Hr. exact Hc.
    + apply startIntercom_fails in E; [|discriminate].
      destruct E as [-> [_ Hr]]. rewrite Hr. exact Hc.
  - rewrite stopIntercom_run. unfold state_of, trace_of. simpl.
    unfold consistent in *.
    destruct (destroyProcess v) as [p|]; simpl.
    + destruct Hc as [Hlt [Hr|Hr]]; subst running; simpl.
      * split; [exact Hlt | left; reflexivity].
      * destruct (Nat.eq_dec p p); [|contradiction].
        split; [exact Hlt | left; reflexivity].
    + exact Hc.
Qed.

Lemma consistent_history (ops : list op) : forall v running,
  consistent v running ->
  consistent (fst (run_ops ops v)) (alive_after running (snd (run_ops ops v))).
Proof.
  induction ops as [|o ops IH]; intros v running Hc; simpl.
  - exact Hc.
  - pose proof (consistent_op o v running Hc) as H1.
    destruct (run_op o v) as [[r v1] t1]. unfold state_of, trace_of in H1. simpl in H1.
    specialize (IH v1 _ H1).
    destruct (run_ops ops v1) as [v2 t2]. simpl in *.
    rewrite alive_after_app. exact IH.
Qed.

End IntercomFacts.

Section IntercomClaims.

Import Intercom.

(** C2, as stated, fails: in two successive successful [startIntercom]
    calls the forwarder process of the second call is started while the
    process of the first call still runs; the first process is killed only
    afterwards. *)
Lemma startIntercom_twice_starts_before_stopping :
  let r1 := startIntercom (ok_world 7) 1 (init true) in
  let r2 := startIntercom (ok_world 8) 2 (state_of r1) in
  result_of r1 = Returned tt /\ result_of r2 = Returned tt /\
  destroyProcess (state_of r1) = Some 0 /\ destroyProcess (state_of r2) = Some 1 /\
  trace_of r2 = [ConvertMediaObject 2; StartRtpForwarder 1 8; Kill 0;
                 SetPlayback false false; SetPlayback true false] /\
  ~ stopped_before_started 0 1 (trace_of r1 ++ trace_of r2).
Proof.
  repeat split.
  intros [i [j [Hi [Hj Hlt]]]].
  vm_compute in Hi, Hj.
  inversion Hi; inversion Hj; subst. lia.
Qed.

(** C2 (amended): after any history of intercom calls, two successive
    successful [startIntercom] calls leave exactly one pipeline alive, the
    one of the second call; the pipeline of the first call is killed after
    the second pipeline has been started and before the second call signals
    playback and completes. *)
Theorem startIntercom_twice_replaces
    (history : list op) (two_way : bool)
    (w1 w2 : world) (m1 m2 : media) (v1 v2 : vars) (t1 t2 : trace) :
  startIntercom w1 m1 (fst (run_ops history (init two_way))) = (Returned tt, v1, t1) ->
  startIntercom w2 m2 v1 = (Returned tt, v2, t2) ->
  exists p1 p2 i2,
    destroyProcess v1 = Some p1 /\ destroyProcess v2 = Some p2 /\ p1 <> p2 /\
    alive_after [] (snd (run_ops history (init two_way)) ++ t1) = [p1] /\
    alive_after [] (snd (run_ops history (init two_way)) ++ t1 ++ t2) = [p2] /\
    t2 = [ConvertMediaObject m2; StartRtpForwarder p2 i2; Kill p1;
          SetPlayback false false; SetPlayback true false].
Proof.
  intros H1 H2.
  assert (Hc0 : consistent (fst (run_ops history (init two_way)))
                  (alive_after [] (snd (run_ops history (init two_way))))).
  { apply consistent_history. reflexivity. }
  destruct (consistent_start _ _ _ _ _ _ Hc0 H1) as [Ha1 Hc1].
  destruct (consistent_start _ _ _ _ _ _ Hc1 H2) as [Ha2 Hc2].
  apply startIntercom_returns in H1. destruct H1 as [i1 [Hv1 Ht1]].
  apply startIntercom_returns in H2. destruct H2 as [i2 [Hv2 Ht2]].
  exists (spawned (fst (run_ops history (init two_way)))), (spawned v1), i2.
  assert (Hd1 : destroyProcess v1 = Some (spawned (fst (run_ops history (init two_way))))).
  { subst v1. reflexivity. }
  assert (Hs1 : spawned v1 = S (spawned (fst (run_ops history (init two_way))))).
  { subst v1. reflexivity. }
  split; [exact Hd1|].
  split; [subst v2; reflexivity|].
  split; [lia|].
  split; [rewrite alive_after_app; exact Ha1|].
  split.
  - rewrite app_assoc, alive_after_app. rewrite alive_after_app. rewrite Ha1. exact Ha2.
  - rewrite Ht2, Hd1. reflexivity.
Qed.

Lemma startIntercom_twice_replaces_witness :
  exists p1 p2 i2,
    destroyProcess (state_of (startIntercom (ok_world 7) 1 (init true))) = Some p1 /\
    destroyProcess
      (state_of (startIntercom (ok_world 8) 2
                   (state_of (startIntercom (ok_world 7) 1 (init true))))) = Some p2 /\
    p1 <> p2 /\
    alive_after [] (snd (run_ops [] (init true))
                    ++ trace_of (startIntercom (ok_world 7) 1 (init true))) = [p1] /\
    alive_after [] (snd (run_ops [] (init true))
                    ++ trace_of (startIntercom (ok_world 7) 1 (init true))
                    ++ trace_of (startIntercom (ok_world 8) 2
                         (state_of (startIntercom (ok_world 7) 1 (init true))))) = [p2] /\
    trace_of (startIntercom (ok_world 8) 2
                (state_of (startIntercom (ok_world 7) 1 (init true))))
    = [ConvertMediaObject 2; StartRtpForwarder p2 i2; Kill p1;
       SetPlayback false false; SetPlayback true false].
Proof.
  apply (startIntercom_twice_replaces [] true (ok_world 7) (ok_world 8) 1 2);
    reflexivity.
Defined.

(** C3, as stated, fails: [stopIntercom] on an intercom that never
    started a pipeline still calls [setPlayback] on session control. *)
Lemma stopIntercom_never_started_is_observable :
  destroyProcess (init true) = None /\
  trace_of (stopIntercom (init true)) = [SetPlayback false false] /\
  trace_of (stopIntercom (init true)) <> [].
Proof.
  repeat split. discriminate.
Qed.

(** C3 (amended): when no pipeline has been started, [stopIntercom]
    raises no error, changes no variable and kills nothing, and its one
    observable action is the playback signal [{audio: false, video: false}];
    any number of repeated calls does the same, each call signalling once. *)
Theorem stopIntercom_idle_signals_playback (v : vars) (n : nat) :
  destroyProcess v = None ->
  stopIntercom v = (Returned tt, v, [SetPlayback false false]) /\
  run_ops (repeat StopIntercom n) v = (v, repeat (SetPlayback false false) n).
Proof.
  intros Hd.
  assert (Hs : stopIntercom v = (Returned tt, v, [SetPlayback false false])).
  { rewrite stopIntercom_run, Hd. reflexivity. }
  split; [exact Hs|].
  induction n as [|n IH]; simpl.
  - reflexivity.
  - rewrite Hs, IH. reflexivity.
Qed.

Lemma stopIntercom_idle_signals_playback_witness :
  stopIntercom (init true) = (Returned tt, init true, [SetPlayback false false]) /\
  run_ops (repeat StopIntercom 3) (init true)
  = (init true, repeat (SetPlayback false false) 3).
Proof.
  apply (stopIntercom_idle_signals_playback (init true) 3). reflexivity.
Defined.

(** C10: every [startIntercom] call that succeeds signals two playback
    states to session control, in this order: [{audio: false, video: false}]
    from the internal [stopIntercom], then [{audio: true, video: false}];
    this holds for the first start as for any later one. *)
Theorem startIntercom_playback_signals
    (w : world) (m : media) (v v' : vars) (tr : trace) :
  startIntercom w m v = (Returned tt, v', tr) ->
  playback_signals tr = [(false, false); (true, false)].
Proof.
  intros H. apply startIntercom_returns in H. destruct H as [i [_ Htr]].
  subst tr. simpl. destruct (destroyProcess v); reflexivity.
Qed.

Lemma startIntercom_playback_signals_witness :
  playback_signals (trace_of (startIntercom (ok_world 7) 1 (init true)))
  = [(false, false); (true, false)].
Proof.
  apply (startIntercom_playback_signals (ok_world 7) 1 (init true)
           (state_of (startIntercom (ok_world 7) 1 (init true)))).
  reflexivity.
Defined.

End IntercomClaims.

(** ** Sink setup *)

Section SinkSetup.

Import Session.

Variable createSdpInput : nat -> nat -> string -> string.
Variable parseSdp : string -> list msection.

Lemma find_of_single {A} (f : A -> bool) (l : list A) (a : A) :
  filter f l = [a] -> find f l = Some a.
Proof.
  induction l as [|x l IH]; simpl; [discriminate|].
  destruct (f x); intros H.
  - inversion H. reflexivity.
  - apply IH. exact H.
Qed.

Lemma find_of_none {A} (f : A -> bool) (l : list A) :
  filter f l = [] -> find f l = None.
Proof.
  induction l as [|x l IH]; simpl; [reflexivity|].
  destruct (f x); intros H; [discriminate | apply IH; exact H].
Qed.

(** What [onTrack] subscribes depends on the transceivers and on the
    subscriptions made so far, on nothing else. *)
Lemma onTrack_frame (t : tid) (tr : trackid) (v v' : vars) :
  transceivers v' = transceivers v -> tracks v' = tracks v ->
  tracks (state_of (onTrack t tr v')) = tracks (state_of (onTrack t tr v)).
Proof.
  intros Ht Hk.
  unfold onTrack, find_track, bind, get, modify, ret, state_of. simpl.
  rewrite Ht, Hk.
  destruct (find _ (transceivers v)); [destruct (find _ (tracks v))|]; simpl; auto.
Qed.


End SinkSetup.



(** ** Media relay and keyframe requester *)

Section RelayFacts.

Import Session.

Variables (RtpPacket RtcpPacket : Type).
Variable serializeRtp : RtpPacket -> bytes.
Variable serializeRtcp : RtcpPacket -> bytes.

#[local] Abbreviation inbound := (Session.inbound RtpPacket RtcpPacket).
#[local] Abbreviation deliver := (Session.deliver serializeRtp serializeRtcp).
#[local] Abbreviation deliver_all := (Session.deliver_all serializeRtp serializeRtcp).
#[local] Abbreviation forwarded := (Session.forwarded serializeRtp serializeRtcp).

Lemma first_packet_post (s : subscription) (v : vars) :
  post (first_packet s) v (fun o v' t =>
    o = Returned tt /\ quiet t /\ v' = set_setups (setups v') v).
Proof.
  unfold first_packet. run_all.
  destruct (nth_error (setups v) (s_setup s)) as [f|].
  - destruct (got (s_kind s) f).
    + run_all. repeat split. destruct v; reflexivity.
    + run_all. destruct (s_kind s); run_all; repeat split.
  - run_all. repeat split. destruct v; reflexivity.
Qed.

Lemma arm_post (tr : trackid) (v : vars) :
  post (arm tr) v (fun o v' t =>
    o = Returned tt /\ quiet t /\
    v' = match find_timer tr v with
         | Some _ => v
         | None => set_timers (timers v ++ [mkTimer tr 0%N false]) v
         end /\
    (find_timer tr v = None -> In (SetInterval tr interval_ms) t)).
Proof.
  unfold arm. run_all.
  destruct (find_timer tr v) eqn:E.
  - run_all. repeat split. discriminate.
  - run_all. destruct (peerConnection v); run_all; repeat split; intros; left; reflexivity.
Qed.

Lemma deliver_returns (i : inbound) (v : vars) :
  result_of (deliver i v) = Returned tt.
Proof.
  change (post (deliver i) v (fun o _ _ => o = Returned tt)).
  unfold Session.deliver. run_all.
  destruct i as [t tr|tr rtp|tr rtcp|tr|].
  - unfold onTrack. run_all.
    destruct (find _ (transceivers v)); [destruct (find_track tr v)|]; run_all; reflexivity.
  - unfold onReceiveRtp. run_all.
    destruct (find_track tr v) as [s|]; run_all; [|reflexivity].
    run_with first_packet_post. destruct H as (-> & _). run_all.
    destruct (s_kind s); run_all; [reflexivity|].
    run_with arm_post. tauto.
  - unfold onReceiveRtcp. run_all.
    destruct (find_track tr v); run_all; reflexivity.
  - unfold pictureLossInterval. run_all.
    destruct (find_timer tr v) as [k|]; [destruct (cleared k)|]; run_all; reflexivity.
  - destruct (closed v); run_all; reflexivity.
Qed.

Lemma deliver_all_cons (i : inbound) (l : list inbound) (v : vars) :
  deliver_all (i :: l) v =
  (result_of (deliver_all l (state_of (deliver i v))),
   state_of (deliver_all l (state_of (deliver i v))),
   trace_of (deliver i v) ++ trace_of (deliver_all l (state_of (deliver i v)))).
Proof.
  simpl. unfold bind.
  pose proof (deliver_returns i v) as H.
  destruct (Session.deliver serializeRtp serializeRtcp i v) as [[o v1] t1].
  unfold result_of in H. simpl in H. subst o.
  unfold state_of, result_of, trace_of. simpl.
  destruct (Session.deliver_all serializeRtp serializeRtcp l v1) as [[o2 v2] t2]. reflexivity.
Qed.

Lemma deliver_all_state (i : inbound) (l : list inbound) (v : vars) :
  state_of (deliver_all (i :: l) v) = state_of (deliver_all l (state_of (deliver i v))).
Proof. rewrite deliver_all_cons. reflexivity. Qed.

Lemma deliver_all_trace (i : inbound) (l : list inbound) (v : vars) :
  trace_of (deliver_all (i :: l) v)
  = trace_of (deliver i v) ++ trace_of (deliver_all l (state_of (deliver i v))).
Proof. rewrite deliver_all_cons. reflexivity. Qed.

Lemma clearIntervals_quiet (ks : list timer) : quiet (clearIntervals ks).
Proof.
  induction ks as [|k ks [IH1 IH2]]; [split; reflexivity|].
  simpl. split.
  - rewrite flat_map_app, IH1. destruct (cleared k); reflexivity.
  - intros x. rewrite flat_map_app, IH2. destruct (cleared k); reflexivity.
Qed.

(** Delivering a packet hands exactly its serialized bytes to the sink
    and touches neither the subscriptions nor the channel names; a firing of
    the interval and the close of the peer session send the sink nothing. *)
Lemma deliver_packet (i : inbound) (v : vars) :
  is_packet i = true \/ (exists tr, i = IntervalFires tr) \/ i = PeerClosed ->
  post (deliver i) v (fun _ v' t =>
    flat_map sent t = forwarded v i /\
    tracks v' = tracks v /\ audioTrack v' = audioTrack v /\
    videoTrack v' = videoTrack v).
Proof.
  intros Hp.
  unfold Session.deliver. run_all.
  destruct i as [t tr|tr rtp|tr rtcp|tr|]; simpl in Hp.
  - destruct Hp as [Hp|[[x Hp]|Hp]]; discriminate.
  - unfold onReceiveRtp. run_all. simpl.
    destruct (find_track tr v) as [s|] eqn:Ef; run_all; [|auto].
    run_with first_packet_post. destruct H as (-> & [Hs _] & Hv1). run_all.
    assert (Hch : channel (s_kind s) v' = channel (s_kind s) v).
    { rewrite Hv1. destruct (s_kind s); reflexivity. }
    assert (Hk : tracks v' = tracks v /\ audioTrack v' = audioTrack v /\
                 videoTrack v' = videoTrack v).
    { rewrite Hv1. simpl. auto. }
    destruct Hk as (K1 & K2 & K3).
    destruct (s_kind s) eqn:Ek; run_all.
    + rewrite flat_map_app, Hs. simpl in *. rewrite Hch, K1, K3. auto.
    + run_with arm_post. destruct H as (_ & [Hs2 _] & -> & _).
      rewrite !flat_map_app, Hs. simpl in *. rewrite Hs2, Hch.
      destruct (find_timer tr v'); simpl; rewrite K1, K2; auto.
  - unfold onReceiveRtcp. run_all. simpl.
    destruct (find_track tr v) as [s|]; run_all; simpl; auto.
  - unfold pictureLossInterval. run_all.
    destruct (find_timer tr v) as [k|]; [destruct (cleared k)|]; run_all; simpl; auto.
  - destruct (closed v); run_all; simpl; auto.
    unfold peer_closed. run_all. simpl.
    destruct (clearIntervals_quiet (timers v)) as [Hq _]. rewrite Hq. auto.
Qed.

Lemma forwarded_same (v v' : vars) (i : inbound) :
  tracks v' = tracks v -> audioTrack v' = audioTrack v -> videoTrack v' = videoTrack v ->
  forwarded v' i = forwarded v i.
Proof.
  intros H1 H2 H3.
  destruct i; simpl; try reflexivity; unfold find_track; rewrite H1;
    destruct (find _ (tracks v)) as [s|]; try reflexivity;
    destruct (s_kind s); simpl; rewrite ?H2, ?H3; reflexivity.
Qed.

(** C7: of a run of inbound packets (with firings of the keyframe
    interval and the close of the peer session in between), the sink
    receives, in arrival order, one unit per packet on a subscribed track:
    exactly the bytes [serialize()] gives for that packet, on the channel of
    the track's kind ([audioTrack] or [videoTrack]), tagged [false] for RTP
    and [true] for RTCP; nothing else is sent to the sink. *)
Theorem relay_forwards_packets (l : list inbound) : forall v : vars,
  Forall (fun i => is_packet i = true \/ (exists tr, i = IntervalFires tr) \/ i = PeerClosed) l ->
  flat_map sent (trace_of (deliver_all l v)) = flat_map (forwarded v) l.
Proof.
  induction l as [|i l IH]; intros v Hl.
  - reflexivity.
  - inversion Hl as [|? ? Hi Hl']; subst.
    rewrite deliver_all_trace.
    pose proof (deliver_packet i v Hi) as H. unfold post in H.
    destruct H as (Hs & K1 & K2 & K3).
    rewrite flat_map_app, Hs. simpl. f_equal.
    rewrite (IH _ Hl').
    apply flat_map_ext. intros a. apply forwarded_same; assumption.
Qed.

(** *** The keyframe interval of one video track *)

Lemma find_timer_key (tr : trackid) (v : vars) (k : timer) :
  find_timer tr v = Some k -> k_track k = tr.
Proof.
  unfold find_timer. intros H. apply find_some in H. destruct H as [_ H].
  apply Nat.eqb_eq in H. exact H.
Qed.

Lemma find_map_keyed (f : timer -> timer) (tr : trackid) (l : list timer) :
  (forall k, k_track (f k) = k_track k) ->
  find (fun k => Nat.eqb (k_track k) tr) (map f l)
  = option_map f (find (fun k => Nat.eqb (k_track k) tr) l).
Proof.
  intros Hf. induction l as [|k l IH]; simpl; [reflexivity|].
  rewrite Hf. destruct (Nat.eqb (k_track k) tr); [reflexivity | exact IH].
Qed.

Lemma find_app_found {A} (f : A -> bool) (l1 l2 : list A) (a : A) :
  find f l1 = Some a -> find f (l1 ++ l2) = Some a.
Proof.
  induction l1 as [|x l1 IH]; simpl; [discriminate|].
  destruct (f x); auto.
Qed.

Lemma find_app_missing {A} (f : A -> bool) (l1 l2 : list A) :
  find f l1 = None -> find f (l1 ++ l2) = find f l2.
Proof.
  induction l1 as [|x l1 IH]; simpl; [reflexivity|].
  destruct (f x); [discriminate | auto].
Qed.

Lemma clearIntervals_clears (tr : trackid) (ks : list timer) (k : timer) :
  find (fun k => Nat.eqb (k_track k) tr) ks = Some k -> cleared k = false ->
  In (ClearInterval tr) (clearIntervals ks).
Proof.
  induction ks as [|x ks IH]; simpl; [discriminate|].
  destruct (Nat.eqb (k_track x) tr) eqn:E; intros H Hc.
  - inversion H; subst x. rewrite Hc. apply Nat.eqb_eq in E. rewrite E. left. reflexivity.
  - apply in_or_app. right. apply IH; assumption.
Qed.

(** How one delivery moves the interval of track [tr]: a cleared
    interval stays cleared and requests nothing; a running one requests a
    keyframe exactly when it fires, and counts. *)
Lemma deliver_timer (tr : trackid) (i : inbound) (v : vars) (k : timer) :
  find_timer tr v = Some k ->
  post (deliver i) v (fun _ v' t =>
    exists k', find_timer tr v' = Some k' /\
      (cleared k = true -> cleared k' = true /\ flat_map (feedback tr) t = []) /\
      (cleared k = false -> is_close i = false ->
         cleared k' = false /\ closed v' = closed v /\
         firSequenceNumber k' =
           (if fires tr i then N.succ (firSequenceNumber k) else firSequenceNumber k) /\
         flat_map (feedback tr) t =
           requests tr (firSequenceNumber k) (if fires tr i then 1 else 0))).
Proof.
  intros Hk.
  unfold Session.deliver. run_all.
  destruct i as [t x|x rtp|x rtcp|x|].
  - assert (Hq : post (onTrack t x) v (fun _ v' t' => t' = [] /\ timers v' = timers v /\ closed v' = closed v)).
    { unfold onTrack. run_all.
      destruct (find _ (transceivers v)); [destruct (find_track x v)|]; run_all; auto. }
    run_with Hq. destruct H as (-> & Ht & Hc).
    exists k. unfold find_timer in *. rewrite Ht. simpl. rewrite Hc. intuition congruence.
  - unfold onReceiveRtp. run_all.
    destruct (find_track x v) as [s|]; run_all.
    2:{ exists k. simpl. intuition congruence. }
    run_with first_packet_post. destruct H as (-> & [_ Hf] & Hv1). run_all.
    assert (Hk1 : find_timer tr v' = Some k).
    { rewrite Hv1. exact Hk. }
    assert (Hc1 : closed v' = closed v).
    { rewrite Hv1. reflexivity. }
    destruct (s_kind s); run_all.
    + exists k. rewrite flat_map_app, Hf. simpl. intuition congruence.
    + run_with arm_post. destruct H as (_ & [_ Hf2] & -> & _).
      exists k. rewrite !flat_map_app, Hf. simpl. rewrite Hf2.
      split.
      { destruct (find_timer x v'); [exact Hk1|].
        unfold find_timer in *. simpl. apply find_app_found. exact Hk1. }
      destruct (find_timer x v'); simpl; intuition congruence.
  - assert (Hq : post (onReceiveRtcp serializeRtcp x rtcp) v
                   (fun _ v' t' => v' = v /\ flat_map (feedback tr) t' = [])).
    { unfold onReceiveRtcp. run_all. destruct (find_track x v); run_all; auto. }
    run_with Hq. destruct H as (-> & Hf). exists k. rewrite Hf. simpl. intuition congruence.
  - unfold pictureLossInterval. run_all. simpl.
    pose proof (find_timer_key _ _ _ Hk) as Hkey.
    destruct (Nat.eqb x tr) eqn:Ex.
    + apply Nat.eqb_eq in Ex. subst x. rewrite Hk.
      destruct (cleared k) eqn:Ec; run_all.
      * exists k. simpl. intuition congruence.
      * exists (mkTimer tr (N.succ (firSequenceNumber k)) (cleared k)).
        split.
        { unfold find_timer in *. simpl. rewrite find_map_keyed.
          - rewrite Hk. simpl. rewrite Hkey, Nat.eqb_refl. reflexivity.
          - intros k0. destruct (Nat.eqb (k_track k0) tr) eqn:E0; [|reflexivity].
            apply Nat.eqb_eq in E0. simpl. auto. }
        simpl. rewrite Nat.eqb_refl. simpl. rewrite Ec.
        split; [discriminate|]. intuition congruence.
    + assert (Hother : forall l : list timer,
                find (fun k0 => Nat.eqb (k_track k0) tr)
                  (map (fun k' => if Nat.eqb (k_track k') x
                                  then mkTimer x (N.succ (firSequenceNumber k')) (cleared k')
                                  else k') l)
                = find (fun k0 => Nat.eqb (k_track k0) tr) l).
      { induction l as [|k0 l IHl]; simpl; [reflexivity|].
        destruct (Nat.eqb (k_track k0) x) eqn:E0; simpl.
        - rewrite Ex. apply Nat.eqb_eq in E0. rewrite E0, Ex. exact IHl.
        - rewrite IHl. reflexivity. }
      destruct (find_timer x v) as [k0|]; [destruct (cleared k0)|]; run_all.
      * exists k. simpl. intuition congruence.
      * exists k. unfold find_timer in *. simpl. rewrite Hother, Ex. intuition congruence.
      * exists k. simpl. intuition congruence.
  - destruct (closed v) eqn:Ec; run_all.
    + exists k. simpl. split; [exact Hk|]. split; [auto | discriminate].
    + unfold peer_closed. run_all.
      exists (mkTimer (k_track k) (firSequenceNumber k) true).
      split.
      * unfold find_timer in *. simpl. rewrite find_map_keyed; [|reflexivity].
        rewrite Hk. reflexivity.
      * simpl. split; [|discriminate].
        intros _. split; [reflexivity|].
        apply clearIntervals_quiet.
Qed.

Lemma deliver_all_running (tr : trackid) (l : list inbound) : forall (v : vars) (k : timer),
  find_timer tr v = Some k -> cleared k = false ->
  Forall (fun i => is_close i = false) l ->
  exists k', find_timer tr (state_of (deliver_all l v)) = Some k' /\
    cleared k' = false /\
    closed (state_of (deliver_all l v)) = closed v /\
    flat_map (feedback tr) (trace_of (deliver_all l v))
    = requests tr (firSequenceNumber k) (List.length (filter (fires tr) l)).
Proof.
  induction l as [|i l IH]; intros v k Hk Hc Hl.
  - exists k. simpl. auto.
  - inversion Hl as [|? ? Hi Hl']; subst.
    rewrite deliver_all_state, deliver_all_trace.
    pose proof (deliver_timer tr i v k Hk) as H. unfold post in H.
    destruct H as (k1 & Hk1 & _ & H). destruct (H Hc Hi) as (Hc1 & Hcl & Hn & Hf).
    destruct (IH _ _ Hk1 Hc1 Hl') as (k2 & Hk2 & Hc2 & Hcl2 & Hf2).
    exists k2. rewrite flat_map_app, Hf, Hf2, Hcl2, Hcl, Hn.
    repeat split; try assumption.
    simpl. destruct (fires tr i); reflexivity.
Qed.

Lemma deliver_all_cleared (tr : trackid) (l : list inbound) : forall (v : vars) (k : timer),
  find_timer tr v = Some k -> cleared k = true ->
  flat_map (feedback tr) (trace_of (deliver_all l v)) = [].
Proof.
  induction l as [|i l IH]; intros v k Hk Hc.
  - reflexivity.
  - rewrite deliver_all_trace.
    pose proof (deliver_timer tr i v k Hk) as H. unfold post in H.
    destruct H as (k1 & Hk1 & H & _). destruct (H Hc) as (Hc1 & Hf).
    rewrite flat_map_app, Hf. simpl. exact (IH _ _ Hk1 Hc1).
Qed.


End RelayFacts.

Lemma relay_forwards_packets_witness :
  flat_map Session.sent
    (trace_of (Session.deliver_all Sample.serialize Sample.serialize
                 [Session.ReceiveRtp 10 (Sample.packet 1);
                  Session.ReceiveRtp 20 (Sample.packet 2);
                  Session.ReceiveRtcp 20 (Sample.packet 3);
                  Session.IntervalFires 20;
                  Session.PeerClosed;
                  Session.ReceiveRtp 20 (Sample.packet 4)] Sample.streaming))
  = [(Some "trackID=0", Sample.packet 1, false);
     (Some "trackID=1", Sample.packet 2, false);
     (Some "trackID=1", Sample.packet 3, true);
     (Some "trackID=1", Sample.packet 4, false)].
Proof.
  apply (relay_forwards_packets bytes bytes Sample.serialize Sample.serialize
           [Session.ReceiveRtp 10 (Sample.packet 1);
            Session.ReceiveRtp 20 (Sample.packet 2);
            Session.ReceiveRtcp 20 (Sample.packet 3);
            Session.IntervalFires 20;
            Session.PeerClosed;
            Session.ReceiveRtp 20 (Sample.packet 4)] Sample.streaming).
  repeat (apply Forall_cons;
          [first [left; reflexivity | right; left; eexists; reflexivity
                 | right; right; reflexivity]|]).
  apply Forall_nil.
Defined.


(** ** Signaling session *)

Section SignalingFacts.

Import Session.

Variable createSdpInput : nat -> nat -> string -> string.
Variable parseSdp : string -> list msection.
Variable createRawResponse : description -> description.

#[local] Abbreviation handleRtspSetup := (Session.handleRtspSetup createSdpInput parseSdp).
#[local] Abbreviation createLocalDescription :=
  (Session.createLocalDescription createSdpInput parseSdp createRawResponse).
#[local] Abbreviation setRemoteDescription :=
  (Session.setRemoteDescription createSdpInput parseSdp).
#[local] Abbreviation run_call := (Session.run_call createSdpInput parseSdp createRawResponse).
#[local] Abbreviation run_calls := (Session.run_calls createSdpInput parseSdp createRawResponse).

Lemma same_instance_refl (v : vars) : same_instance v [] v.
Proof.
  unfold same_instance. simpl. repeat split; auto. contradiction.
Qed.

Lemma same_instance_trans (v v1 v2 : vars) (t1 t2 : trace) :
  same_instance v t1 v1 -> same_instance v1 t2 v2 -> same_instance v (t1 ++ t2) v2.
Proof.
  unfold same_instance. intros (A1 & B1 & C1) (A2 & B2 & C2).
  rewrite !flat_map_app.
  split; [|split].
  - intros pc Hin. apply in_app_or in Hin. destruct Hin as [Hin|Hin].
    + specialize (A1 _ Hin). destruct (B2 ltac:(rewrite A1; reflexivity)) as [E _].
      rewrite E. exact A1.
    + apply A2. exact Hin.
  - intros Hf. destruct (B1 Hf) as [E1 N1].
    destruct (B2 ltac:(rewrite E1; exact Hf)) as [E2 N2].
    rewrite E2, E1, N1, N2. auto.
  - intros Hp. destruct (C1 Hp) as [[E1 N1]|[pc [E1 N1]]].
    + destruct (C2 E1) as [[E2 N2]|[pc [E2 N2]]].
      * left. rewrite N1, N2. auto.
      * right. exists pc. rewrite N1, N2. auto.
    + destruct (B2 ltac:(rewrite E1; reflexivity)) as [E2 N2].
      right. exists pc. rewrite E2, N1, N2. auto.
Qed.

(** A step that neither constructs nor calls a peer connection, and
    leaves the Deferred alone. *)
Lemma same_instance_frame (v v' : vars) (t : trace) :
  peerConnection v' = peerConnection v ->
  flat_map target t = [] -> flat_map constructed t = [] ->
  same_instance v t v'.
Proof.
  intros E T C. unfold same_instance. rewrite E, T, C. simpl.
  repeat split; auto. contradiction.
Qed.

(** A step that only calls the peer connection the Deferred holds. *)
Lemma same_instance_call (v v' : vars) (t : trace) (pc : pcid) :
  peerConnection v = Deferred.Resolved pc ->
  peerConnection v' = peerConnection v ->
  (forall x, In x (flat_map target t) -> x = pc) -> flat_map constructed t = [] ->
  same_instance v t v'.
Proof.
  intros E E' T C. unfold same_instance. rewrite E', E, C. simpl.
  split; [|split].
  - intros x Hx. rewrite (T x Hx). reflexivity.
  - auto.
  - discriminate.
Qed.

Lemma ensurePeerConnection_settled (s : setup) (v : vars) :
  Deferred.finished (peerConnection v) = true ->
  ensurePeerConnection s v = (Returned tt, v, []).
Proof.
  intros H. unfold ensurePeerConnection, bind, get. simpl. rewrite H. reflexivity.
Qed.

Lemma ensurePeerConnection_same (s : setup) (v : vars) :
  post (ensurePeerConnection s) v (fun o v' t =>
    o = Returned tt /\ same_instance v t v' /\
    Deferred.finished (peerConnection v') = true).
Proof.
  unfold ensurePeerConnection. run_all.
  destruct (peerConnection v) eqn:E; simpl; run_all; simpl; rewrite ?E; simpl.
  - split; [reflexivity|]. split; [|reflexivity].
    unfold same_instance. simpl. rewrite E. simpl.
    split; [contradiction|]. split; [discriminate|].
    intros _. right. eexists. split; reflexivity.
  - split; [reflexivity|]. split; [|reflexivity].
    apply same_instance_frame; reflexivity.
  - split; [reflexivity|]. split; [|reflexivity].
    apply same_instance_frame; reflexivity.
Qed.

Lemma doSetup_same (s : setup) (v : vars) :
  post (doSetup s) v (fun _ v' t => same_instance v t v').
Proof.
  unfold doSetup. run_all.
  run_with ensurePeerConnection_same. destruct H as (-> & H1 & Hf).
  run_all. unfold await_peerConnection. run_all. simpl.
  destruct (peerConnection v') as [|pc|e] eqn:E; try discriminate; run_all.
  - unfold addTransceiver. run_all.
    apply (same_instance_trans _ _ _ _ _ H1).
    apply (same_instance_call _ _ _ pc E); simpl; [reflexivity| |reflexivity].
    intros x [<-|[<-|[]]]; reflexivity.
  - apply (same_instance_trans _ _ _ _ _ H1).
    apply same_instance_frame; reflexivity.
Qed.

Lemma handleRtspSetup_same (w : world) (d : description) (v : vars) :
  post (handleRtspSetup w d) v (fun _ v' t =>
    peerConnection v' = peerConnection v /\
    flat_map target t = [] /\ flat_map constructed t = []).
Proof.
  unfold Session.handleRtspSetup.
  destruct (negb (is_answer (dtype d))); run_all; [auto|].
  unfold control_of.
  destruct (find (of_kind "audio") _); run_all; [|auto].
  destruct (find (of_kind "video") _); run_all; [|auto].
  destruct (playback w); run_all; auto.
Qed.

(** With the Deferred resolved, what remains of a session method after
    [await peerConnection.promise] only calls that peer connection. *)
Lemma same_instance_after (v v1 v2 : vars) (t1 t2 : trace) (pc : pcid) :
  same_instance v t1 v1 ->
  peerConnection v1 = Deferred.Resolved pc ->
  peerConnection v2 = peerConnection v1 ->
  (forall x, In x (flat_map target t2) -> x = pc) -> flat_map constructed t2 = [] ->
  same_instance v (t1 ++ t2) v2.
Proof.
  intros H1 E E' T C.
  apply (same_instance_trans _ _ _ _ _ H1).
  apply (same_instance_call _ _ _ pc E E' T C).
Qed.

Ltac after_await L H1 E :=
  eapply (L _ _ _ _ _ _ H1 E);
  [ simpl; congruence
  | intros x Hx; cbn [flat_map target app] in Hx;
    repeat (rewrite ?flat_map_app in Hx; cbn [flat_map target app] in Hx);
    repeat match goal with
           | Ht : flat_map target _ = [] |- _ => rewrite Ht in Hx
           end;
    cbn [app In] in Hx; intuition congruence
  | cbn [flat_map constructed app];
    repeat (rewrite ?flat_map_app; cbn [flat_map constructed app]);
    repeat match goal with
           | Ht : flat_map constructed _ = [] |- _ => rewrite Ht
           end;
    reflexivity ].

(** Symbolic execution through the branches of a session method, with
    [L] the fact to use about sink setup. *)
Ltac exec L :=
  repeat first
    [ run_step
    | lazymatch goal with
      | |- post (when _ _) _ _ => unfold when
      | |- post (await_gathering _) _ _ => unfold await_gathering
      | |- post (Session.handleRtspSetup _ _ _ _) _ _ =>
          run_with L;
          match goal with H : _ /\ _ /\ _ |- _ => destruct H as (? & ? & ?) end
      | |- post (match ?x with _ => _ end) _ _ => destruct x eqn:?
      | |- match ?x with _ => _ end => destruct x eqn:?
      end ].

Lemma createLocalDescription_same
    (w : world) (type : sdp_type) (s : setup) (cb : bool) (v : vars) :
  post (createLocalDescription w type s cb) v (fun _ v' t => same_instance v t v').
Proof.
  unfold Session.createLocalDescription. run_all.
  assert (H0 : post (when (is_offer type) (detached (doSetup s))) v
                 (fun o v' t => o = Returned tt /\ same_instance v t v')).
  { unfold when. destruct (is_offer type).
    - run_all. run_with doSetup_same. auto.
    - run_all. split; [reflexivity | apply same_instance_refl]. }
  run_with H0. destruct H as (-> & H1). clear H0.
  run_all. unfold await_peerConnection. run_all. simpl.
  destruct (peerConnection v') as [|pc|e] eqn:E; run_all.
  1,3: apply (same_instance_trans _ _ _ _ _ H1); apply same_instance_frame; reflexivity.
  exec handleRtspSetup_same; after_await same_instance_after H1 E.
Qed.

Lemma setRemoteDescription_same (w : world) (d : description) (s : setup) (v : vars) :
  post (setRemoteDescription w d s) v (fun _ v' t => same_instance v t v').
Proof.
  unfold Session.setRemoteDescription. run_all.
  assert (H0 : post (if is_offer (dtype d) then detached (doSetup s) else handleRtspSetup w d) v
                 (fun o v' t => same_instance v t v')).
  { destruct (is_offer (dtype d)).
    - run_all. run_with doSetup_same. auto.
    - run_with handleRtspSetup_same. destruct H as (? & ? & ?).
      apply same_instance_frame; assumption. }
  run_with H0. clear H0.
  destruct o as [[]|e|]; try exact H.
  unfold await_peerConnection. run_all. simpl.
  destruct (peerConnection v') as [|pc|e] eqn:E; run_all.
  1,3: apply (same_instance_trans _ _ _ _ _ H); apply same_instance_frame; reflexivity.
  exec handleRtspSetup_same; after_await same_instance_after H E.
Qed.

Lemma addIceCandidate_same (w : world) (v : vars) :
  post (addIceCandidate w) v (fun _ v' t => same_instance v t v').
Proof.
  unfold addIceCandidate. run_all. unfold await_peerConnection. run_all. simpl.
  pose proof (same_instance_refl v) as H.
  destruct (peerConnection v) as [|pc|e] eqn:E; run_all.
  1,3: apply same_instance_frame; reflexivity.
  exec handleRtspSetup_same; apply (same_instance_call _ _ _ pc E); simpl; try reflexivity;
    intros x Hx; intuition congruence.
Qed.

Lemma run_calls_same (cs : list call) : forall v : vars,
  post (run_calls cs) v (fun _ v' t => same_instance v t v').
Proof.
  induction cs as [|c cs IH]; intros v; simpl.
  - run_all. apply same_instance_refl.
  - run_all.
    assert (H0 : post (run_call c) v (fun o v' t => o = Returned tt /\ same_instance v t v')).
    { destruct c; simpl; run_all.
      - run_with createLocalDescription_same. auto.
      - run_with setRemoteDescription_same. auto.
      - run_with addIceCandidate_same. auto. }
    run_with H0. destruct H as (-> & H1).
    run_with IH. apply (same_instance_trans _ _ _ _ _ H1 H).
Qed.

(** C9: over any sequence of calls the signaling channel makes on the
    session, from any state of the bridge, at most one peer connection is
    constructed; once the peer-connection Deferred is settled (resolved or
    rejected) [ensurePeerConnection] does nothing, no peer connection is
    constructed and the Deferred keeps its value; and every call made on a
    peer connection - by [createLocalDescription], [setRemoteDescription]
    with an offer or otherwise, or [addIceCandidate] - is made on the one
    instance the Deferred holds. *)
Theorem one_peer_connection (cs : list call) (v : vars) :
  let r := run_calls cs v in
  List.length (flat_map constructed (trace_of r)) <= 1 /\
  (forall pc, In pc (flat_map target (trace_of r)) ->
     peerConnection (state_of r) = Deferred.Resolved pc) /\
  (Deferred.finished (peerConnection v) = true ->
     (forall s, ensurePeerConnection s v = (Returned tt, v, [])) /\
     peerConnection (state_of r) = peerConnection v /\
     flat_map constructed (trace_of r) = []).
Proof.
  intros r. pose proof (run_calls_same cs v) as H. unfold post in H. fold r in H.
  destruct H as (A & B & C).
  split; [|split].
  - destruct (peerConnection v) eqn:E.
    + destruct (C eq_refl) as [[_ ->]|[pc [_ ->]]]; simpl; lia.
    + destruct (B eq_refl) as [_ ->]. simpl. lia.
    + destruct (B eq_refl) as [_ ->]. simpl. lia.
  - exact A.
  - intros Hf. destruct (B Hf) as [H1 H2].
    split; [|split; assumption].
    intros s. apply ensurePeerConnection_settled. exact Hf.
Qed.

(** C8: [createLocalDescription] for an answer, on a resolved peer
    connection that produces answer [a]: the raw response of [a] is handed
    to sink setup, which runs to its end (including the awaited
    [handlePlayback]) before the local description is applied and before
    anything is returned; if sink setup fails or never completes, so does
    the call.  After sink setup, with a [sendIceCandidate] callback the
    call returns the raw response of the initial answer at once; without
    one it awaits [setLocalDescription] and the completion of candidate
    gathering (not returning while gathering is incomplete) and returns the
    raw response of the peer connection's final local description (of [a]
    when there is none). *)
Theorem createLocalDescription_answer
    (w : world) (s : setup) (sendIceCandidate : bool) (v : vars) (pc : pcid)
    (a : description) :
  peerConnection v = Deferred.Resolved pc ->
  answer w = Returned a ->
  let sink := handleRtspSetup w (createRawResponse a) v in
  let r := createLocalDescription w Answer s sendIceCandidate v in
  match result_of sink with
  | Returned _ =>
      state_of r = state_of sink /\
      trace_of r = answer_prelude w s sendIceCandidate pc ++ trace_of sink
                   ++ [SetLocalDescription pc a] /\
      result_of r =
        if sendIceCandidate then Returned (createRawResponse a)
        else match applied w with
             | Returned _ =>
                 match gathering w with
                 | GatheringNever => Blocked
                 | _ => Returned (createRawResponse
                                    match localDescription w with
                                    | Some d => d
                                    | None => a
                                    end)
                 end
             | Thrown e => Thrown e
             | Blocked => Blocked
             end
  | Thrown e =>
      r = (Thrown e, state_of sink, answer_prelude w s sendIceCandidate pc ++ trace_of sink)
  | Blocked =>
      r = (Blocked, state_of sink, answer_prelude w s sendIceCandidate pc ++ trace_of sink)
  end.
Proof.
  intros Hpc Ha. cbv zeta.
  unfold Session.createLocalDescription, when, await_peerConnection, await_gathering,
    answer_prelude.
  unfold bind, get, emit, await, ret, detached, result_of, state_of, trace_of.
  simpl. rewrite Hpc, Ha.
  destruct (datachannel s), (gathering w), sendIceCandidate; simpl;
    destruct (handleRtspSetup w (createRawResponse a) v) as [[o v1] t1]; simpl;
    destruct o as [[]|e|]; simpl; try reflexivity;
    destruct (applied w) as [[]|e'|]; simpl; repeat split; reflexivity.
Qed.

End SignalingFacts.

Lemma one_peer_connection_witness :
  let r := Session.run_calls Sample.createSdpInput Sample.parseSdp Sample.createRawResponse
             [Session.CreateLocalDescription Sample.world Offer Sample.setup false;
              Session.SetRemoteDescriptionCall Sample.world Sample.remote_offer Sample.setup;
              Session.AddIceCandidateCall Sample.world] Sample.offered in
  List.length (flat_map Session.constructed (trace_of r)) <= 1 /\
  Session.peerConnection (state_of r) = Deferred.Resolved 0 /\
  (forall s, Session.ensurePeerConnection s Sample.offered = (Returned tt, Sample.offered, [])) /\
  Session.peerConnection (state_of r) = Session.peerConnection Sample.offered /\
  flat_map Session.constructed (trace_of r) = [].
Proof.
  destruct (one_peer_connection Sample.createSdpInput Sample.parseSdp Sample.createRawResponse
              [Session.CreateLocalDescription Sample.world Offer Sample.setup false;
               Session.SetRemoteDescriptionCall Sample.world Sample.remote_offer Sample.setup;
               Session.AddIceCandidateCall Sample.world] Sample.offered) as (A & B & C).
  split; [exact A|].
  split; [apply B; left; reflexivity|].
  exact (C eq_refl).
Defined.

Lemma createLocalDescription_answer_witness :
  let sink := Session.handleRtspSetup Sample.createSdpInput Sample.parseSdp Sample.world
                (Sample.createRawResponse Sample.answer) Sample.offered in
  let trickle := Session.createLocalDescription Sample.createSdpInput Sample.parseSdp
                   Sample.createRawResponse Sample.world Answer Sample.setup true
                   Sample.offered in
  let gathered := Session.createLocalDescription Sample.createSdpInput Sample.parseSdp
                    Sample.createRawResponse Sample.world Answer Sample.setup false
                    Sample.offered in
  (state_of trickle = state_of sink /\
   trace_of trickle = Session.answer_prelude Sample.world Sample.setup true 0
                      ++ trace_of sink ++ [SetLocalDescription 0 Sample.answer] /\
   result_of trickle = Returned (Sample.createRawResponse Sample.answer)) /\
  (state_of gathered = state_of sink /\
   trace_of gathered = Session.answer_prelude Sample.world Sample.setup false 0
                       ++ trace_of sink ++ [SetLocalDescription 0 Sample.answer] /\
   result_of gathered = Returned (Sample.createRawResponse Sample.final_answer)).
Proof.
  split.
  - exact (createLocalDescription_answer Sample.createSdpInput Sample.parseSdp
             Sample.createRawResponse Sample.world Sample.setup true Sample.offered 0
             Sample.answer eq_refl eq_refl).
  - exact (createLocalDescription_answer Sample.createSdpInput Sample.parseSdp
             Sample.createRawResponse Sample.world Sample.setup false Sample.offered 0
             Sample.answer eq_refl eq_refl).
Defined.

(** ** Teardown and the start chain *)

Section LifecycleFacts.

Import Lifecycle.

Lemma cleanup_runs_app (t1 t2 : trace) :
  cleanup_runs (t1 ++ t2) = cleanup_runs t1 + cleanup_runs t2.
Proof. apply filter_length_app. Qed.

Lemma then_post (r : reaction) (v : vars) :
  post (then_ r) v (fun o v' t => o = Returned tt /\ t = [] /\ promises v' = promises v).
Proof.
  unfold then_. run_all.
  destruct (promise_status (awaited r) v); run_all; auto.
Qed.

Lemma cleanup_post (v : vars) :
  post cleanup v (fun o v' t =>
    o = Returned tt /\ t = [ConsoleLog "webrtc/rtsp cleaning up"] /\
    promises v' = promises v).
Proof.
  unfold cleanup. run_all.
  run_with then_post. destruct H as (-> & -> & P1). run_all.
  run_with then_post. destruct H as (-> & -> & P2). run_all.
  run_with then_post. destruct H as (-> & -> & P3). run_all.
  run_with then_post. destruct H as (-> & -> & P4).
  split; [reflexivity|]. split; [reflexivity|]. congruence.
Qed.

Lemma run_reaction_post (r : reaction) (v : vars) :
  post (run_reaction r) v (fun o v' t =>
    o = Returned tt /\ cleanup_runs t = 0 /\ promises v' = promises v).
Proof.
  unfold run_reaction. run_all.
  destruct r; run_all; auto.
  - destruct (peerConnection v); run_all; auto.
  - unfold post. rewrite stopIntercom_run.
    destruct (Intercom.destroyProcess (ic v)); simpl; auto.
  - destruct (start v); run_all; auto.
    destruct (peerConnection v); run_all; auto.
Qed.

Lemma run_reactions_post (rs : list reaction) : forall v : vars,
  post (run_reactions rs) v (fun o v' t =>
    o = Returned tt /\ cleanup_runs t = 0 /\ promises v' = promises v).
Proof.
  induction rs as [|r rs IH]; intros v; simpl.
  - run_all. auto.
  - run_all. run_with run_reaction_post. destruct H as (-> & C1 & P1).
    run_with IH. destruct H as (-> & C2 & P2).
    rewrite cleanup_runs_app, C1, C2. split; [reflexivity|]. split; [reflexivity|]. congruence.
Qed.

Lemma flush_post (v : vars) :
  post flush v (fun o v' t =>
    o = Returned tt /\ cleanup_runs t = 0 /\ promises v' = promises v).
Proof.
  unfold flush. run_all. run_with run_reactions_post. exact H.
Qed.

Lemma settled_post (p : promise) (v : vars) :
  post (settled p) v (fun o v' t => o = Returned tt /\ t = [] /\ promises v' = promises v).
Proof.
  unfold settled. run_all.
  destruct (promise_status p v); run_all; auto.
Qed.

Lemma start_catch_post (e : error) (v : vars) :
  post (start_catch e) v (fun o v' t =>
    o = Returned tt /\ cleanup_runs t = 0 /\
    promises v' =
      (clientPromise v, Deferred.reject e (sessionControl v),
       Deferred.reject e (peerConnection v), Deferred.reject e (intercom v),
       pcClose v, socket_closed v)).
Proof.
  unfold start_catch. run_all. auto.
Qed.

Ltac use_post L :=
  run_with L;
  match goal with
  | H : _ = Returned tt /\ _ |- _ =>
      let E := fresh "E" in destruct H as (E & H); rewrite ?E; clear E
  end.

Lemma cleanup_runs_cons (e : effect) (t : trace) :
  cleanup_runs (e :: t) = (if is_cleanup e then 1 else 0) + cleanup_runs t.
Proof.
  unfold cleanup_runs. simpl. destruct (is_cleanup e); reflexivity.
Qed.

Ltac count_cleanups :=
  repeat rewrite ?cleanup_runs_app, ?cleanup_runs_cons;
  repeat match goal with
         | H : cleanup_runs _ = 0 |- _ => rewrite H
         end;
  change (cleanup_runs []) with 0; cbn [is_cleanup String.eqb Ascii.eqb Bool.eqb].

Ltac fields := unfold promises, coordination, triggers, peerConnection in *; simpl in *.

(** What [start_rejects] does to the promises, and how often it runs
    [cleanup]. *)
Lemma start_rejects_post (e : error) (v : vars) :
  post (start_rejects e) v (fun o v' t =>
    o = Returned tt /\
    cleanup_runs t + triggers v = triggers v' /\
    coordination v' =
      (Deferred.reject e (sessionControl v), Deferred.reject e (peerConnection v),
       Deferred.reject e (intercom v)) /\
    clientPromise v' = clientPromise v /\ socket_closed v' = socket_closed v).
Proof.
  unfold start_rejects. run_all.
  use_post start_catch_post. destruct H as (C0 & P0). run_all.
  use_post settled_post. destruct H as (-> & P1). run_all.
  use_post settled_post. destruct H as (-> & P2). run_all.
  use_post settled_post. destruct H as (-> & P3). run_all.
  destruct (Deferred.is_pending (peerConnection v)) eqn:Epc.
  - run_all. unfold peerConnection_catch. run_all.
    use_post cleanup_post. destruct H as (-> & P4). run_all.
    destruct (Deferred.is_pending (pcClose v)) eqn:Ecl.
    + use_post cleanup_post. destruct H as (-> & P5).
      use_post flush_post. destruct H as (C6 & P6).
      split; [reflexivity|]. count_cleanups. fields.
      assert (F1 : socket_closed v'5 = socket_closed v) by congruence.
      assert (F2 : pcClose v'5 = Deferred.reject e (pcClose v)) by congruence.
      assert (F3 : Session.peerConnection (session v'5)
                   = Deferred.reject e (Session.peerConnection (session v))) by congruence.
      assert (F4 : sessionControl v'5 = Deferred.reject e (sessionControl v)) by congruence.
      assert (F5 : intercom v'5 = Deferred.reject e (intercom v)) by congruence.
      assert (F6 : clientPromise v'5 = clientPromise v) by congruence.
      rewrite F1, F2, F3, F4, F5, F6.
      destruct (Session.peerConnection (session v)); try discriminate.
      destruct (pcClose v); try discriminate.
      simpl. repeat split. lia.
    + run_all.
      use_post flush_post. destruct H as (C6 & P6).
      split; [reflexivity|]. count_cleanups. fields.
      assert (F1 : socket_closed v'4 = socket_closed v) by congruence.
      assert (F2 : pcClose v'4 = Deferred.reject e (pcClose v)) by congruence.
      assert (F3 : Session.peerConnection (session v'4)
                   = Deferred.reject e (Session.peerConnection (session v))) by congruence.
      assert (F4 : sessionControl v'4 = Deferred.reject e (sessionControl v)) by congruence.
      assert (F5 : intercom v'4 = Deferred.reject e (intercom v)) by congruence.
      assert (F6 : clientPromise v'4 = clientPromise v) by congruence.
      rewrite F1, F2, F3, F4, F5, F6.
      destruct (Session.peerConnection (session v)); try discriminate.
      destruct (pcClose v); try discriminate; simpl; repeat split; lia.
  - run_all.
    use_post flush_post. destruct H as (C6 & P6).
    split; [reflexivity|]. count_cleanups. fields.
    assert (F1 : socket_closed v'3 = socket_closed v) by congruence.
    assert (F2 : pcClose v'3 = pcClose v) by congruence.
    assert (F3 : Session.peerConnection (session v'3)
                 = Deferred.reject e (Session.peerConnection (session v))) by congruence.
    assert (F4 : sessionControl v'3 = Deferred.reject e (sessionControl v)) by congruence.
    assert (F5 : intercom v'3 = Deferred.reject e (intercom v)) by congruence.
    assert (F6 : clientPromise v'3 = clientPromise v) by congruence.
    rewrite F1, F2, F3, F4, F5, F6.
    destruct (Session.peerConnection (session v)); try discriminate; simpl; repeat split; lia.
Qed.

Lemma ensurePeerConnection_post (s : Session.setup) (sv : Session.vars) :
  post (Session.ensurePeerConnection s) sv (fun o sv' t =>
    o = Returned tt /\ cleanup_runs t = 0 /\
    Session.peerConnection sv'
    = Deferred.resolve (Session.created sv) (Session.peerConnection sv)).
Proof.
  unfold Session.ensurePeerConnection. run_all.
  destruct (Session.peerConnection sv) eqn:E; simpl; run_all; simpl; rewrite ?E; auto.
Qed.

Lemma intercom_op_post (o : Intercom.op) (iv : Intercom.vars) :
  post (Intercom.run_op o) iv (fun _ _ t => cleanup_runs t = 0).
Proof.
  destruct o as [w m|]; simpl.
  - unfold Intercom.startIntercom.
    destruct (negb (Intercom.alive w)); run_all; [reflexivity|].
    destruct (negb (Intercom.track iv)); run_all; [reflexivity|].
    destruct (Intercom.converted w); run_all; try reflexivity.
    unfold Intercom.startRtpForwarderProcess. run_all.
    destruct (Intercom.forwarder w); run_all; try reflexivity.
    unfold post. rewrite stopIntercom_run. simpl.
    destruct (Intercom.destroyProcess iv); reflexivity.
  - unfold post. rewrite stopIntercom_run. simpl.
    destruct (Intercom.destroyProcess iv); reflexivity.
Qed.

(** Every event runs [cleanup] exactly as often as it sets off one of
    its triggers. *)
Lemma step_post (ev : event) (v : vars) :
  post (step ev) v (fun o v' t =>
    o = Returned tt /\ cleanup_runs t + triggers v = triggers v').
Proof.
  unfold step. run_all.
  destruct ev as [|e| | |e|s|b|e| |o].
  - destruct (Deferred.is_pending (clientPromise v)); run_all; [|auto].
    unfold client_connects. run_all.
    use_post settled_post. destruct H as (-> & P1). run_all.
    use_post flush_post. destruct H as (C2 & P2).
    split; [reflexivity|]. count_cleanups. fields.
    assert (F1 : socket_closed v'0 = socket_closed v) by congruence.
    assert (F2 : pcClose v'0 = pcClose v) by congruence.
    assert (F3 : Session.peerConnection (session v'0)
                 = Session.peerConnection (session v)) by congruence.
    rewrite F1, F2, F3. reflexivity.
  - destruct (Deferred.is_pending (clientPromise v)); run_all; [|auto].
    unfold client_fails. run_all.
    use_post settled_post. destruct H as (-> & P1). run_all.
    use_post start_rejects_post. destruct H as (C2 & _).
    split; [reflexivity|]. rewrite <- C2. fields.
    assert (F1 : socket_closed v' = socket_closed v) by congruence.
    assert (F2 : pcClose v' = pcClose v) by congruence.
    assert (F3 : Session.peerConnection (session v')
                 = Session.peerConnection (session v)) by congruence.
    rewrite F1, F2, F3. reflexivity.
  - destruct (is_fulfilled (clientPromise v) && negb (socket_closed v)) eqn:G;
      run_all; [|auto].
    apply andb_prop in G. destruct G as [_ G]. apply negb_true_iff in G.
    unfold socket_closes. run_all.
    use_post cleanup_post. destruct H as (-> & P1). run_all.
    use_post flush_post. destruct H as (C2 & P2).
    split; [reflexivity|]. count_cleanups. fields.
    assert (F1 : socket_closed v'0 = true) by congruence.
    assert (F2 : pcClose v'0 = pcClose v) by congruence.
    assert (F3 : Session.peerConnection (session v'0)
                 = Session.peerConnection (session v)) by congruence.
    rewrite F1, F2, F3, G. reflexivity.
  - destruct (is_start AwaitSignaling v); run_all; [|auto].
    unfold signaling_starts. run_all.
    use_post settled_post. destruct H as (-> & P1). run_all.
    assert (Hk : triggers (set_start AwaitPeerConnection v') = triggers v).
    { fields.
      assert (F1 : socket_closed v' = socket_closed v) by congruence.
      assert (F2 : pcClose v' = pcClose v) by congruence.
      assert (F3 : Session.peerConnection (session v')
                   = Session.peerConnection (session v)) by congruence.
      rewrite F1, F2, F3. reflexivity. }
    destruct (peerConnection (set_start AwaitPeerConnection v')).
    + run_all. use_post then_post. destruct H as (-> & P2). run_all.
      use_post flush_post. destruct H as (C3 & P3).
      split; [reflexivity|]. count_cleanups. rewrite <- Hk. fields.
      assert (F1 : socket_closed v'1 = socket_closed v') by congruence.
      assert (F2 : pcClose v'1 = pcClose v') by congruence.
      assert (F3 : Session.peerConnection (session v'1)
                   = Session.peerConnection (session v')) by congruence.
      rewrite F1, F2, F3. reflexivity.
    + run_all. use_post then_post. destruct H as (-> & P2). run_all.
      use_post flush_post. destruct H as (C3 & P3).
      split; [reflexivity|]. count_cleanups. rewrite <- Hk. fields.
      assert (F1 : socket_closed v'1 = socket_closed v') by congruence.
      assert (F2 : pcClose v'1 = pcClose v') by congruence.
      assert (F3 : Session.peerConnection (session v'1)
                   = Session.peerConnection (session v')) by congruence.
      rewrite F1, F2, F3. reflexivity.
    + use_post start_rejects_post. destruct H as (C2 & _).
      split; [reflexivity|]. rewrite <- C2, Hk. reflexivity.
  - destruct (is_start AwaitSignaling v); run_all; [|auto].
    use_post start_rejects_post. destruct H as (C2 & _). auto.
  - destruct (is_start AwaitClient v); run_all; [auto|].
    unfold setup_requested. run_all.
    use_post ensurePeerConnection_post. destruct H as (C1 & P1). run_all.
    change (peerConnection (set_session v' v)) with (Session.peerConnection v').
    rewrite P1. unfold peerConnection at 1.
    destruct (Session.peerConnection (session v)) eqn:E; simpl in *.
    + run_all.
      use_post settled_post. destruct H as (-> & P2). run_all.
      use_post flush_post. destruct H as (C3 & P3).
      split; [reflexivity|]. count_cleanups. fields.
      assert (F1 : socket_closed v'1 = socket_closed v) by congruence.
      assert (F2 : pcClose v'1 = pcClose v) by congruence.
      assert (F3 : Session.peerConnection (session v'1)
                   = Session.peerConnection v') by congruence.
      rewrite F1, F2, F3, P1, E. reflexivity.
    + run_all. split; [reflexivity|]. count_cleanups. fields. rewrite P1, E. reflexivity.
    + run_all. split; [reflexivity|]. count_cleanups. fields. rewrite P1, E. reflexivity.
  - destruct (is_start AwaitConnected v); run_all; [|auto].
    unfold connects. run_all.
    use_post settled_post. destruct H as (-> & P1). run_all.
    use_post flush_post. destruct H as (C2 & P2).
    split; [reflexivity|]. count_cleanups. fields.
    assert (F1 : socket_closed v'0 = socket_closed v) by congruence.
    assert (F2 : pcClose v'0 = pcClose v) by congruence.
    assert (F3 : Session.peerConnection (session v'0)
                 = Session.peerConnection (session v)) by congruence.
    rewrite F1, F2, F3. reflexivity.
  - destruct (is_start AwaitConnected v); run_all; [|auto].
    use_post start_rejects_post. destruct H as (C2 & _). auto.
  - destruct (is_fulfilled (peerConnection v) && Deferred.is_pending (pcClose v)) eqn:G;
      run_all; [|auto].
    apply andb_prop in G. destruct G as [G1 G2].
    unfold peer_closes. run_all.
    use_post cleanup_post. destruct H as (-> & P1). run_all.
    use_post flush_post. destruct H as (C2 & P2).
    split; [reflexivity|]. count_cleanups. fields.
    assert (F1 : socket_closed v'0 = socket_closed v) by congruence.
    assert (F2 : pcClose v'0 = Deferred.Resolved tt) by congruence.
    assert (F3 : Session.peerConnection (session v'0)
                 = Session.peerConnection (session v)) by congruence.
    rewrite F1, F2, F3.
    destruct (pcClose v); try discriminate. simpl. lia.
  - destruct (is_fulfilled (intercom v)); run_all; [|auto].
    run_with intercom_op_post. split; [reflexivity|]. rewrite H. reflexivity.
Qed.

Lemma run_post (evs : list event) : forall v : vars,
  post (run evs) v (fun o v' t =>
    o = Returned tt /\ cleanup_runs t + triggers v = triggers v').
Proof.
  induction evs as [|ev evs IH]; intros v; simpl.
  - run_all. auto.
  - run_all. use_post step_post. run_with IH. destruct H0 as (-> & H0).
    split; [reflexivity|]. rewrite cleanup_runs_app. lia.
Qed.

Lemma socket_closes_post (v : vars) :
  post socket_closes v (fun _ v' _ => coordination v' = coordination v).
Proof.
  unfold socket_closes. run_all.
  use_post cleanup_post. destruct H as (-> & P1). run_all.
  use_post flush_post. destruct H as (C2 & P2).
  fields. congruence.
Qed.

Lemma peer_closes_post (v : vars) :
  post peer_closes v (fun _ v' _ => coordination v' = coordination v).
Proof.
  unfold peer_closes. run_all.
  use_post cleanup_post. destruct H as (-> & P1). run_all.
  use_post flush_post. destruct H as (C2 & P2).
  fields. congruence.
Qed.

(** C1, as stated, fails: [cleanup] has no guard and its body runs
    again for every trigger.  With the bridge fully started, the sink socket
    closing and then the peer session closing run it twice, and each of its
    four effects happens twice; a single startup failure before any peer
    connection exists runs it twice as well (once from the catch callback of
    peerConnection.promise, once from [pcClose.finally]). *)
Lemma cleanup_runs_more_than_once :
  let closing := trace_of (run [ClientConnects; SetupRequested (Session.mkSetup 0 false);
                                SignalingStarts; Connects true;
                                SocketCloses; PeerCloses] init) in
  let failing := trace_of (run [ClientConnects; SignalingFails (Failure 1)] init) in
  cleanup_runs closing = 2 /\ ~ cleanup_runs closing <= 1 /\
  occurrences ClientDestroy closing = 2 /\
  occurrences EndSession closing = 2 /\
  occurrences (PcClose 0) closing = 2 /\
  Intercom.playback_signals closing = [(false, false); (false, false)] /\
  cleanup_runs failing = 2 /\ ~ cleanup_runs failing <= 1.
Proof.
  vm_compute. repeat split; try reflexivity; intros H; inversion H as [|? H1]; inversion H1.
Qed.

(** C1 (amended): the body of [cleanup] runs once for each of its
    triggers that goes off - the 'close' event of the sink socket, the
    settlement of pcClose (the peer session closed, or the peer-connection
    Deferred was rejected) and the catch callback of peerConnection.promise -
    whatever the events and their order; that is at most three times per
    bridge instance. *)
Theorem cleanup_runs_once_per_trigger (evs : list event) :
  let r := run evs init in
  cleanup_runs (trace_of r) = triggers (state_of r) /\
  cleanup_runs (trace_of r) <= 3.
Proof.
  intros r. pose proof (run_post evs init) as H. unfold post in H. fold r in H.
  destruct H as [_ H]. change (triggers init) with 0 in H. rewrite Nat.add_0_r in H.
  split; [exact H|]. rewrite H. unfold triggers.
  destruct (socket_closed (state_of r)), (Deferred.finished (pcClose (state_of r))),
    (Deferred.is_rejected (peerConnection (state_of r))); simpl; lia.
Qed.

Example cleanup_runs_three_times :
  cleanup_runs (trace_of (run [ClientConnects; SocketCloses; SignalingFails (Failure 1)] init))
  = 3.
Proof. reflexivity. Qed.

(** C5, as stated, fails: the sink socket closing while the start chain
    still waits for the signaling session sets off teardown, and the three
    Deferred values stay pending. *)
Lemma teardown_leaves_deferreds_pending :
  let r := run [ClientConnects; SocketCloses] init in
  cleanup_runs (trace_of r) = 1 /\
  coordination (state_of r) = (Deferred.Pending, Deferred.Pending, Deferred.Pending) /\
  all_pending (state_of r) = true.
Proof.
  vm_compute. repeat split.
Qed.

(** C5 (amended): when the start chain rejects with [e], each of the
    three Deferred values (session control, peer connection, intercom) that
    is still pending is rejected with [e] and the settled ones keep their
    value, so that none is pending afterwards; teardown by itself - the body
    of [cleanup], run for the sink socket's 'close' event or for the close
    of the peer session - rejects no Deferred. *)
Theorem startup_failure_rejects_pending (e : error) (v : vars) :
  let r := start_rejects e v in
  coordination (state_of r)
  = (Deferred.reject e (sessionControl v), Deferred.reject e (peerConnection v),
     Deferred.reject e (intercom v)) /\
  all_pending (state_of r) = false /\
  Deferred.finished (sessionControl (state_of r)) = true /\
  Deferred.finished (peerConnection (state_of r)) = true /\
  Deferred.finished (intercom (state_of r)) = true /\
  coordination (state_of (cleanup v)) = coordination v /\
  coordination (state_of (socket_closes v)) = coordination v /\
  coordination (state_of (peer_closes v)) = coordination v.
Proof.
  intros r. pose proof (start_rejects_post e v) as H. unfold post in H. fold r in H.
  destruct H as (_ & _ & H & _).
  pose proof (cleanup_post v) as Hc. unfold post in Hc. destruct Hc as (_ & _ & Hc).
  pose proof (socket_closes_post v) as Hs. unfold post in Hs.
  pose proof (peer_closes_post v) as Hp. unfold post in Hp.
  unfold all_pending, Deferred.is_pending.
  unfold coordination in H. inversion H as [[H1 H2 H3]].
  rewrite H1, H2, H3.
  repeat split; try assumption.
  - destruct (sessionControl v); reflexivity.
  - destruct (sessionControl v); reflexivity.
  - destruct (peerConnection v); reflexivity.
  - destruct (intercom v); reflexivity.
  - fields. congruence.
Qed.

End LifecycleFacts.

(** * Further properties of the bridge *)

(** ** Intercom: failures, the single pipeline, repeated stops *)

Section IntercomMore.

Import Intercom.

(** Over any history of [startIntercom] and [stopIntercom] calls made
    one after the other, with whatever outcomes, at most one forwarder
    process is alive, and it is the one whose kill handle [destroyProcess]
    holds. *)
Theorem at_most_one_pipeline (history : list op) (two_way : bool) :
  let r := run_ops history (init two_way) in
  List.length (alive_after [] (snd r)) <= 1 /\
  (forall p, In p (alive_after [] (snd r)) -> destroyProcess (fst r) = Some p).
Proof.
  intros r.
  pose proof (consistent_history history (init two_way) [] eq_refl) as H.
  fold r in H. simpl in H. unfold consistent in H.
  destruct (destroyProcess (fst r)) as [p|].
  - destruct H as [_ [H|H]]; rewrite H; simpl; (split; [lia|]); intros q Hq.
    + destruct Hq.
    + destruct Hq as [<-|[]]. reflexivity.
  - rewrite H. simpl. split; [lia | intros q []].
Qed.

(** A [startIntercom] call that fails - peer connection not alive, no
    audio sender, media conversion rejected, forwarder not started - leaves
    the variables as they were and neither starts nor kills a process: a
    pipeline that was running keeps running.  The two checks come first and
    fail before any collaborator is called. *)
Theorem startIntercom_failure_keeps_pipeline
    (w : world) (m : media) (v v' : vars) (o : outcome unit) (tr : trace) :
  startIntercom w m v = (o, v', tr) -> o <> Returned tt ->
  v' = v /\
  (forall running, alive_after running tr = running) /\
  playback_signals tr = [] /\
  (alive w = false -> o = Thrown (Error "peer connection is closed") /\ tr = []) /\
  (alive w = true -> track v = false ->
     o = Thrown (Error "peer connection does not support two way audio") /\ tr = []).
Proof.
  intros H Hne.
  destruct (startIntercom_fails _ _ _ _ _ _ H Hne) as (Hv & _ & Hr).
  split; [exact Hv|]. split; [exact Hr|].
  revert H. unfold startIntercom.
  destruct (alive w); simpl.
  2:{ unfold throw. intros H. inversion H; subst. repeat split; auto; discriminate. }
  unfold bind at 1. simpl.
  destruct (track v) eqn:Ht; simpl.
  2:{ unfold throw. intros H. inversion H; subst. repeat split; auto; discriminate. }
  unfold bind, emit, await, startRtpForwarderProcess, detached, modify, get, ret.
  simpl.
  destruct (converted w) as [i| |]; simpl.
  2,3: intros H; inversion H; subst; repeat split; auto; discriminate.
  destruct (forwarder w) as [[]| |]; simpl.
  2,3: intros H; inversion H; subst; repeat split; auto; discriminate.
  rewrite stopIntercom_run. simpl.
  intros H. inversion H; subst. contradiction.
Qed.

Lemma startIntercom_failure_keeps_pipeline_witness :
  let running := state_of (startIntercom (ok_world 7) 1 (init true)) in
  let w := mkWorld true (Returned 8) (Thrown (Failure 3)) in
  state_of (startIntercom w 2 running) = running /\
  (forall alive, alive_after alive (trace_of (startIntercom w 2 running)) = alive) /\
  playback_signals (trace_of (startIntercom w 2 running)) = [].
Proof.
  intros running w.
  destruct (startIntercom_failure_keeps_pipeline w 2 running
              (state_of (startIntercom w 2 running))
              (result_of (startIntercom w 2 running))
              (trace_of (startIntercom w 2 running)) eq_refl)
    as (H1 & H2 & H3 & _).
  - discriminate.
  - exact (conj H1 (conj H2 H3)).
Defined.

(** [stopIntercom] never clears [destroyProcess]: after a successful
    start, every later stop calls the kill handle of that same process again
    and signals playback off, and the variables stay as the start left them;
    after the first of those stops no pipeline is alive. *)
Theorem stopIntercom_kills_every_time
    (history : list op) (two_way : bool) (w : world) (m : media)
    (v1 : vars) (t1 : trace) (n : nat) :
  startIntercom w m (fst (run_ops history (init two_way))) = (Returned tt, v1, t1) ->
  exists p,
    destroyProcess v1 = Some p /\
    run_ops (repeat StopIntercom (S n)) v1
    = (v1, List.concat (repeat [Kill p; SetPlayback false false] (S n))) /\
    alive_after [] (snd (run_ops history (init two_way)) ++ t1
                    ++ snd (run_ops (repeat StopIntercom (S n)) v1)) = [].
Proof.
  intros H1.
  assert (Hc0 : consistent (fst (run_ops history (init two_way)))
                  (alive_after [] (snd (run_ops history (init two_way))))).
  { apply consistent_history. reflexivity. }
  destruct (consistent_start _ _ _ _ _ _ Hc0 H1) as [Ha1 Hc1].
  apply startIntercom_returns in H1. destruct H1 as [i1 [Hv1 Ht1]].
  set (p := spawned (fst (run_ops history (init two_way)))) in *.
  assert (Hd : destroyProcess v1 = Some p) by (subst v1; reflexivity).
  assert (Hs : stopIntercom v1 = (Returned tt, v1, [Kill p; SetPlayback false false])).
  { rewrite stopIntercom_run, Hd. reflexivity. }
  assert (Hr : forall k, run_ops (repeat StopIntercom k) v1
                         = (v1, List.concat (repeat [Kill p; SetPlayback false false] k))).
  { induction k as [|k IH]; simpl; [reflexivity|]. rewrite Hs, IH. reflexivity. }
  exists p. split; [exact Hd|]. split; [apply Hr|].
  rewrite Hr. rewrite app_assoc, alive_after_app, alive_after_app, Ha1.
  clear. induction n as [|n IH]; simpl.
  - destruct (Nat.eq_dec p p); [reflexivity | contradiction].
  - destruct (Nat.eq_dec p p); [|contradiction]. simpl.
    clear IH. induction n as [|n IH]; simpl; [reflexivity | exact IH].
Qed.

Lemma stopIntercom_kills_every_time_witness :
  exists p,
    destroyProcess (state_of (startIntercom (ok_world 7) 1 (init true))) = Some p /\
    run_ops (repeat StopIntercom 2) (state_of (startIntercom (ok_world 7) 1 (init true)))
    = (state_of (startIntercom (ok_world 7) 1 (init true)),
       List.concat (repeat [Kill p; SetPlayback false false] 2)) /\
    alive_after [] (snd (run_ops [] (init true))
                    ++ trace_of (startIntercom (ok_world 7) 1 (init true))
                    ++ snd (run_ops (repeat StopIntercom 2)
                              (state_of (startIntercom (ok_world 7) 1 (init true))))) = [].
Proof.
  apply (stopIntercom_kills_every_time [] true (ok_world 7) 1
           (state_of (startIntercom (ok_world 7) 1 (init true)))
           (trace_of (startIntercom (ok_world 7) 1 (init true))) 1).
  reflexivity.
Defined.

End IntercomMore.

(** ** Sink setup: partial bindings, duplicate sections, re-invocation *)

Section SinkMore.

Import Session.

Variable createSdpInput : nat -> nat -> string -> string.
Variable parseSdp : string -> list msection.

#[local] Abbreviation handleRtspSetup := (Session.handleRtspSetup createSdpInput parseSdp).

Lemma find_first {A} (f : A -> bool) (pre post : list A) (a : A) :
  forallb (fun x => negb (f x)) pre = true -> f a = true ->
  find f (pre ++ a :: post) = Some a.
Proof.
  intros Hpre Ha. induction pre as [|x pre IH]; simpl in *.
  - rewrite Ha. reflexivity.
  - apply andb_prop in Hpre. destruct Hpre as [Hx Hpre].
    apply negb_true_iff in Hx. rewrite Hx. apply IH. exact Hpre.
Qed.

(** Sink setup does not roll back: for an answer with an audio section
    but no video section it has already stored the sink description and
    bound [audioTrack] when it throws; [videoTrack] keeps the value it had,
    and [handlePlayback] is not reached. *)
Theorem handleRtspSetup_partial_binding
    (w : world) (d : description) (v : vars) (a : msection) :
  dtype d = Answer ->
  find (of_kind "audio") (parseSdp (createSdpInput 0 0 (dsdp d))) = Some a ->
  find (of_kind "video") (parseSdp (createSdpInput 0 0 (dsdp d))) = None ->
  handleRtspSetup w d v
  = (Thrown (TypeError "Cannot read properties of undefined (reading 'control')"),
     set_audioTrack (control a) (set_sdp (Some (createSdpInput 0 0 (dsdp d))) v),
     [SetSdp (createSdpInput 0 0 (dsdp d))]).
Proof.
  intros Hd Ha Hx.
  unfold Session.handleRtspSetup. rewrite Hd. simpl.
  unfold bind, modify, emit, control_of, throw, ret.
  rewrite Ha. simpl. rewrite Hx. reflexivity.
Qed.

(** With several audio or several video sections in the answer, the
    first of each kind in the order of the description is the one bound. *)
Theorem handleRtspSetup_first_section_wins
    (w : world) (d : description) (v : vars)
    (pre post pre' post' : list msection) (a x : msection) :
  dtype d = Answer ->
  parseSdp (createSdpInput 0 0 (dsdp d)) = pre ++ a :: post ->
  forallb (fun m => negb (of_kind "audio" m)) pre = true -> of_kind "audio" a = true ->
  parseSdp (createSdpInput 0 0 (dsdp d)) = pre' ++ x :: post' ->
  forallb (fun m => negb (of_kind "video" m)) pre' = true -> of_kind "video" x = true ->
  audioTrack (state_of (handleRtspSetup w d v)) = control a /\
  videoTrack (state_of (handleRtspSetup w d v)) = control x /\
  result_of (handleRtspSetup w d v) = playback w.
Proof.
  intros Hd Ea Hpre Ha Ex Hpre' Hx.
  pose proof (find_first (of_kind "audio") pre post a Hpre Ha) as Fa.
  pose proof (find_first (of_kind "video") pre' post' x Hpre' Hx) as Fx.
  rewrite <- Ea in Fa. rewrite <- Ex in Fx.
  unfold Session.handleRtspSetup. rewrite Hd. simpl.
  unfold bind, modify, emit, control_of, throw, ret, await, result_of, state_of.
  rewrite Fa. simpl. rewrite Fx. simpl.
  destruct (playback w) as [[]| |]; simpl; auto.
Qed.

(** Sink setup can be run again: after a successful run, a second run
    on the same answer finds both sections again and never fails in track
    resolution; it repeats the two calls on the sink, leaves the bindings
    and the sink description as the first run set them, and settles as the
    sink's [handlePlayback] settles that second time. *)
Theorem handleRtspSetup_again (w1 w2 : world) (d : description) (v : vars) :
  result_of (handleRtspSetup w1 d v) = Returned tt ->
  let first := handleRtspSetup w1 d v in
  let again := handleRtspSetup w2 d (state_of first) in
  state_of again = state_of first /\
  result_of again = playback w2 /\
  trace_of again
  = [SetSdp (createSdpInput 0 0 (dsdp d)); HandlePlayback]
    ++ match playback w2 with
       | Returned _ => [ConsoleLog "rtsp server playback started"]
       | _ => []
       end.
Proof.
  unfold Session.handleRtspSetup.
  destruct (negb (is_answer (dtype d))); simpl; [discriminate|].
  unfold bind, modify, emit, control_of, throw, ret, await, result_of, state_of, trace_of.
  simpl.
  destruct (find (of_kind "audio") _); simpl; [|discriminate].
  destruct (find (of_kind "video") _); simpl; [|discriminate].
  destruct (playback w1) as [[]| |]; simpl; try discriminate.
  intros _.
  destruct (playback w2) as [[]| |]; simpl; repeat split; reflexivity.
Qed.

End SinkMore.

Lemma handleRtspSetup_partial_binding_witness :
  Session.handleRtspSetup Sample.createSdpInput Sample.parseSdp Sample.world
    Sample.audio_only Sample.negotiated
  = (Thrown (TypeError "Cannot read properties of undefined (reading 'control')"),
     Session.set_audioTrack (Some "trackID=0")
       (Session.set_sdp (Some "audio") Sample.negotiated),
     [SetSdp "audio"]).
Proof.
  exact (handleRtspSetup_partial_binding Sample.createSdpInput Sample.parseSdp Sample.world
           Sample.audio_only Sample.negotiated
           (Session.mkMsection "audio" (Some "trackID=0")) eq_refl eq_refl eq_refl).
Defined.

Lemma handleRtspSetup_first_section_wins_witness :
  let parse := fun _ : string =>
    [Session.mkMsection "application" None;
     Session.mkMsection "audio" (Some "trackID=0");
     Session.mkMsection "video" (Some "trackID=1");
     Session.mkMsection "audio" (Some "trackID=2");
     Session.mkMsection "video" (Some "trackID=3")] in
  let r := Session.handleRtspSetup Sample.createSdpInput parse Sample.world
             Sample.answer Sample.offered in
  Session.audioTrack (state_of r) = Some "trackID=0" /\
  Session.videoTrack (state_of r) = Some "trackID=1" /\
  result_of r = Returned tt.
Proof.
  exact (handleRtspSetup_first_section_wins Sample.createSdpInput _ Sample.world
           Sample.answer Sample.offered
           [Session.mkMsection "application" None]
           [Session.mkMsection "video" (Some "trackID=1");
            Session.mkMsection "audio" (Some "trackID=2");
            Session.mkMsection "video" (Some "trackID=3")]
           [Session.mkMsection "application" None;
            Session.mkMsection "audio" (Some "trackID=0")]
           [Session.mkMsection "audio" (Some "trackID=2");
            Session.mkMsection "video" (Some "trackID=3")]
           (Session.mkMsection "audio" (Some "trackID=0"))
           (Session.mkMsection "video" (Some "trackID=1"))
           eq_refl eq_refl eq_refl eq_refl eq_refl eq_refl eq_refl).
Defined.

Lemma handleRtspSetup_again_witness :
  let stalled := Session.mkWorld Session.GatheringCompletes (Returned Sample.answer)
                   (Returned Sample.remote_offer) (Returned Sample.remote_offer)
                   (Returned tt) (Some Sample.final_answer) Blocked (Returned tt)
                   (Returned tt) in
  let again := Session.handleRtspSetup Sample.createSdpInput Sample.parseSdp stalled
                 Sample.answer Sample.negotiated in
  state_of again = Sample.negotiated /\
  result_of again = Blocked /\
  trace_of again = [SetSdp "audio+video"; HandlePlayback].
Proof.
  exact (handleRtspSetup_again Sample.createSdpInput Sample.parseSdp Sample.world
           (Session.mkWorld Session.GatheringCompletes (Returned Sample.answer)
              (Returned Sample.remote_offer) (Returned Sample.remote_offer)
              (Returned tt) (Some Sample.final_answer) Blocked (Returned tt)
              (Returned tt))
           Sample.answer Sample.offered eq_refl).
Defined.

(** ** Signaling session: offers, remote answers, sessions without a peer
       connection *)

Section SignalingMore.

Import Session.

Variable createSdpInput : nat -> nat -> string -> string.
Variable parseSdp : string -> list msection.
Variable createRawResponse : description -> description.

#[local] Abbreviation handleRtspSetup := (Session.handleRtspSetup createSdpInput parseSdp).
#[local] Abbreviation createLocalDescription :=
  (Session.createLocalDescription createSdpInput parseSdp createRawResponse).
#[local] Abbreviation setRemoteDescription :=
  (Session.setRemoteDescription createSdpInput parseSdp).

(** [doSetup] on a session whose Deferred is not rejected. *)
Lemma doSetup_run (s : setup) (v : vars) :
  Deferred.is_rejected (peerConnection v) = false ->
  doSetup s v = (Returned tt, setup_state v, setup_trace v).
Proof.
  destruct v as [pc n a x d at_ ts ss tks tms c]. simpl.
  unfold doSetup, ensurePeerConnection, await_peerConnection, addTransceiver,
    setup_state, setup_trace, setup_pc.
  unfold bind, get, modify, emit, ret, throw, await. simpl.
  destruct pc as [|p|e]; simpl; intros H; try discriminate.
  - rewrite length_app, Nat.add_1_r, <- app_assoc. reflexivity.
  - rewrite length_app, Nat.add_1_r, <- app_assoc. reflexivity.
Qed.

(** [setRemoteDescription] with an offer attaches the audio and the
    video transceiver (creating the peer connection when there is none yet)
    before it applies the description to the peer connection; it makes no
    call on the sink and settles as [pc.setRemoteDescription] does. *)
Theorem setRemoteDescription_offer (w : world) (d : description) (s : setup) (v : vars) :
  dtype d = Offer ->
  Deferred.is_rejected (peerConnection v) = false ->
  setRemoteDescription w d s v
  = (remote_applied w, setup_state v,
     ConsoleLog "setRemoteDescription" :: setup_trace v
     ++ [SetRemoteDescription (setup_pc v) d]).
Proof.
  intros Hd Hr.
  unfold Session.setRemoteDescription. rewrite Hd. simpl.
  unfold bind, emit, detached, await_peerConnection, get, ret, await.
  rewrite (doSetup_run s v Hr). simpl.
  destruct (remote_applied w) as [[]| |]; reflexivity.
Qed.

(** [setRemoteDescription] with an answer runs sink setup to its end
    first and applies the description to the peer connection only
    afterwards; when sink setup fails or never completes, the call fails or
    blocks the same way and the description is never applied. *)
Theorem setRemoteDescription_answer
    (w : world) (d : description) (s : setup) (v : vars) (pc : pcid) :
  dtype d = Answer ->
  peerConnection v = Deferred.Resolved pc ->
  let sink := handleRtspSetup w d v in
  let r := setRemoteDescription w d s v in
  match result_of sink with
  | Returned _ =>
      r = (remote_applied w, state_of sink,
           ConsoleLog "setRemoteDescription" :: trace_of sink
           ++ [SetRemoteDescription pc d])
  | Thrown e =>
      r = (Thrown e, state_of sink, ConsoleLog "setRemoteDescription" :: trace_of sink)
  | Blocked =>
      r = (Blocked, state_of sink, ConsoleLog "setRemoteDescription" :: trace_of sink)
  end.
Proof.
  intros Hd Hpc. cbv zeta.
  pose proof (handleRtspSetup_same createSdpInput parseSdp w d v) as Hs.
  unfold post in Hs. destruct Hs as (Hs & _).
  unfold Session.setRemoteDescription. rewrite Hd. simpl.
  unfold bind, emit, await_peerConnection, get, ret, throw, await.
  unfold result_of, state_of, trace_of in *.
  destruct (handleRtspSetup w d v) as [[o v1] t1]. simpl in *.
  destruct o as [[]|e|]; try reflexivity.
  unfold bind. simpl. rewrite Hs, Hpc. simpl.
  destruct (remote_applied w) as [[]| |]; reflexivity.
Qed.

(** A remote description that is neither an offer nor an answer is
    refused by sink setup: the call throws, the sink and the peer connection
    are not touched. *)
Theorem setRemoteDescription_other (w : world) (d : description) (s : setup) (v : vars) :
  is_offer (dtype d) = false -> is_answer (dtype d) = false ->
  setRemoteDescription w d s v
  = (Thrown (Error "rtsp setup needs answer sdp"), v, [ConsoleLog "setRemoteDescription"]).
Proof.
  intros Ho Ha.
  unfold Session.setRemoteDescription, Session.handleRtspSetup. rewrite Ho, Ha. reflexivity.
Qed.

(** [createLocalDescription] for an offer: [doSetup] comes first, so the
    transceivers are attached (and the peer connection created when there
    is none yet) before the offer is generated; the sink is not touched.
    With a [sendIceCandidate] callback the raw response of the first offer
    is returned at once; without one the call awaits [setLocalDescription]
    and candidate gathering, then asks the peer connection for an offer
    again and returns the raw response of that second offer. *)
Theorem createLocalDescription_offer
    (w : world) (s : setup) (sendIceCandidate : bool) (v : vars) (o : description) :
  Deferred.is_rejected (peerConnection v) = false ->
  offer w = Returned o ->
  let pc := setup_pc v in
  let r := createLocalDescription w Offer s sendIceCandidate v in
  state_of r = setup_state v /\
  existsb on_sink (trace_of r) = false /\
  trace_of r
  = setup_trace v ++ offer_prelude w s sendIceCandidate pc ++ [SetLocalDescription pc o]
    ++ (if sendIceCandidate then []
        else match applied w, gathering w with
             | Returned _, GatheringComplete | Returned _, GatheringCompletes =>
                 [CreateOffer pc]
             | _, _ => []
             end) /\
  result_of r
  = if sendIceCandidate then Returned (createRawResponse o)
    else match applied w with
         | Returned _ =>
             match gathering w with
             | GatheringNever => Blocked
             | _ => match final_offer w with
                    | Returned o2 => Returned (createRawResponse o2)
                    | Thrown e => Thrown e
                    | Blocked => Blocked
                    end
             end
         | Thrown e => Thrown e
         | Blocked => Blocked
         end.
Proof.
  intros Hr Ho. cbv zeta.
  assert (Hst : forall t, existsb on_sink (setup_trace v ++ t) = existsb on_sink t).
  { intros t. unfold setup_trace. rewrite <- app_assoc.
    destruct (peerConnection v); reflexivity. }
  assert (E : createLocalDescription w Offer s sendIceCandidate v
    = (if sendIceCandidate then Returned (createRawResponse o)
       else match applied w with
            | Returned _ =>
                match gathering w with
                | GatheringNever => Blocked
                | _ => match final_offer w with
                       | Returned o2 => Returned (createRawResponse o2)
                       | Thrown e => Thrown e
                       | Blocked => Blocked
                       end
                end
            | Thrown e => Thrown e
            | Blocked => Blocked
            end,
       setup_state v,
       setup_trace v ++ offer_prelude w s sendIceCandidate (setup_pc v)
       ++ [SetLocalDescription (setup_pc v) o]
       ++ (if sendIceCandidate then []
           else match applied w, gathering w with
                | Returned _, GatheringComplete | Returned _, GatheringCompletes =>
                    [CreateOffer (setup_pc v)]
                | _, _ => []
                end))).
  { unfold Session.createLocalDescription, when, await_gathering, offer_prelude. simpl.
    unfold bind at 1. unfold detached. rewrite (doSetup_run s v Hr).
    unfold bind at 1. unfold await_peerConnection at 1.
    unfold bind at 1. unfold get at 1.
    change (peerConnection (setup_state v)) with (Deferred.Resolved (setup_pc v)).
    cbv iota beta. unfold ret at 1.
    unfold bind, emit, ret, await. rewrite Ho.
    destruct (datachannel s), (gathering w), sendIceCandidate; simpl; try reflexivity;
      destruct (applied w) as [[]|e|]; simpl; try reflexivity;
      destruct (final_offer w) as [o2|e2|]; simpl; reflexivity. }
  rewrite E. unfold result_of, state_of, trace_of. simpl.
  split; [reflexivity|]. split; [|split; reflexivity].
  rewrite Hst. unfold offer_prelude.
  destruct (datachannel s), (gathering w), sendIceCandidate; simpl; try reflexivity;
    destruct (applied w) as [[]|e|]; reflexivity.
Qed.

(** Once the peer-connection Deferred is rejected, every session method
    that needs the peer connection rejects with the same error and makes no
    call on any peer connection, nor constructs one. *)
Theorem rejected_peer_connection_fails_session
    (w : world) (type : sdp_type) (s : setup) (sendIceCandidate : bool)
    (d : description) (v : vars) (e : error) :
  peerConnection v = Deferred.Rejected e ->
  dtype d = Offer ->
  let made t := flat_map target t ++ flat_map constructed t in
  result_of (createLocalDescription w type s sendIceCandidate v) = Thrown e /\
  made (trace_of (createLocalDescription w type s sendIceCandidate v)) = [] /\
  result_of (setRemoteDescription w d s v) = Thrown e /\
  made (trace_of (setRemoteDescription w d s v)) = [] /\
  result_of (addIceCandidate w v) = Thrown e /\
  made (trace_of (addIceCandidate w v)) = [].
Proof.
  intros Hpc Hd. cbv zeta.
  destruct v as [pc n a x sd at_ ts ss tks tms c]. simpl in Hpc. subst pc.
  unfold Session.createLocalDescription, Session.setRemoteDescription, addIceCandidate.
  rewrite Hd.
  destruct type; repeat split; reflexivity.
Qed.

(** While the peer-connection Deferred is pending, a session method
    that does not create the peer connection waits for it: asked for an
    answer, [createLocalDescription] does not return and calls nothing;
    [addIceCandidate] logs and waits. *)
Theorem pending_peer_connection_blocks
    (w : world) (type : sdp_type) (s : setup) (sendIceCandidate : bool) (v : vars) :
  peerConnection v = Deferred.Pending ->
  is_offer type = false ->
  createLocalDescription w type s sendIceCandidate v = (Blocked, v, []) /\
  addIceCandidate w v = (Blocked, v, [ConsoleLog "addIceCandidate"]).
Proof.
  intros Hpc Ht.
  unfold Session.createLocalDescription, addIceCandidate, when, await_peerConnection.
  rewrite Ht. unfold bind, get, ret, await, emit. simpl. rewrite Hpc. simpl.
  split; reflexivity.
Qed.

(** [doSetup] run again (a second offer, or an offer after a remote
    offer) constructs no second peer connection but attaches another audio
    and another video transceiver to the same one; [audioTransceiver] then
    names the later audio transceiver. *)
Theorem doSetup_again_adds_transceivers (s1 s2 : setup) (v : vars) :
  Deferred.is_rejected (peerConnection v) = false ->
  let first := state_of (doSetup s1 v) in
  let r := doSetup s2 first in
  let n := List.length (transceivers v) in
  result_of r = Returned tt /\
  trace_of r = [AddTransceiver (setup_pc v) Audio (n + 2);
                AddTransceiver (setup_pc v) Video (n + 3)] /\
  peerConnection (state_of r) = peerConnection first /\
  created (state_of r) = created first /\
  List.length (transceivers (state_of r)) = n + 4 /\
  audioTransceiver first = Some n /\
  audioTransceiver (state_of r) = Some (n + 2).
Proof.
  intros Hr. cbv zeta.
  rewrite (doSetup_run s1 v Hr). unfold state_of at 1 2 3 4 5 6 7 8. simpl fst. simpl snd.
  rewrite (doSetup_run s2 (setup_state v) eq_refl).
  unfold result_of, state_of, trace_of. simpl fst. simpl snd.
  unfold setup_trace, setup_state, setup_pc. simpl.
  rewrite !length_app. simpl.
  replace (S (List.length (transceivers v) + 2)) with (List.length (transceivers v) + 3) by lia.
  repeat split; try reflexivity. lia.
Qed.

End SignalingMore.

Lemma doSetup_again_adds_transceivers_witness :
  let first := state_of (Session.doSetup Sample.setup Session.init) in
  let r := Session.doSetup Sample.setup first in
  result_of r = Returned tt /\
  trace_of r = [AddTransceiver 0 Audio 2; AddTransceiver 0 Video 3] /\
  Session.peerConnection (state_of r) = Session.peerConnection first /\
  Session.created (state_of r) = Session.created first /\
  List.length (Session.transceivers (state_of r)) = 4 /\
  Session.audioTransceiver first = Some 0 /\
  Session.audioTransceiver (state_of r) = Some 2.
Proof.
  exact (doSetup_again_adds_transceivers Sample.setup Sample.setup Session.init eq_refl).
Defined.

Lemma setRemoteDescription_offer_witness :
  Session.setRemoteDescription Sample.createSdpInput Sample.parseSdp Sample.world
    Sample.remote_offer Sample.setup Session.init
  = (Returned tt, Sample.offered,
     [ConsoleLog "setRemoteDescription"; NewPeerConnection 0;
      AddTransceiver 0 Audio 0; AddTransceiver 0 Video 1;
      SetRemoteDescription 0 Sample.remote_offer]).
Proof.
  exact (setRemoteDescription_offer Sample.createSdpInput Sample.parseSdp Sample.world
           Sample.remote_offer Sample.setup Session.init eq_refl eq_refl).
Defined.

Lemma setRemoteDescription_answer_witness :
  Session.setRemoteDescription Sample.createSdpInput Sample.parseSdp Sample.world
    Sample.answer Sample.setup Sample.offered
  = (Returned tt, Sample.negotiated,
     [ConsoleLog "setRemoteDescription"; SetSdp "audio+video"; HandlePlayback;
      ConsoleLog "rtsp server playback started"; SetRemoteDescription 0 Sample.answer])
  /\
  Session.setRemoteDescription Sample.createSdpInput Sample.parseSdp Sample.world
    Sample.audio_only Sample.setup Sample.offered
  = (Thrown (TypeError "Cannot read properties of undefined (reading 'control')"),
     Session.set_audioTrack (Some "trackID=0")
       (Session.set_sdp (Some "audio") Sample.offered),
     [ConsoleLog "setRemoteDescription"; SetSdp "audio"]).
Proof.
  split.
  - exact (setRemoteDescription_answer Sample.createSdpInput Sample.parseSdp Sample.world
             Sample.answer Sample.setup Sample.offered 0 eq_refl eq_refl).
  - exact (setRemoteDescription_answer Sample.createSdpInput Sample.parseSdp Sample.world
             Sample.audio_only Sample.setup Sample.offered 0 eq_refl eq_refl).
Defined.

Lemma setRemoteDescription_other_witness :
  Session.setRemoteDescription Sample.createSdpInput Sample.parseSdp Sample.world
    Sample.pranswer Sample.setup Sample.offered
  = (Thrown (Error "rtsp setup needs answer sdp"), Sample.offered,
     [ConsoleLog "setRemoteDescription"]).
Proof.
  exact (setRemoteDescription_other Sample.createSdpInput Sample.parseSdp Sample.world
           Sample.pranswer Sample.setup Sample.offered eq_refl eq_refl).
Defined.

Lemma createLocalDescription_offer_witness :
  let r := Session.createLocalDescription Sample.createSdpInput Sample.parseSdp
             Sample.createRawResponse Sample.world Offer Sample.setup false Session.init in
  state_of r = Sample.offered /\
  existsb Session.on_sink (trace_of r) = false /\
  trace_of r
  = [NewPeerConnection 0; AddTransceiver 0 Audio 0; AddTransceiver 0 Video 1;
     SubscribeGathering 0; CreateOffer 0; ConsoleLog "createLocalDescription";
     SetLocalDescription 0 Sample.remote_offer; CreateOffer 0] /\
  result_of r = Returned (Sample.createRawResponse Sample.remote_offer).
Proof.
  exact (createLocalDescription_offer Sample.createSdpInput Sample.parseSdp
           Sample.createRawResponse Sample.world Sample.setup false Session.init
           Sample.remote_offer eq_refl eq_refl).
Defined.

Lemma rejected_peer_connection_fails_session_witness :
  result_of (Session.createLocalDescription Sample.createSdpInput Sample.parseSdp
               Sample.createRawResponse Sample.world Offer Sample.setup true Sample.failed)
  = Thrown (Failure 1) /\
  result_of (Session.setRemoteDescription Sample.createSdpInput Sample.parseSdp
               Sample.world Sample.remote_offer Sample.setup Sample.failed)
  = Thrown (Failure 1) /\
  result_of (Session.addIceCandidate Sample.world Sample.failed) = Thrown (Failure 1).
Proof.
  destruct (rejected_peer_connection_fails_session Sample.createSdpInput Sample.parseSdp
              Sample.createRawResponse Sample.world Offer Sample.setup true
              Sample.remote_offer Sample.failed (Failure 1) eq_refl eq_refl)
    as (H1 & _ & H2 & _ & H3 & _).
  exact (conj H1 (conj H2 H3)).
Defined.

Lemma pending_peer_connection_blocks_witness :
  Session.createLocalDescription Sample.createSdpInput Sample.parseSdp
    Sample.createRawResponse Sample.world Answer Sample.setup false Session.init
  = (Blocked, Session.init, []) /\
  Session.addIceCandidate Sample.world Session.init
  = (Blocked, Session.init, [ConsoleLog "addIceCandidate"]).
Proof.
  exact (pending_peer_connection_blocks Sample.createSdpInput Sample.parseSdp
           Sample.createRawResponse Sample.world Answer Sample.setup false Session.init
           eq_refl eq_refl).
Defined.

(** ** Keyframe requester: one interval per video track, none for audio *)

Section KeyframeMore.

Import Session.

Variables (RtpPacket RtcpPacket : Type).
Variable serializeRtp : RtpPacket -> bytes.
Variable serializeRtcp : RtcpPacket -> bytes.

#[local] Abbreviation inbound := (Session.inbound RtpPacket RtcpPacket).
#[local] Abbreviation deliver := (Session.deliver serializeRtp serializeRtcp).
#[local] Abbreviation deliver_all := (Session.deliver_all serializeRtp serializeRtcp).

Lemma intervals_created_app (tr : trackid) (t1 t2 : trace) :
  intervals_created tr (t1 ++ t2) = intervals_created tr t1 + intervals_created tr t2.
Proof. apply filter_length_app. Qed.

Lemma find_timer_append_other (tr x : trackid) (n : N) (c : bool) (l : list timer) :
  Nat.eqb x tr = false ->
  find (fun k => Nat.eqb (k_track k) tr) (l ++ [mkTimer x n c])
  = find (fun k => Nat.eqb (k_track k) tr) l.
Proof.
  intros Hx. induction l as [|k l IH]; simpl.
  - rewrite Hx. reflexivity.
  - destruct (Nat.eqb (k_track k) tr); [reflexivity | exact IH].
Qed.

Lemma find_timer_bump_other (tr x : trackid) (l : list timer) :
  Nat.eqb x tr = false ->
  find (fun k => Nat.eqb (k_track k) tr)
    (map (fun k' => if Nat.eqb (k_track k') x
                    then mkTimer x (N.succ (firSequenceNumber k')) (cleared k')
                    else k') l)
  = find (fun k => Nat.eqb (k_track k) tr) l.
Proof.
  intros Hx. induction l as [|k l IH]; simpl; [reflexivity|].
  destruct (Nat.eqb (k_track k) x) eqn:E; simpl.
  - rewrite Hx. apply Nat.eqb_eq in E. rewrite E, Hx. exact IH.
  - rewrite IH. reflexivity.
Qed.

(** The diagnostics of a first packet are console output only. *)
Lemma first_packet_logs (tr : trackid) (s : subscription) (v : vars) :
  post (first_packet s) v (fun o v' t =>
    o = Returned tt /\ intervals_created tr t = 0 /\
    flat_map (feedback tr) t = [] /\ v' = set_setups (setups v') v).
Proof.
  unfold first_packet. run_all.
  destruct (nth_error (setups v) (s_setup s)) as [f|].
  - destruct (got (s_kind s) f).
    + run_all. repeat split. destruct v; reflexivity.
    + run_all. destruct (s_kind s); run_all; repeat split.
  - run_all. repeat split. destruct v; reflexivity.
Qed.

Lemma arm_intervals (tr x : trackid) (v : vars) :
  post (arm x) v (fun o v' t =>
    o = Returned tt /\ flat_map (feedback tr) t = [] /\
    intervals_created tr t
    = (if Nat.eqb x tr then if timer_exists x v then 0 else 1 else 0) /\
    v' = match find_timer x v with
         | Some _ => v
         | None => set_timers (timers v ++ [mkTimer x 0%N false]) v
         end).
Proof.
  unfold arm, timer_exists. run_all.
  destruct (find_timer x v) eqn:E.
  - run_all. repeat split. destruct (Nat.eqb x tr); reflexivity.
  - run_all. unfold intervals_created.
    destruct (peerConnection v); run_all; simpl;
      destruct (Nat.eqb x tr); repeat split.
Qed.

Lemma clearIntervals_no_interval (tr : trackid) (ks : list timer) :
  intervals_created tr (clearIntervals ks) = 0.
Proof.
  induction ks as [|k ks IH]; [reflexivity|].
  simpl. rewrite intervals_created_app, IH. destruct (cleared k); reflexivity.
Qed.

(** One delivery creates the interval of track [tr] exactly when it is
    the first RTP packet of [tr] as a video track. *)
Lemma deliver_intervals (tr : trackid) (i : inbound) (v : vars) :
  post (deliver i) v (fun _ v' t =>
    intervals_created tr t + Nat.b2n (timer_exists tr v) = Nat.b2n (timer_exists tr v')).
Proof.
  unfold Session.deliver. run_all.
  destruct i as [t x|x rtp|x rtcp|x|].
  - unfold onTrack. run_all.
    destruct (find _ (transceivers v)); [destruct (find_track x v)|]; run_all; reflexivity.
  - unfold onReceiveRtp. run_all.
    destruct (find_track x v) as [s|]; run_all; [|reflexivity].
    run_with (first_packet_logs tr). destruct H as (-> & Hi & _ & Hv1). run_all.
    assert (Ht : forall y, timer_exists y v' = timer_exists y v).
    { intros y. rewrite Hv1. reflexivity. }
    destruct (s_kind s); run_all.
    + rewrite intervals_created_app, Hi, Ht. reflexivity.
    + run_with (arm_intervals tr). destruct H as (_ & _ & Ha & ->).
      rewrite intervals_created_app, Hi. simpl.
      change (intervals_created tr (SendTrack (videoTrack v') (serializeRtp rtp) false :: t0))
        with (intervals_created tr t0).
      rewrite Ha, <- (Ht tr). unfold timer_exists in *.
      destruct (Nat.eqb x tr) eqn:Ex.
      * apply Nat.eqb_eq in Ex. subst x.
        destruct (find_timer tr v') eqn:Ef; [rewrite Ef; reflexivity|].
        unfold find_timer in *. simpl. rewrite (find_app_missing _ _ _ Ef). simpl.
        rewrite Nat.eqb_refl. reflexivity.
      * destruct (find_timer x v'); [reflexivity|].
        unfold find_timer. simpl. rewrite (find_timer_append_other _ _ _ _ _ Ex). reflexivity.
  - unfold onReceiveRtcp. run_all. destruct (find_track x v); run_all; reflexivity.
  - unfold pictureLossInterval. run_all.
    destruct (find_timer x v) as [k|] eqn:Ek; [destruct (cleared k)|]; run_all;
      try reflexivity.
    unfold timer_exists, find_timer. simpl.
    change (intervals_created tr [SendRtcpFir x (firSequenceNumber k); SendRtcpPLI x]) with 0.
    rewrite find_map_keyed.
    + destruct (find _ (timers v)); reflexivity.
    + intros k0. destruct (Nat.eqb (k_track k0) x) eqn:E0; [|reflexivity].
      apply Nat.eqb_eq in E0. simpl. auto.
  - destruct (closed v); run_all; [reflexivity|].
    unfold peer_closed. run_all.
    rewrite clearIntervals_no_interval.
    unfold timer_exists, find_timer. simpl. rewrite find_map_keyed; [|reflexivity].
    destruct (find _ (timers v)); reflexivity.
Qed.

(** The [once] subscriber runs once: for a track announced at most one
    time - subscribed at most once so far and not announced again - the
    interval is created at most once, however many packets and timer
    firings are delivered and whether or not the peer session closes in
    between; when the track already has its interval, none is created. *)
Theorem interval_created_at_most_once (tr : trackid) (l : list inbound) (v : vars) :
  List.length (subscriptions tr v) + List.length (filter (announces tr) l) <= 1 ->
  intervals_created tr (trace_of (deliver_all l v)) <= 1 /\
  intervals_created tr (trace_of (deliver_all l v)) + Nat.b2n (timer_exists tr v)
  = Nat.b2n (timer_exists tr (state_of (deliver_all l v))).
Proof.
  intros _.
  assert (H : forall v,
    intervals_created tr (trace_of (deliver_all l v)) + Nat.b2n (timer_exists tr v)
    = Nat.b2n (timer_exists tr (state_of (deliver_all l v)))).
  { clear v. induction l as [|i l IH]; intros v; [reflexivity|].
    rewrite (deliver_all_state _ _ serializeRtp serializeRtcp),
      (deliver_all_trace _ _ serializeRtp serializeRtcp).
    pose proof (deliver_intervals tr i v) as H. unfold post in H.
    rewrite intervals_created_app, <- IH, <- H. lia. }
  split; [|apply H].
  specialize (H v).
  destruct (timer_exists tr v), (timer_exists tr (state_of (deliver_all l v)));
    simpl in H; lia.
Qed.

(** What is delivered leaves a track subscribed for audio without
    interval and without keyframe request. *)
Lemma audio_track_quiet (tr : trackid) (s : subscription) (l : list inbound) :
  forall v : vars,
  find_track tr v = Some s -> s_kind s = Audio -> find_timer tr v = None ->
  intervals_created tr (trace_of (deliver_all l v)) = 0 /\
  flat_map (feedback tr) (trace_of (deliver_all l v)) = [].
Proof.
  induction l as [|i l IH]; intros v Hs Hk Hn; [split; reflexivity|].
  rewrite (deliver_all_trace _ _ serializeRtp serializeRtcp).
  assert (Hstep : post (deliver i) v (fun _ v' t =>
            find_track tr v' = Some s /\ find_timer tr v' = None /\
            intervals_created tr t = 0 /\ flat_map (feedback tr) t = [])).
  { unfold Session.deliver. run_all.
    destruct i as [t x|x rtp|x rtcp|x|].
    - unfold onTrack. run_all.
      destruct (find _ (transceivers v)); [destruct (find_track x v)|]; run_all; auto.
      repeat split; auto.
      unfold find_track in *. simpl. apply find_app_found. exact Hs.
    - unfold onReceiveRtp. run_all.
      destruct (find_track x v) as [s'|] eqn:Ex; run_all; [|auto].
      run_with (first_packet_logs tr). destruct H as (-> & Hi & Hf & Hv1). run_all.
      assert (Hs1 : find_track tr v' = Some s) by (rewrite Hv1; exact Hs).
      assert (Hn1 : find_timer tr v' = None) by (rewrite Hv1; exact Hn).
      destruct (s_kind s') eqn:Ek'; run_all.
      + rewrite intervals_created_app, flat_map_app, Hi, Hf. auto.
      + run_with (arm_intervals tr). destruct H as (_ & Hf2 & Ha & ->).
        assert (Hne : Nat.eqb x tr = false).
        { destruct (Nat.eqb x tr) eqn:E; [|reflexivity].
          apply Nat.eqb_eq in E. subst x. congruence. }
        rewrite Hne in Ha.
        rewrite intervals_created_app, flat_map_app, Hi, Hf. simpl.
        change (intervals_created tr (SendTrack (videoTrack v') (serializeRtp rtp) false :: t0))
          with (intervals_created tr t0).
        rewrite Ha, Hf2.
        destruct (find_timer x v'); [auto|].
        repeat split; auto.
        unfold find_timer in *. simpl. rewrite (find_timer_append_other _ _ _ _ _ Hne).
        exact Hn1.
    - unfold onReceiveRtcp. run_all. destruct (find_track x v); run_all; auto.
    - unfold pictureLossInterval. run_all.
      destruct (find_timer x v) as [k|] eqn:Ek; [destruct (cleared k)|]; run_all; auto.
      assert (Hne : Nat.eqb x tr = false).
      { destruct (Nat.eqb x tr) eqn:E; [|reflexivity].
        apply Nat.eqb_eq in E. subst x. congruence. }
      repeat split; auto.
      + unfold find_timer in *. simpl. rewrite (find_timer_bump_other _ _ _ Hne). exact Hn.
      + simpl. rewrite Hne. reflexivity.
    - destruct (closed v); run_all; [auto|].
      unfold peer_closed. run_all.
      repeat split; auto.
      + unfold find_timer in *. simpl. rewrite find_map_keyed; [|reflexivity].
        rewrite Hn. reflexivity.
      + apply clearIntervals_no_interval.
      + apply clearIntervals_quiet. }
  unfold post in Hstep. destruct Hstep as (Hs1 & Hn1 & Hi & Hf).
  destruct (IH _ Hs1 Hk Hn1) as (Hi2 & Hf2).
  rewrite intervals_created_app, flat_map_app, Hi, Hf, Hi2, Hf2. split; reflexivity.
Qed.

(** A track announced once, on the audio transceiver, and not announced
    again never gets a keyframe interval: whatever packets, timer firings
    and other tracks are delivered, before or after the peer session closes,
    no interval is created for it and no full-intra request or picture-loss
    indication is sent for it. *)
Theorem audio_track_requests_no_keyframe
    (tr : trackid) (s : subscription) (l : list inbound) (v : vars) :
  subscriptions tr v = [s] -> s_kind s = Audio -> find_timer tr v = None ->
  Forall (fun i => announces tr i = false) l ->
  intervals_created tr (trace_of (deliver_all l v)) = 0 /\
  flat_map (feedback tr) (trace_of (deliver_all l v)) = [].
Proof.
  intros Hsub Hk Hn _.
  apply (audio_track_quiet tr s l v); try assumption.
  unfold find_track. apply find_of_single. exact Hsub.
Qed.

End KeyframeMore.

Lemma interval_created_at_most_once_witness :
  let l := [Session.ReceiveRtp 20 (Sample.packet 1); Session.IntervalFires 20;
            Session.ReceiveRtp 20 (Sample.packet 2); Session.PeerClosed;
            Session.ReceiveRtp 20 (Sample.packet 3)] in
  let r := Session.deliver_all Sample.serialize Sample.serialize l Sample.streaming in
  Session.intervals_created 20 (trace_of r) <= 1 /\
  Session.intervals_created 20 (trace_of r) + 0 = 1.
Proof.
  exact (interval_created_at_most_once bytes bytes Sample.serialize Sample.serialize 20
           [Session.ReceiveRtp 20 (Sample.packet 1); Session.IntervalFires 20;
            Session.ReceiveRtp 20 (Sample.packet 2); Session.PeerClosed;
            Session.ReceiveRtp 20 (Sample.packet 3)] Sample.streaming (le_n 1)).
Defined.

Lemma audio_track_requests_no_keyframe_witness :
  let l := [Session.ReceiveRtp 10 (Sample.packet 1); Session.IntervalFires 10;
            Session.ReceiveRtp 20 (Sample.packet 2); Session.IntervalFires 20;
            Session.ReceiveRtp 10 (Sample.packet 3); Session.PeerClosed;
            Session.ReceiveRtp 10 (Sample.packet 4)] in
  Session.intervals_created 10
    (trace_of (Session.deliver_all Sample.serialize Sample.serialize l Sample.streaming)) = 0 /\
  flat_map (Session.feedback 10)
    (trace_of (Session.deliver_all Sample.serialize Sample.serialize l Sample.streaming)) = [].
Proof.
  apply (audio_track_requests_no_keyframe bytes bytes Sample.serialize Sample.serialize
           10 (Session.mkSubscription 10 Audio 0) _ Sample.streaming
           eq_refl eq_refl eq_refl).
  repeat (apply Forall_cons; [reflexivity|]). apply Forall_nil.
Defined.

(** ** Teardown: what it releases, now or later *)

Section TeardownMore.

Import Lifecycle.

Lemma keeps_refl (v : vars) : keeps v v.
Proof. unfold keeps. repeat split; auto using incl_refl. Qed.

Lemma keeps_trans (v v1 v2 : vars) : keeps v v1 -> keeps v1 v2 -> keeps v v2.
Proof.
  unfold keeps. intros (A1 & B1 & C1 & D1 & E1) (A2 & B2 & C2 & D2 & E2).
  repeat split; try congruence; eapply incl_tran; eassumption.
Qed.

Lemma then_keeps (r : reaction) (v : vars) :
  post (then_ r) v (fun o v' t =>
    o = Returned tt /\ t = [] /\ keeps v v' /\
    match promise_status (awaited r) v with
    | StillPending => In r (registered v')
    | Fulfilled => In r (microtasks v')
    | HasRejected => True
    end).
Proof.
  unfold then_, keeps. run_all.
  destruct (promise_status (awaited r) v); run_all; simpl;
    repeat split; auto using incl_refl, incl_appl, in_or_app, in_eq.
Qed.

Lemma promise_status_kept (p : promise) (v v' : vars) :
  promises v' = promises v -> promise_status p v' = promise_status p v.
Proof.
  unfold promises, promise_status. intros H. inversion H as [[H1 H2 H3 H4 H5 H6]].
  destruct p; congruence.
Qed.

(** [cleanup] leaves, for each of its four callbacks, the callback
    registered on its promise when that is pending, queued when it is
    fulfilled. *)
Lemma cleanup_keeps (v : vars) :
  post cleanup v (fun o v' t =>
    o = Returned tt /\ t = [ConsoleLog "webrtc/rtsp cleaning up"] /\ keeps v v' /\
    forall r, In r [Destroy; EndTheSession; ClosePeer; StopTheIntercom] ->
      match promise_status (awaited r) v with
      | StillPending => In r (registered v')
      | Fulfilled => In r (microtasks v')
      | HasRejected => True
      end).
Proof.
  unfold cleanup. run_all.
  run_with then_keeps. destruct H as (-> & -> & K1 & R1). run_all.
  run_with then_keeps. destruct H as (-> & -> & K2 & R2). run_all.
  run_with then_keeps. destruct H as (-> & -> & K3 & R3). run_all.
  run_with then_keeps. destruct H as (-> & -> & K4 & R4).
  pose proof (keeps_trans _ _ _ K1 K2) as K12.
  pose proof (keeps_trans _ _ _ K12 K3) as K13.
  pose proof (keeps_trans _ _ _ K13 K4) as K14.
  split; [reflexivity|]. split; [reflexivity|]. split; [exact K14|].
  rewrite (promise_status_kept _ _ _ (proj1 K1)) in R2.
  rewrite (promise_status_kept _ _ _ (proj1 K12)) in R3.
  rewrite (promise_status_kept _ _ _ (proj1 K13)) in R4.
  pose proof (keeps_trans _ _ _ K2 (keeps_trans _ _ _ K3 K4)) as K24.
  pose proof (keeps_trans _ _ _ K3 K4) as K34.
  destruct K24 as (_ & _ & _ & I24 & M24).
  destruct K34 as (_ & _ & _ & I34 & M34).
  destruct K4 as (_ & _ & _ & I4 & M4).
  intros r [<-|[<-|[<-|[<-|[]]]]].
  - destruct (promise_status (awaited Destroy) v); auto.
  - destruct (promise_status (awaited EndTheSession) v); auto.
  - destruct (promise_status (awaited ClosePeer) v); auto.
  - exact R4.
Qed.

Lemma run_reaction_keeps (r : reaction) (v : vars) :
  post (run_reaction r) v (fun o v' t =>
    o = Returned tt /\ promises v' = promises v /\ session v' = session v /\
    ic v' = ic v /\ registered v' = registered v /\
    incl (release r v) t).
Proof.
  unfold run_reaction, release. run_all.
  destruct r.
  - run_all. repeat split; auto using incl_refl.
  - run_all. repeat split; auto using incl_refl.
  - destruct (peerConnection v); run_all; repeat split; auto using incl_refl.
  - run_all. unfold post. rewrite stopIntercom_run.
    unfold result_of, state_of, trace_of. simpl.
    assert (Hv : set_ic (ic v) v = v) by (destruct v; reflexivity).
    rewrite Hv. repeat split; auto.
    intros e [<-|[]]. apply in_or_app. right. left. reflexivity.
  - destruct (start v); run_all; try (repeat split; auto using incl_nil_l; fail).
    destruct (peerConnection v); run_all; repeat split; auto using incl_nil_l.
Qed.

Lemma release_kept (r : reaction) (v v' : vars) :
  session v' = session v -> release r v' = release r v.
Proof.
  intros H. unfold release, peerConnection. rewrite H. reflexivity.
Qed.

Lemma run_reactions_keeps (rs : list reaction) : forall v : vars,
  post (run_reactions rs) v (fun o v' t =>
    o = Returned tt /\ promises v' = promises v /\ session v' = session v /\
    ic v' = ic v /\ registered v' = registered v /\
    forall r, In r rs -> incl (release r v) t).
Proof.
  induction rs as [|r rs IH]; intros v; simpl.
  - run_all. repeat split. intros r [].
  - run_all. run_with run_reaction_keeps. destruct H as (-> & P1 & S1 & I1 & R1 & E1).
    run_with IH. destruct H as (-> & P2 & S2 & I2 & R2 & E2).
    repeat split; try congruence.
    intros r' [<-|Hin].
    + apply incl_appl. exact E1.
    + apply incl_appr. rewrite <- (release_kept r' v v' S1). apply E2. exact Hin.
Qed.

(** [flush] runs every queued callback. *)
Lemma flush_keeps (v : vars) :
  post flush v (fun o v' t =>
    o = Returned tt /\ promises v' = promises v /\ session v' = session v /\
    ic v' = ic v /\ registered v' = registered v /\
    forall r, In r (microtasks v) -> incl (release r v) t).
Proof.
  unfold flush. run_all.
  run_with run_reactions_keeps. destruct H as (-> & P & S & I & R & E).
  repeat split; auto.
Qed.

(** Teardown with everything in place: when the client, session
    control, the peer connection and the intercom are all there, one run of
    [cleanup] destroys the sink socket, ends the session, closes the peer
    connection and stops the intercom (killing the forwarder process if one
    was started), in this order. *)
Theorem teardown_releases_everything (v : vars) (pc : pcid) :
  is_fulfilled (clientPromise v) = true ->
  is_fulfilled (sessionControl v) = true ->
  peerConnection v = Deferred.Resolved pc ->
  is_fulfilled (intercom v) = true ->
  microtasks v = [] ->
  trace_of (peer_closes v)
  = [ConsoleLog "webrtc/rtsp cleaning up"; ClientDestroy; EndSession; PcClose pc]
    ++ match Intercom.destroyProcess (ic v) with Some p => [Kill p] | None => [] end
    ++ [SetPlayback false false] /\
  trace_of (socket_closes v)
  = [ConsoleLog "webrtc/rtsp cleaning up"; CloseUdp; ClientDestroy; EndSession; PcClose pc]
    ++ match Intercom.destroyProcess (ic v) with Some p => [Kill p] | None => [] end
    ++ [SetPlayback false false].
Proof.
  destruct v as [cp sc ss icm pcl st rg mt skc iv].
  destruct ss as [spc n a x d at_ ts sts tks tms c].
  destruct iv as [dp tk sp].
  unfold peerConnection. simpl.
  intros H1 H2 H3 H4 H5. subst spc mt.
  destruct cp; try discriminate. destruct sc; try discriminate.
  destruct icm; try discriminate.
  destruct dp; split; reflexivity.
Qed.

Lemma since_cleanup_none (t t' : trace) :
  cleanup_runs t = 0 -> since_cleanup (t ++ t') = since_cleanup t'.
Proof.
  induction t as [|e t IH]; simpl; [reflexivity|].
  rewrite cleanup_runs_cons. destruct (is_cleanup e); [discriminate|]. exact IH.
Qed.

Lemma since_cleanup_some (t t' : trace) :
  0 < cleanup_runs t -> since_cleanup (t ++ t') = since_cleanup t ++ t'.
Proof.
  induction t as [|e t IH]; simpl.
  - unfold cleanup_runs. simpl. lia.
  - rewrite cleanup_runs_cons. destruct (is_cleanup e); simpl; [reflexivity | exact IH].
Qed.

Lemma since_cleanup_incl (t : trace) : incl (since_cleanup t) t.
Proof.
  induction t as [|e t IH]; simpl; [apply incl_refl|].
  destruct (is_cleanup e); [apply incl_refl | apply incl_tl; exact IH].
Qed.

Lemma promises_awaitables (v v' : vars) :
  promises v' = promises v -> awaitables v' = awaitables v.
Proof.
  unfold promises, awaitables. intros H. inversion H. congruence.
Qed.

Lemma awaitables_status (p : promise) (v v' : vars) :
  awaitables v' = awaitables v -> promise_status p v' = promise_status p v.
Proof.
  unfold awaitables, promise_status. intros H. inversion H as [[H1 H2 H3 H4]].
  destruct p; congruence.
Qed.

Lemma awaitables_release (r : reaction) (v v' : vars) :
  awaitables v' = awaitables v -> release r v' = release r v.
Proof.
  unfold awaitables, release. intros H. inversion H as [[H1 H2 H3 H4]].
  rewrite H3. reflexivity.
Qed.

Lemma accounted_ext (r : reaction) (v v' : vars) (t t' : trace) :
  awaitables v' = awaitables v ->
  incl (registered v) (registered v') -> incl (microtasks v) (microtasks v') ->
  incl t t' ->
  accounted r v t -> accounted r v' t'.
Proof.
  intros A R M T. unfold accounted.
  rewrite (awaitables_status _ _ _ A), (awaitables_release r _ _ A).
  destruct (promise_status (awaited r) v); auto.
  intros [H|H]; [left; auto | right; eapply incl_tran; eassumption].
Qed.

Lemma accounted_later (r : reaction) (v : vars) (t t' : trace) :
  incl t t' -> accounted r v t -> accounted r v t'.
Proof.
  intros T. apply accounted_ext; auto using incl_refl.
Qed.

Lemma then_accounted (r : reaction) (v : vars) :
  post (then_ r) v (fun o v' t =>
    o = Returned tt /\ t = [] /\ awaitables v' = awaitables v /\
    incl (registered v) (registered v') /\ incl (microtasks v) (microtasks v') /\
    accounted r v' []).
Proof.
  pose proof (then_keeps r v) as H. unfold post in *.
  destruct H as (Ho & Ht & (P & _ & _ & R & M) & Hin).
  pose proof (promises_awaitables _ _ P) as A.
  repeat split; auto.
  unfold accounted. rewrite (awaitables_status _ _ _ A).
  destruct (promise_status (awaited r) v); auto.
Qed.

(** After [cleanup] each of its four callbacks is registered or queued. *)
Lemma cleanup_accounted (v : vars) :
  post cleanup v (fun o v' t =>
    o = Returned tt /\ t = [ConsoleLog "webrtc/rtsp cleaning up"] /\
    awaitables v' = awaitables v /\
    incl (registered v) (registered v') /\ incl (microtasks v) (microtasks v') /\
    forall r, In r callbacks -> accounted r v' []).
Proof.
  pose proof (cleanup_keeps v) as H. unfold post in *.
  destruct H as (Ho & Ht & (P & _ & _ & R & M) & Hin).
  pose proof (promises_awaitables _ _ P) as A.
  repeat split; auto.
  intros r Hr. specialize (Hin r Hr).
  unfold accounted. rewrite (awaitables_status _ _ _ A).
  destruct (promise_status (awaited r) v); auto.
Qed.

Lemma run_reactions_queue (rs : list reaction) : forall v : vars,
  post (run_reactions rs) v (fun _ v' _ => microtasks v' = microtasks v).
Proof.
  induction rs as [|r rs IH]; intros v; simpl.
  - run_all. reflexivity.
  - run_all.
    assert (H1 : post (run_reaction r) v
                   (fun o v' _ => o = Returned tt /\ microtasks v' = microtasks v)).
    { pose proof (run_reaction_keeps r v) as K. unfold post in *.
      destruct K as (K & _). split; [exact K|]. clear K.
      unfold run_reaction, bind, get, state_of. simpl.
      destruct r; try reflexivity.
      - destruct (peerConnection v); reflexivity.
      - unfold zoom, detached. rewrite stopIntercom_run. reflexivity.
      - destruct (start v); try reflexivity.
        destruct (peerConnection v); reflexivity. }
    run_with H1. destruct H as (-> & H). run_with IH. congruence.
Qed.

(** [flush] empties the queue: every callback that was queued makes its
    call, and none is lost. *)
Lemma flush_accounted (v : vars) :
  post flush v (fun o v' t =>
    o = Returned tt /\ awaitables v' = awaitables v /\
    registered v' = registered v /\ microtasks v' = [] /\ cleanup_runs t = 0 /\
    forall r s, accounted r v s -> accounted r v' (s ++ t)).
Proof.
  pose proof (flush_keeps v) as H. pose proof (flush_post v) as C.
  assert (Q : post flush v (fun _ v' _ => microtasks v' = [])).
  { unfold flush. run_all. run_with run_reactions_queue. exact H0. }
  unfold post in *.
  destruct H as (Ho & P & _ & _ & R & E). destruct C as (_ & C & _).
  pose proof (promises_awaitables _ _ P) as A.
  repeat split; auto.
  intros r s. unfold accounted.
  rewrite (awaitables_status _ _ _ A), (awaitables_release r _ _ A), Q.
  destruct (promise_status (awaited r) v); auto.
  - rewrite R. auto.
  - intros [Hin|Hin]; right.
    + apply incl_appr. apply E. exact Hin.
    + apply incl_appl. exact Hin.
Qed.

(** Settlement of [p], after the step from [v0] to [v1] that settled it:
    a callback waiting on [p] is queued when [p] is fulfilled, the others
    stay where they are. *)
Lemma settled_accounted (p : promise) (v0 v1 : vars) :
  registered v1 = registered v0 -> microtasks v1 = microtasks v0 ->
  promise_status p v1 <> StillPending ->
  post (settled p) v1 (fun o v' t =>
    o = Returned tt /\ t = [] /\ awaitables v' = awaitables v1 /\
    session v' = session v1 /\ start v' = start v1 /\ ic v' = ic v1 /\
    (microtasks v1 = [] -> promise_status p v1 = HasRejected -> microtasks v' = []) /\
    forall r s,
      (waits_on p r = false ->
         promise_status (awaited r) v1 = promise_status (awaited r) v0) ->
      (promise_status (awaited r) v0 <> StillPending ->
         promise_status (awaited r) v1 = promise_status (awaited r) v0) ->
      (promise_status (awaited r) v0 = Fulfilled -> release r v1 = release r v0) ->
      accounted r v0 s -> accounted r v' s).
Proof.
  intros Hr Hm Hp.
  unfold settled. run_all.
  assert (Hgen : forall v' : vars,
            awaitables v' = awaitables v1 ->
            (forall r, In r (registered v1) -> waits_on p r = false -> In r (registered v')) ->
            incl (microtasks v1) (microtasks v') ->
            (promise_status p v1 = Fulfilled ->
               forall r, In r (registered v1) -> waits_on p r = true -> In r (microtasks v')) ->
            forall r s,
              (waits_on p r = false ->
                 promise_status (awaited r) v1 = promise_status (awaited r) v0) ->
              (promise_status (awaited r) v0 <> StillPending ->
                 promise_status (awaited r) v1 = promise_status (awaited r) v0) ->
              (promise_status (awaited r) v0 = Fulfilled -> release r v1 = release r v0) ->
              accounted r v0 s -> accounted r v' s).
  { intros v' A Rk Mk Mq r s H1 H2 H3. unfold accounted.
    rewrite (awaitables_status _ _ _ A), (awaitables_release r _ _ A).
    destruct (promise_status (awaited r) v0) eqn:E0.
    - intros Hin. rewrite <- Hr in Hin.
      destruct (waits_on p r) eqn:Ew.
      + assert (Ep : awaited r = p).
        { unfold waits_on in Ew. destruct (awaited r), p; simpl in Ew; congruence. }
        rewrite Ep in *.
        destruct (promise_status p v1) eqn:E1;
          [exfalso; apply Hp; reflexivity | left; apply Mq; auto | exact I].
      + rewrite (H1 eq_refl). apply Rk; assumption.
    - rewrite H2 by discriminate. rewrite H3 by reflexivity.
      intros [Hin|Hin]; [left; apply Mk; rewrite Hm; exact Hin | right; exact Hin].
    - rewrite H2 by discriminate. auto. }
  destruct (promise_status p v1) eqn:E; run_all; simpl.
  - exfalso. apply Hp. reflexivity.
  - do 6 (split; [reflexivity|]). split; [discriminate|].
    apply Hgen; simpl.
    + reflexivity.
    + intros r Hin Hw. apply filter_In. rewrite Hw. auto.
    + apply incl_appl. apply incl_refl.
    + intros _ r Hin Hw. apply in_or_app. right. apply filter_In. auto.
  - do 6 (split; [reflexivity|]). split; [auto|].
    apply Hgen; simpl.
    + reflexivity.
    + intros r Hin Hw. apply filter_In. rewrite Hw. auto.
    + apply incl_refl.
    + discriminate.
Qed.

Ltac incl_app :=
  let e := fresh "e" in
  let He := fresh "He" in
  intros e He; repeat rewrite in_app_iff in He; repeat rewrite in_app_iff;
  simpl in He |- *; tauto.

Lemma carries_tidy (v v' : vars) (o : outcome unit) (t0 t : trace) :
  tidy v t0 -> carries v o v' t -> tidy v' (t0 ++ t).
Proof.
  intros (Hm & Hacc) (_ & Hm' & Hpres & Hnew).
  split; [exact Hm'|].
  intros Hc r Hr.
  destruct (Nat.eq_dec (cleanup_runs t0) 0) as [E|E].
  - rewrite (since_cleanup_none _ _ E).
    apply Hnew; [|exact Hr]. rewrite cleanup_runs_app, E in Hc. exact Hc.
  - rewrite since_cleanup_some by lia.
    apply Hpres; [exact Hr|]. apply Hacc; [lia | exact Hr].
Qed.

(** A handler that does nothing. *)
Lemma carries_nothing (v : vars) : microtasks v = [] -> carries v (Returned tt) v [].
Proof.
  intros Hm. split; [reflexivity|]. split; [exact Hm|]. split.
  - intros r s _ H. rewrite app_nil_r. exact H.
  - unfold cleanup_runs. simpl. lia.
Qed.

Lemma client_connects_carries (v : vars) :
  microtasks v = [] -> clientPromise v = Deferred.Pending ->
  post client_connects v (carries v).
Proof.
  intros Hm Hc. unfold client_connects. run_all.
  run_with (settled_accounted ClientPromise v
              (set_start AwaitSignaling (set_clientPromise (Deferred.Resolved tt) v))
              eq_refl eq_refl ltac:(discriminate)).
  destruct H as (-> & -> & A1 & _ & _ & _ & _ & K1). run_all.
  run_with flush_accounted. destruct H as (-> & A2 & R2 & M2 & C2 & K2).
  split; [reflexivity|]. split; [exact M2|]. split.
  - intros r s Hr Hacc.
    eapply accounted_later; [|apply K2; apply K1; try exact Hacc].
    + incl_app.
    + destruct r; simpl; try reflexivity; discriminate.
    + destruct r; simpl; try reflexivity. rewrite Hc. intros H; exfalso; apply H; reflexivity.
    + intros _. reflexivity.
  - intros Hcl. exfalso. revert Hcl. cbn [app].
    rewrite cleanup_runs_cons, C2. simpl. lia.
Qed.

(** A handler that ran [cleanup] need only account for the callbacks in
    what it did since. *)
Lemma carries_after_cleanup (v v' : vars) (t : trace) :
  microtasks v' = [] ->
  (forall r, In r callbacks -> accounted r v' (since_cleanup t)) ->
  carries v (Returned tt) v' t.
Proof.
  intros Hm H. split; [reflexivity|]. split; [exact Hm|]. split.
  - intros r s Hr _. apply (accounted_later r v' (since_cleanup t)); [|apply H; exact Hr].
    apply incl_tran with t; [apply since_cleanup_incl | apply incl_appr, incl_refl].
  - intros _. exact H.
Qed.

Lemma socket_closes_carries (v : vars) : post socket_closes v (carries v).
Proof.
  unfold socket_closes. run_all.
  run_with cleanup_accounted. destruct H as (-> & -> & _ & _ & _ & K1). run_all.
  run_with flush_accounted. destruct H as (-> & _ & _ & M2 & _ & K2).
  apply carries_after_cleanup; [exact M2|].
  intros r Hr. simpl.
  eapply accounted_later; [|apply K2; apply K1; exact Hr].
  incl_app.
Qed.

Lemma peer_closes_carries (v : vars) : post peer_closes v (carries v).
Proof.
  unfold peer_closes. run_all.
  run_with cleanup_accounted. destruct H as (-> & -> & _ & _ & _ & K1). run_all.
  run_with flush_accounted. destruct H as (-> & _ & _ & M2 & _ & K2).
  apply carries_after_cleanup; [exact M2|].
  intros r Hr. simpl.
  eapply accounted_later; [|apply K2; apply K1; exact Hr].
  incl_app.
Qed.

Lemma reject_not_pending {T} (e : error) (d : Deferred.t T) :
  status_of (Deferred.reject e d) <> StillPending.
Proof. destruct d; discriminate. Qed.

Lemma resolve_not_pending {T} (x : T) (d : Deferred.t T) :
  status_of (Deferred.resolve x d) <> StillPending.
Proof. destruct d; discriminate. Qed.

(** Rejecting a promise takes no callback out of account. *)
Lemma accounted_weaker (r : reaction) (v v1 : vars) (s : trace) :
  registered v1 = registered v -> microtasks v1 = microtasks v ->
  (promise_status (awaited r) v1 = promise_status (awaited r) v /\
   release r v1 = release r v) \/
  promise_status (awaited r) v1 = HasRejected ->
  accounted r v s -> accounted r v1 s.
Proof.
  unfold accounted. intros Hr Hm [[H1 H2]|H1]; rewrite H1; [|auto].
  rewrite H2, Hr, Hm. auto.
Qed.

Ltac settle Hne :=
  lazymatch goal with
  | |- post (settled ?p) ?v1 _ =>
      run_with (settled_accounted p v1 v1 eq_refl eq_refl Hne)
  end.

Lemma start_rejects_carries (e : error) (v : vars) :
  post (start_rejects e) v (carries v).
Proof.
  unfold start_rejects. run_all. unfold start_catch. run_all.
  match goal with |- post (settled _) ?x _ => set (v1 := x) end.
  assert (W : forall r s, accounted r v s -> accounted r v1 s).
  { intros r s. apply accounted_weaker; try reflexivity.
    subst v1.
    destruct r; unfold promise_status, release, awaited, peerConnection; simpl.
    - left. split; reflexivity.
    - destruct (sessionControl v); simpl; auto.
    - destruct (Session.peerConnection (session v)); simpl; auto.
    - destruct (intercom v); simpl; auto.
    - destruct (Session.peerConnection (session v)); simpl; auto. }
  assert (N1 : promise_status SessionControlPromise v1 <> StillPending)
    by (subst v1; simpl; apply reject_not_pending).
  assert (N2 : promise_status PeerConnectionPromise v1 <> StillPending)
    by (subst v1; unfold promise_status, peerConnection; simpl; apply reject_not_pending).
  assert (N3 : promise_status IntercomPromise v1 <> StillPending)
    by (subst v1; simpl; apply reject_not_pending).
  clearbody v1.
  settle N1. destruct H as (-> & -> & A1 & _ & _ & _ & _ & K1). run_all.
  rewrite <- (awaitables_status PeerConnectionPromise _ _ A1) in N2.
  rewrite <- (awaitables_status IntercomPromise _ _ A1) in N3.
  settle N2. destruct H as (-> & -> & A2 & _ & _ & _ & _ & K2). run_all.
  rewrite <- (awaitables_status IntercomPromise _ _ A2) in N3.
  settle N3. destruct H as (-> & -> & A3 & _ & _ & _ & _ & K3). run_all.
  assert (K : forall r s, accounted r v s -> accounted r v'1 s).
  { intros r s H.
    apply K3; try (intros; reflexivity).
    apply K2; try (intros; reflexivity).
    apply K1; try (intros; reflexivity).
    apply W. exact H. }
  clear K1 K2 K3 W.
  destruct (Deferred.is_pending (peerConnection v)).
  - run_all. unfold peerConnection_catch. run_all.
    run_with cleanup_accounted. destruct H as (-> & -> & _ & _ & _ & C1). run_all.
    destruct (Deferred.is_pending (pcClose v)).
    + run_with cleanup_accounted. destruct H as (-> & -> & _ & _ & _ & C2).
      run_with flush_accounted. destruct H as (-> & _ & _ & M & _ & F).
      apply carries_after_cleanup; [exact M|].
      intros r Hr. simpl.
      eapply accounted_later; [|apply F; apply C2; exact Hr].
      incl_app.
    + run_all.
      run_with flush_accounted. destruct H as (-> & _ & _ & M & _ & F).
      apply carries_after_cleanup; [exact M|].
      intros r Hr. simpl.
      eapply accounted_later; [|apply F; apply C1; exact Hr].
      incl_app.
  - run_all.
    run_with flush_accounted. destruct H as (-> & _ & _ & M & C & F).
    split; [reflexivity|]. split; [exact M|]. split.
    + intros r s _ H.
      eapply accounted_later; [|apply F; apply K; exact H].
      incl_app.
    + intros Hcl. exfalso. revert Hcl. cbn [app].
      rewrite cleanup_runs_cons, C. simpl. lia.
Qed.

Lemma carries_compose (v v1 v' : vars) (o : outcome unit) (t : trace) :
  (forall r s, In r callbacks -> accounted r v s -> accounted r v1 s) ->
  carries v1 o v' t -> carries v o v' t.
Proof.
  intros K (Ho & Hm & Hp & Hn).
  split; [exact Ho|]. split; [exact Hm|]. split; [|exact Hn].
  intros r s Hr H. apply Hp; [exact Hr|]. apply K; assumption.
Qed.

(** A handler that ran no [cleanup]. *)
Lemma carries_quiet (v v' : vars) (t : trace) :
  microtasks v' = [] -> cleanup_runs t = 0 ->
  (forall r s, In r callbacks -> accounted r v s -> accounted r v' (s ++ t)) ->
  carries v (Returned tt) v' t.
Proof.
  intros Hm Hc K. split; [reflexivity|]. split; [exact Hm|]. split; [exact K|].
  rewrite Hc. lia.
Qed.

Lemma client_fails_carries (e : error) (v : vars) :
  post (client_fails e) v (carries v).
Proof.
  unfold client_fails. run_all.
  match goal with |- post (settled _) ?x _ => set (v1 := x) end.
  assert (W : forall r s, accounted r v s -> accounted r v1 s).
  { intros r s. apply accounted_weaker; try reflexivity.
    subst v1. destruct r; simpl; auto. }
  assert (N : promise_status ClientPromise v1 <> StillPending) by discriminate.
  clearbody v1.
  settle N. destruct H as (-> & -> & _ & _ & _ & _ & _ & K1). run_all.
  run_with (start_rejects_carries e v').
  eapply carries_compose; [|exact H].
  intros r s _ Hacc. apply K1; try (intros; reflexivity). apply W. exact Hacc.
Qed.

Lemma signaling_starts_carries (v : vars) :
  post signaling_starts v (carries v).
Proof.
  unfold signaling_starts. run_all.
  run_with (settled_accounted SessionControlPromise v
              (set_sessionControl (Deferred.resolve tt (sessionControl v)) v)
              eq_refl eq_refl (resolve_not_pending tt (sessionControl v))).
  destruct H as (-> & -> & _ & _ & _ & _ & _ & K1). run_all.
  assert (K : forall r s, In r callbacks ->
                accounted r v s -> accounted r (set_start AwaitPeerConnection v') s).
  { intros r s Hr Hacc.
    apply (accounted_ext r v' _ s s); try reflexivity; try apply incl_refl.
    apply K1; try exact Hacc.
    - destruct r; simpl; try reflexivity; discriminate.
    - destruct r; simpl; try reflexivity.
      destruct (sessionControl v); simpl; try reflexivity. intros H; exfalso; apply H; reflexivity.
    - intros _. reflexivity. }
  clear K1.
  destruct (peerConnection (set_start AwaitPeerConnection v')) as [|pc|e].
  - run_all.
    run_with then_accounted. destruct H as (-> & -> & A & R & M & _). run_all.
    run_with flush_accounted. destruct H as (-> & _ & _ & M2 & C & F).
    apply carries_quiet; [exact M2 | exact C |].
    intros r s Hr Hacc. apply F.
    apply (accounted_ext r (set_start AwaitPeerConnection v') _ s s); auto using incl_refl.
  - run_all.
    run_with then_accounted. destruct H as (-> & -> & A & R & M & _). run_all.
    run_with flush_accounted. destruct H as (-> & _ & _ & M2 & C & F).
    apply carries_quiet; [exact M2 | exact C |].
    intros r s Hr Hacc. apply F.
    apply (accounted_ext r (set_start AwaitPeerConnection v') _ s s); auto using incl_refl.
  - run_with (start_rejects_carries e (set_start AwaitPeerConnection v')).
    eapply carries_compose; [exact K | exact H].
Qed.

Lemma connects_carries (two_way_audio : bool) (v : vars) :
  post (connects two_way_audio) v (carries v).
Proof.
  unfold connects. run_all.
  match goal with |- post (settled _) ?x _ => set (v1 := x) end.
  assert (N : promise_status IntercomPromise v1 <> StillPending)
    by (subst v1; simpl; apply resolve_not_pending).
  run_with (settled_accounted IntercomPromise v v1 eq_refl eq_refl N).
  destruct H as (-> & -> & _ & _ & _ & _ & _ & K1). run_all.
  run_with flush_accounted. destruct H as (-> & _ & _ & M2 & C & F).
  apply carries_quiet; [exact M2 | exact C |].
  intros r s Hr Hacc. apply F.
  apply K1; try exact Hacc; subst v1.
  - destruct r; simpl; try reflexivity; discriminate.
  - destruct r; simpl; try reflexivity.
    destruct (intercom v); simpl; try reflexivity. intros H; exfalso; apply H; reflexivity.
  - intros _. reflexivity.
Qed.

Lemma setup_requested_carries (s : Session.setup) (v : vars) :
  microtasks v = [] ->
  post (setup_requested s) v (carries v).
Proof.
  intros Hm. unfold setup_requested. run_all.
  run_with ensurePeerConnection_post. destruct H as (-> & C0 & P1). run_all.
  change (peerConnection (set_session v' v)) with (Session.peerConnection v').
  rewrite P1. unfold peerConnection at 1.
  destruct (Session.peerConnection (session v)) as [|pc|e] eqn:Epc; simpl.
  - run_all.
    assert (N : promise_status PeerConnectionPromise (set_session v' v) <> StillPending).
    { unfold promise_status, peerConnection. simpl. rewrite P1. discriminate. }
    run_with (settled_accounted PeerConnectionPromise v (set_session v' v) eq_refl eq_refl N).
    destruct H as (-> & -> & _ & _ & _ & _ & _ & K1). run_all.
    run_with flush_accounted. destruct H as (-> & _ & _ & M2 & C & F).
    apply carries_quiet; [exact M2 | |].
    + cbn [app]. rewrite cleanup_runs_app, C0, cleanup_runs_cons, C. reflexivity.
    + intros r s0 Hr Hacc.
      eapply accounted_later; [|apply F; apply K1; try exact Hacc].
      * incl_app.
      * destruct r; simpl; try reflexivity; discriminate.
      * destruct r; unfold promise_status, awaited, peerConnection; simpl; try reflexivity;
          rewrite Epc; intros H; exfalso; apply H; reflexivity.
      * destruct r; unfold promise_status, awaited, release, peerConnection; simpl;
          try reflexivity; rewrite Epc; discriminate.
  - run_all. rewrite app_nil_r.
    apply carries_quiet; [exact Hm | exact C0 |].
    intros r s0 Hr Hacc.
    apply (accounted_ext r v _ s0 _); auto using incl_refl, incl_appl.
    unfold awaitables, peerConnection. simpl. rewrite P1, Epc. reflexivity.
  - run_all. rewrite app_nil_r.
    apply carries_quiet; [exact Hm | exact C0 |].
    intros r s0 Hr Hacc.
    apply (accounted_ext r v _ s0 _); auto using incl_refl, incl_appl.
    unfold awaitables, peerConnection. simpl. rewrite P1, Epc. reflexivity.
Qed.

Lemma intercom_call_carries (o : Intercom.op) (v : vars) :
  microtasks v = [] ->
  post (zoom ic set_ic (detached (Intercom.run_op o))) v (carries v).
Proof.
  intros Hm. run_all.
  run_with intercom_op_post.
  apply carries_quiet; [exact Hm | exact H |].
  intros r s Hr Hacc.
  apply (accounted_ext r v _ s _); auto using incl_refl, incl_appl.
Qed.

(** Every event carries the callbacks of [cleanup] along. *)
Lemma step_carries (ev : event) (v : vars) :
  microtasks v = [] -> post (step ev) v (carries v).
Proof.
  intros Hm. unfold step. run_all.
  destruct ev as [|e| | |e|s|b|e| |o].
  - destruct (clientPromise v) eqn:E; simpl; run_all;
      try (apply carries_nothing; exact Hm).
    apply client_connects_carries; assumption.
  - destruct (Deferred.is_pending (clientPromise v)); run_all;
      [apply client_fails_carries | apply carries_nothing; exact Hm].
  - destruct (is_fulfilled (clientPromise v) && negb (socket_closed v)); run_all;
      [apply socket_closes_carries | apply carries_nothing; exact Hm].
  - destruct (is_start AwaitSignaling v); run_all;
      [apply signaling_starts_carries | apply carries_nothing; exact Hm].
  - destruct (is_start AwaitSignaling v); run_all;
      [apply start_rejects_carries | apply carries_nothing; exact Hm].
  - destruct (is_start AwaitClient v); run_all;
      [apply carries_nothing; exact Hm | apply setup_requested_carries; exact Hm].
  - destruct (is_start AwaitConnected v); run_all;
      [apply connects_carries | apply carries_nothing; exact Hm].
  - destruct (is_start AwaitConnected v); run_all;
      [apply start_rejects_carries | apply carries_nothing; exact Hm].
  - destruct (is_fulfilled (peerConnection v) && Deferred.is_pending (pcClose v)); run_all;
      [apply peer_closes_carries | apply carries_nothing; exact Hm].
  - destruct (is_fulfilled (intercom v));
      [apply intercom_call_carries; exact Hm | run_all; apply carries_nothing; exact Hm].
Qed.

Lemma run_tidy (evs : list event) : forall (v : vars) (t0 : trace),
  tidy v t0 ->
  result_of (run evs v) = Returned tt /\
  tidy (state_of (run evs v)) (t0 ++ trace_of (run evs v)).
Proof.
  induction evs as [|ev evs IH]; intros v t0 Ht; simpl.
  - unfold ret, result_of, state_of, trace_of. simpl. rewrite app_nil_r. auto.
  - pose proof (step_carries ev v (proj1 Ht)) as Hs. unfold post in Hs.
    pose proof (carries_tidy _ _ _ _ _ Ht Hs) as Ht1.
    destruct Hs as (Ho & _).
    destruct (IH _ _ Ht1) as (Hr & Ht2).
    unfold bind, result_of, state_of, trace_of in *.
    destruct (step ev v) as [[o v1] t1]. simpl in *. subst o.
    destruct (run evs v1) as [[o2 v2] t2]. simpl in *.
    rewrite app_assoc. auto.
Qed.

(** Teardown is not lost on what arrives late: in every run of the
    bridge, once [cleanup] has run, each resource that exists at the end of
    the run - the sink client, session control, the peer connection, the
    intercom - has been released after that first [cleanup], whether it was
    there when [cleanup] ran or was resolved only afterwards. *)
Theorem teardown_reaches_late_arrivals (evs : list event) :
  let r := run evs init in
  let since := since_cleanup (trace_of r) in
  0 < cleanup_runs (trace_of r) ->
  (is_fulfilled (clientPromise (state_of r)) = true -> In ClientDestroy since) /\
  (is_fulfilled (sessionControl (state_of r)) = true -> In EndSession since) /\
  (forall pc, peerConnection (state_of r) = Deferred.Resolved pc -> In (PcClose pc) since) /\
  (is_fulfilled (intercom (state_of r)) = true -> In (SetPlayback false false) since).
Proof.
  intros r since Hc.
  assert (T0 : tidy init []).
  { split; [reflexivity|]. unfold cleanup_runs. simpl. lia. }
  destruct (run_tidy evs init [] T0) as (_ & Hm & Hacc). fold r in Hm, Hacc.
  simpl in Hacc. specialize (Hacc Hc). fold since in Hacc.
  assert (Hrel : forall c, In c callbacks ->
            promise_status (awaited c) (state_of r) = Fulfilled ->
            incl (release c (state_of r)) since).
  { intros c Hin Hst. specialize (Hacc c Hin). unfold accounted in Hacc.
    rewrite Hst, Hm in Hacc. destruct Hacc as [[]|H]. exact H. }
  repeat split.
  - intros H. apply (Hrel Destroy); [simpl; auto | | left; reflexivity].
    simpl. destruct (clientPromise (state_of r)); try discriminate. reflexivity.
  - intros H. apply (Hrel EndTheSession); [simpl; auto | | left; reflexivity].
    simpl. destruct (sessionControl (state_of r)); try discriminate. reflexivity.
  - intros pc H. apply (Hrel ClosePeer); [simpl; auto | |].
    + simpl. rewrite H. reflexivity.
    + unfold release. rewrite H. left. reflexivity.
  - intros H. apply (Hrel StopTheIntercom); [simpl; auto | | left; reflexivity].
    simpl. destruct (intercom (state_of r)); try discriminate. reflexivity.
Qed.

(** A start chain that fails once the peer connection exists (for
    instance because [waitConnected] rejects) runs [cleanup] not at all: the
    peer connection stays resolved, pcClose stays as it was, and only the
    Deferred values still pending are rejected. *)
Theorem start_failure_with_peer_connection_runs_no_cleanup
    (e : error) (v : vars) (pc : pcid) :
  peerConnection v = Deferred.Resolved pc ->
  let r := start_rejects e v in
  cleanup_runs (trace_of r) = 0 /\
  peerConnection (state_of r) = Deferred.Resolved pc /\
  pcClose (state_of r) = pcClose v /\
  sessionControl (state_of r) = Deferred.reject e (sessionControl v) /\
  intercom (state_of r) = Deferred.reject e (intercom v).
Proof.
  intros Hpc r. subst r.
  change (post (start_rejects e) v (fun _ v' t =>
            cleanup_runs t = 0 /\ peerConnection v' = Deferred.Resolved pc /\
            pcClose v' = pcClose v /\
            sessionControl v' = Deferred.reject e (sessionControl v) /\
            intercom v' = Deferred.reject e (intercom v))).
  unfold start_rejects. run_all.
  run_with start_catch_post. destruct H as (-> & C0 & P0). run_all.
  run_with settled_post. destruct H as (-> & -> & P1). run_all.
  run_with settled_post. destruct H as (-> & -> & P2). run_all.
  run_with settled_post. destruct H as (-> & -> & P3). run_all.
  rewrite Hpc. simpl. run_all.
  run_with flush_post. destruct H as (_ & C6 & P6).
  rewrite !cleanup_runs_app, C0, C6. simpl.
  unfold promises, peerConnection in *. simpl in *.
  rewrite Hpc in P0. simpl in P0.
  repeat split; congruence.
Qed.

Lemma setup_requested_settled (s : Session.setup) (v : vars) :
  Deferred.finished (peerConnection v) = true ->
  setup_requested s v = (Returned tt, v, []).
Proof.
  intros Hf. unfold setup_requested, zoom, bind, get. simpl.
  unfold peerConnection in Hf. rewrite (ensurePeerConnection_settled s (session v) Hf).
  simpl.
  assert (Hv : set_session (session v) v = v) by (destruct v; reflexivity).
  rewrite Hv. unfold peerConnection.
  destruct (Session.peerConnection (session v)); try discriminate; reflexivity.
Qed.

(** After the start chain has failed no peer connection is constructed
    any more: a later request for setup finds the Deferred settled and does
    nothing at all. *)
Theorem no_peer_connection_after_start_failure
    (e : error) (s : Session.setup) (v : vars) :
  setup_requested s (state_of (start_rejects e v))
  = (Returned tt, state_of (start_rejects e v), []).
Proof.
  apply setup_requested_settled.
  pose proof (start_rejects_post e v) as H. unfold post in H.
  destruct H as (_ & _ & H & _). unfold coordination in H. inversion H as [[H1 H2 H3]].
  rewrite H2. destruct (peerConnection v); reflexivity.
Qed.

End TeardownMore.

Lemma teardown_releases_everything_witness :
  trace_of (Lifecycle.peer_closes Sample.talking)
  = [ConsoleLog "webrtc/rtsp cleaning up"; ClientDestroy; EndSession; PcClose 0;
     Kill 0; SetPlayback false false] /\
  trace_of (Lifecycle.socket_closes Sample.talking)
  = [ConsoleLog "webrtc/rtsp cleaning up"; CloseUdp; ClientDestroy; EndSession; PcClose 0;
     Kill 0; SetPlayback false false].
Proof.
  exact (teardown_releases_everything Sample.talking 0
           eq_refl eq_refl eq_refl eq_refl eq_refl).
Defined.

Lemma teardown_reaches_late_arrivals_witness :
  let r := Lifecycle.run
             [Lifecycle.ClientConnects; Lifecycle.SocketCloses; Lifecycle.SignalingStarts;
              Lifecycle.SetupRequested Sample.setup; Lifecycle.Connects true]
             Lifecycle.init in
  let since := Lifecycle.since_cleanup (trace_of r) in
  In ClientDestroy since /\ In EndSession since /\ In (PcClose 0) since /\
  In (SetPlayback false false) since.
Proof.
  destruct (teardown_reaches_late_arrivals
              [Lifecycle.ClientConnects; Lifecycle.SocketCloses; Lifecycle.SignalingStarts;
               Lifecycle.SetupRequested Sample.setup; Lifecycle.Connects true] (le_n 1))
    as (H1 & H2 & H3 & H4).
  exact (conj (H1 eq_refl) (conj (H2 eq_refl) (conj (H3 0 eq_refl) (H4 eq_refl)))).
Defined.

Lemma start_failure_with_peer_connection_runs_no_cleanup_witness :
  let r := Lifecycle.start_rejects (Failure 1) Sample.connecting in
  Lifecycle.cleanup_runs (trace_of r) = 0 /\
  Lifecycle.peerConnection (state_of r) = Deferred.Resolved 0 /\
  Lifecycle.pcClose (state_of r) = Lifecycle.pcClose Sample.connecting /\
  Lifecycle.sessionControl (state_of r)
  = Deferred.reject (Failure 1) (Lifecycle.sessionControl Sample.connecting) /\
  Lifecycle.intercom (state_of r)
  = Deferred.reject (Failure 1) (Lifecycle.intercom Sample.connecting).
Proof.
  exact (start_failure_with_peer_connection_runs_no_cleanup (Failure 1) Sample.connecting 0
           eq_refl).
Defined.
